(** * Handbook chatbot (mini-capstone): chunker, doc2query indexer,
      retriever, answer gate and evaluator

    A shallow embedding of [mini-capstone/src/ingest.py], [index.py],
    [ask.py] and [score.py], with the properties of the written
    specification stated over it.

    Conventions of the embedding.
    - A Python [str] is a [list ascii]; a character is a code point in
      0..255 (Latin-1).  On that range the whitespace of [str.strip],
      [str.isspace] and the regex class [\s] is 9-13, 28-32, 133 and 160,
      the line boundaries of [str.splitlines] are 10-13, 28-30 and 133,
      and the regex class [\d] is 0-9.
    - Generators are the lists of the values they yield, in order.
    - Similarities are rationals: the order and the comparisons of finite
      floats, without the rounding, the overflow and the NaN of the
      float32 arrays of the code.
    - The two model backends, the floating-point vector norm and NumPy's
      [argsort] are parameters of the embedding.
    - Files hold the records that the JSON lines, the CSV rows and the
      array encode.  The directory of text files is the list of its
      files with their texts, a terminal the list of the lines typed. *)

From Stdlib Require Import QArith Qabs.
From Stdlib Require Import Ascii String DecimalString DecimalNat.
From stdpp Require Import gmap strings list sorting.

Local Open Scope nat_scope.

(** ** Python strings *)

Module Py.

Definition str := list ascii.

(** A literal of the source. *)
Definition lit (s : string) : str := list_ascii_of_string s.

Definition LF : ascii := ascii_of_nat 10.
Definition CR : ascii := ascii_of_nat 13.
(** The double quote character. *)
Definition DQ : ascii := ascii_of_nat 34.

Definition code (c : ascii) : nat := nat_of_ascii c.

(** [str.isspace] of one character, also the regex class [\s]. *)
Definition isspace (c : ascii) : bool :=
  let n := code c in
  ((9 <=? n) && (n <=? 13)) || ((28 <=? n) && (n <=? 32))
  || (n =? 133) || (n =? 160).

(** The line boundaries of [str.splitlines]. *)
Definition is_linebreak (c : ascii) : bool :=
  let n := code c in
  ((10 <=? n) && (n <=? 13)) || ((28 <=? n) && (n <=? 30)) || (n =? 133).

Definition is_empty (s : str) : bool :=
  match s with [] => true | _ :: _ => false end.

Fixpoint dropwhile (f : ascii -> bool) (s : str) : str :=
  match s with
  | [] => []
  | c :: s' => if f c then dropwhile f s' else s
  end.

Fixpoint takewhile (f : ascii -> bool) (s : str) : str :=
  match s with
  | [] => []
  | c :: s' => if f c then c :: takewhile f s' else []
  end.

Definition lstrip (s : str) : str := dropwhile isspace s.
Definition rstrip (s : str) : str := rev (dropwhile isspace (rev s)).
(** [s.strip()] *)
Definition strip (s : str) : str := rstrip (lstrip s).

(** [sep.join(l)] *)
Fixpoint join (sep : str) (l : list str) : str :=
  match l with
  | [] => []
  | x :: rest =>
      match rest with
      | [] => x
      | _ :: _ => x ++ sep ++ join sep rest
      end
  end.

(** [s.splitlines()]: [cur] is the line being read, last character
    first.  A carriage return directly followed by a line feed is one
    boundary; an unterminated last line is kept when it is not empty. *)
Fixpoint splitlines_go (cur : str) (s : str) : list str :=
  match s with
  | [] => match cur with [] => [] | _ :: _ => [rev cur] end
  | c :: s' =>
      if is_linebreak c then
        rev cur ::
          (if decide (c = CR) then
             match s' with
             | c' :: s'' =>
                 if decide (c' = LF) then splitlines_go [] s''
                 else splitlines_go [] s'
             | [] => splitlines_go [] s'
             end
           else splitlines_go [] s')
      else splitlines_go (c :: cur) s'
  end.

Definition splitlines (s : str) : list str := splitlines_go [] s.

(** [s.split("\n\n")]: cut at every occurrence of two line feeds, left
    to right and without overlap; always at least one piece. *)
Fixpoint split_blank_go (cur : str) (s : str) : list str :=
  match s with
  | [] => [rev cur]
  | c :: s' =>
      match s' with
      | c' :: s'' =>
          if bool_decide (c = LF) && bool_decide (c' = LF)
          then rev cur :: split_blank_go [] s''
          else split_blank_go (c :: cur) s'
      | [] => split_blank_go (c :: cur) s'
      end
  end.

Definition split_blank (s : str) : list str := split_blank_go [] s.

(** [needle in hay] *)
Fixpoint startswith (p s : str) : bool :=
  match p, s with
  | [], _ => true
  | _ :: _, [] => false
  | a :: p', b :: s' => if decide (a = b) then startswith p' s' else false
  end.

Fixpoint contains (needle hay : str) : bool :=
  startswith needle hay ||
  match hay with
  | [] => false
  | _ :: hay' => contains needle hay'
  end.

(** [len(s)] as a Python int. *)
Definition len (s : str) : Z := Z.of_nat (length s).

(** [re.findall] of a pattern [[class]+]: the maximal runs of characters
    of the class, left to right. *)
Fixpoint runs_go (f : ascii -> bool) (cur : str) (s : str) : list str :=
  match s with
  | [] => match cur with [] => [] | _ :: _ => [rev cur] end
  | c :: s' =>
      if f c then runs_go f (c :: cur) s'
      else match cur with
           | [] => runs_go f [] s'
           | _ :: _ => rev cur :: runs_go f [] s'
           end
  end.

Definition runs (f : ascii -> bool) (s : str) : list str := runs_go f [] s.

Definition is_digit (c : ascii) : bool := (48 <=? code c) && (code c <=? 57).
Definition is_upper (c : ascii) : bool := (65 <=? code c) && (code c <=? 90).
Definition is_lower (c : ascii) : bool := (97 <=? code c) && (code c <=? 122).
Definition is_alpha (c : ascii) : bool := is_upper c || is_lower c.

(** [str.lower] on Latin-1: A-Z and the accented capitals 192-222
    (without the multiplication sign 215) move up by 32. *)
Definition lower_char (c : ascii) : ascii :=
  let n := code c in
  if is_upper c || ((192 <=? n) && (n <=? 222) && negb (n =? 215))
  then ascii_of_nat (n + 32) else c.

Definition lower (s : str) : str := map lower_char s.

(** The cased characters of Latin-1, those that [str.title] takes for
    the letters of a word: A-Z, a-z, the accented letters 192-255
    without the signs 215 and 247, the ordinal indicators 170 and 186
    and the micro sign 181. *)
Definition is_cased (c : ascii) : bool :=
  let n := code c in
  is_alpha c || (n =? 170) || (n =? 181) || (n =? 186)
  || ((192 <=? n) && negb (n =? 215) && negb (n =? 247)).

(** The title case of one character: a-z and the accented small letters
    224-254 (without the division sign 247) move down by 32, the sharp
    s 223 becomes Ss.  The capitals of the micro sign 181 and of 255 lie
    outside Latin-1; these two characters are left as they are. *)
Definition title_char (c : ascii) : str :=
  let n := code c in
  if is_lower c || ((224 <=? n) && (n <=? 254) && negb (n =? 247))
  then [ascii_of_nat (n - 32)]
  else if n =? 223 then lit "Ss" else [c].

(** [str.title]: a cased character that follows a cased character is
    lowercased, any other character is put in title case.  Exact on
    Latin-1 text in which no word starts with 181 or 255. *)
Fixpoint title_go (prev_cased : bool) (s : str) : str :=
  match s with
  | [] => []
  | c :: s' =>
      (if prev_cased then [lower_char c] else title_char c)
      ++ title_go (is_cased c) s'
  end.

Definition title (s : str) : str := title_go false s.

(** [s.replace(a, b)] for one-character [a] and [b]. *)
Definition replace_char (a b : ascii) (s : str) : str :=
  map (fun c => if decide (c = a) then b else c) s.

(** [str(n)] of a natural number. *)
Definition str_of_nat (n : nat) : str :=
  lit (NilEmpty.string_of_uint (Nat.to_uint n)).

(** [s.rfind(c)]: the last index of [c], or -1. *)
Fixpoint rfind_go (c : ascii) (i : Z) (found : Z) (s : str) : Z :=
  match s with
  | [] => found
  | d :: s' => rfind_go c (i + 1) (if decide (d = c) then i else found) s'
  end.

Definition rfind (c : ascii) (s : str) : Z := rfind_go c 0 (-1) s.

(** A literal with the escape [\n] of the source read as a line feed. *)
Fixpoint unescape (s : str) : str :=
  match s with
  | [] => []
  | c :: s' =>
      match s' with
      | d :: s'' =>
          if bool_decide (c = ascii_of_nat 92) && bool_decide (d = ascii_of_nat 110)
          then LF :: unescape s''
          else c :: unescape s'
      | [] => [c]
      end
  end.

Definition py (s : string) : str := unescape (lit s).

End Py.

Import Py.


(** ** ingest.py: the chunker *)

Module Ingest.

Definition MAX_CHARS : Z := 3000.

Definition MULTI_SECTION_FILES : gset str :=
  {[ lit "student_conduct_code.txt";
     lit "sexual_misconduct_title_ix.txt";
     lit "activities_and_organizations.txt";
     lit "living_on_campus.txt" ]}.

Definition is_roman (c : ascii) : bool :=
  bool_decide (c ∈ lit "IVXLCDM").

(** [ROMAN_HEADER_RE.match(stripped)], giving the group [title] of a
    match.  The pattern is [^(?P<num>[IVXLCDM]+)\.\s+(?P<title>.+)$]; it
    is only applied to a stripped line of [splitlines], which has no
    line feed and no whitespace at its ends, so [.+] takes all that
    follows the longest run of whitespace after the dot. *)
Definition roman_header_match (stripped : str) : option str :=
  let num := takewhile is_roman stripped in
  match num, dropwhile is_roman stripped with
  | _ :: _, dot :: rest =>
      if bool_decide (dot = ascii_of_nat 46) then
        match takewhile isspace rest, dropwhile isspace rest with
        | _ :: _, (_ :: _) as title_group => Some title_group
        | _, _ => None
        end
      else None
  | _, _ => None
  end.

(** [normalize_newlines]: the loop over the lines; [blank_streak] is the
    counter of the source, the result is [normalized_lines]. *)
Fixpoint normalize_loop (blank_streak : nat) (lines : list str) : list str :=
  match lines with
  | [] => []
  | line :: rest =>
      if is_empty (strip line) then
        let blank_streak := blank_streak + 1 in
        if blank_streak =? 1
        then [] :: normalize_loop blank_streak rest
        else normalize_loop blank_streak rest
      else line :: normalize_loop 0 rest
  end.

Definition normalize_newlines (text : str) : str :=
  join [LF] (normalize_loop 0 (splitlines text)).

(** [_split_paragraphs_into_chunks]: the texts yielded, in order. *)
Fixpoint split_loop (current : list str) (cur_len : Z) (paragraphs : list str)
    (max_chars : Z) : list str :=
  match paragraphs with
  | [] =>
      match current with
      | [] => []
      | _ :: _ => [join [LF; LF] current]
      end
  | p :: rest =>
      let p_len := len p in
      match current with
      | _ :: _ =>
          if (cur_len + p_len + 2 >? max_chars)%Z
          then join [LF; LF] current :: split_loop [p] p_len rest max_chars
          else split_loop (current ++ [p]) (cur_len + p_len + 2) rest max_chars
      | [] => split_loop (current ++ [p]) (cur_len + p_len + 2) rest max_chars
      end
  end.

Definition _split_paragraphs_into_chunks (paragraphs : list str) (max_chars : Z)
  : list str :=
  split_loop [] 0 paragraphs max_chars.

(** [[p.strip() for p in text.split("\n\n") if p.strip()]] *)
Definition paragraphs_of (text : str) : list str :=
  map strip (filter (fun p => is_empty (strip p) = false) (split_blank text)).

(** [os.path.splitext(filename)[0]] (POSIX): cut at the last dot when it
    comes after the last slash and after a character of the base name
    that is not a dot. *)
Definition splitext_root (p : str) : str :=
  let sepIndex := rfind (ascii_of_nat 47) p in
  let dotIndex := rfind (ascii_of_nat 46) p in
  if (dotIndex >? sepIndex)%Z then
    let between :=
      take (Z.to_nat (dotIndex - (sepIndex + 1))) (drop (Z.to_nat (sepIndex + 1)) p) in
    if forallb (fun c => bool_decide (c = ascii_of_nat 46)) between
    then p
    else take (Z.to_nat dotIndex) p
  else p.

Definition base_title_of (filename : str) : str :=
  title (replace_char (ascii_of_nat 95) (ascii_of_nat 32) (splitext_root filename)).

(** The body shared by the two flushes of [iter_section_chunks]: the
    chunks of one section, each with the section's title. *)
Definition section_chunks (section_title : str) (current_lines : list str)
    (max_chars : Z) : list (str * str) :=
  let section_text := strip (join [LF] current_lines) in
  if is_empty section_text then []
  else map (pair section_title)
         (_split_paragraphs_into_chunks (paragraphs_of section_text) max_chars).

(** Truth value of [current_title]: neither [None] nor empty. *)
Definition title_set (current_title : option str) : bool :=
  match current_title with
  | Some (_ :: _) => true
  | _ => false
  end.

(** The line loop of a multi-section file and the final flush. *)
Fixpoint section_loop (current_title : option str) (current_lines : list str)
    (lines : list str) (base_title : str) (max_chars : Z) : list (str * str) :=
  match lines with
  | [] =>
      match current_lines with
      | [] => []
      | _ :: _ =>
          let title :=
            if title_set current_title then default [] current_title
            else base_title in
          section_chunks title current_lines max_chars
      end
  | line :: rest =>
      let stripped := strip line in
      match roman_header_match stripped with
      | Some title_group =>
          (if title_set current_title && negb (bool_decide (current_lines = []))
           then section_chunks (default [] current_title) current_lines max_chars
           else [])
          ++ section_loop (Some (strip title_group)) [] rest base_title max_chars
      | None =>
          section_loop current_title (current_lines ++ [line]) rest
            base_title max_chars
      end
  end.

(** [iter_section_chunks]: the pairs (section_title, chunk_text) yielded. *)
Definition iter_section_chunks (text filename : str) (max_chars : Z)
  : list (str * str) :=
  let text := normalize_newlines text in
  let multi := bool_decide (filename ∈ MULTI_SECTION_FILES) in
  let base_title := base_title_of filename in
  if negb multi then
    map (pair base_title)
      (_split_paragraphs_into_chunks (paragraphs_of text) max_chars)
  else
    section_loop None [] (splitlines text) base_title max_chars.

End Ingest.


(** ** The records, the files and the effects of the pipeline *)

Module Store.

(** A record of [chunks.jsonl]. *)
Record chunk := Chunk {
  chunk_id : str;
  section_title : str;
  source_file : str;
  url : str;
  text : str
}.

(** A record of [questions.jsonl]. *)
Record question := Question {
  question_id : str;
  q_chunk_id : str;
  q_section_title : str;
  q_question : str
}.

(** A row of [tests/gold.csv]. *)
Record gold_case := GoldCase {
  g_qid : str;
  g_question : str;
  g_type : str;
  g_gold_chunk : str;
  g_notes : str
}.

(** A row of [out/results.csv]; [r_hit1] is [None] for the empty cell. *)
Record result_row := ResultRow {
  r_qid : str;
  r_question : str;
  r_type : str;
  r_gold_chunk : str;
  r_pred_chunk : str;
  r_hit1 : option nat;
  r_answer_text : str;
  r_notes : str
}.

(** A NumPy array as the pipeline builds and loads it: [np.array([])]
    has shape (0,), a non-empty list of equally long vectors is a
    matrix with its rows in order. *)
Inductive ndarray :=
  | Arr1D_empty
  | Arr2D (ncols : nat) (rows : list (list Q)).

(** [meta.json] *)
Record meta := Meta {
  embedding_model : str;
  dimension : nat;
  normalized : bool
}.

(** What a [print] writes.  A text made of strings only is kept as it
    is (without the newline that [print] adds); a line that formats a
    path, a [repr], a shape or a float keeps the formatted values. *)
Inductive printed :=
  | PText (s : str)
  | PLoaded (n : nat)
  | PDropping (q : str)
  | PWroteQuestions (n : nat)
  | PWroteEmbeddings (arr : ndarray)
  | PWroteMeta
  | PCitation (title : str) (url : option str)
  | PHitAt1 (hit_rate : Q).

Inductive error :=
  | BackendError
  | FileNotFoundError
  | ValueError
  | AxisError
  | IndexError.

(** The files of the project, the calls received by the two backends
    (model and text, oldest first) and the standard output. *)
Record world := World {
  chunks_file : option (list chunk);
  questions_file : option (list question);
  embeddings_file : option ndarray;
  meta_file : option meta;
  gold_file : option (list gold_case);
  results_file : option (list result_row);
  chat_calls : list (str * str);
  embed_calls : list (str * str);
  stdout : list printed
}.

Inductive outcome (A : Type) :=
  | Ok (a : A)
  | Raise (e : error).
Arguments Ok {A} a.
Arguments Raise {A} e.

(** A computation: it runs in a world and returns or raises; what it
    wrote before raising stays written. *)
Definition M (A : Type) : Type := world → outcome A * world.

#[export] Instance M_ret : MRet M := λ A a w, (Ok a, w).

#[export] Instance M_bind : MBind M := λ A B f m w,
  match m w with
  | (Ok a, w') => f a w'
  | (Raise e, w') => (Raise e, w')
  end.

Definition raise {A} (e : error) : M A := λ w, (Raise e, w).

Definition lift {A} (o : outcome A) : M A := λ w, (o, w).

(** The world after a [print], after a request to the embedding
    endpoint and after a request to the chat endpoint. *)
Definition printing (p : printed) (w : world) : world :=
  World (chunks_file w) (questions_file w) (embeddings_file w) (meta_file w)
    (gold_file w) (results_file w) (chat_calls w) (embed_calls w)
    (stdout w ++ [p]).

Definition embed_called (model text : str) (w : world) : world :=
  World (chunks_file w) (questions_file w) (embeddings_file w) (meta_file w)
    (gold_file w) (results_file w) (chat_calls w)
    (embed_calls w ++ [(model, text)]) (stdout w).

Definition chat_called (model prompt : str) (w : world) : world :=
  World (chunks_file w) (questions_file w) (embeddings_file w) (meta_file w)
    (gold_file w) (results_file w) (chat_calls w ++ [(model, prompt)])
    (embed_calls w) (stdout w).

Definition print (p : printed) : M unit := λ w, (Ok (), printing p w).

Definition read_file {A} (f : world → option A) : M A := λ w,
  match f w with
  | Some a => (Ok a, w)
  | None => (Raise FileNotFoundError, w)
  end.

(** The world after each of the four files has been written. *)
Definition questions_written (qs : list question) (w : world) : world :=
  World (chunks_file w) (Some qs) (embeddings_file w) (meta_file w)
    (gold_file w) (results_file w) (chat_calls w) (embed_calls w) (stdout w).

Definition embeddings_written (arr : ndarray) (w : world) : world :=
  World (chunks_file w) (questions_file w) (Some arr) (meta_file w)
    (gold_file w) (results_file w) (chat_calls w) (embed_calls w) (stdout w).

Definition meta_written (m : meta) (w : world) : world :=
  World (chunks_file w) (questions_file w) (embeddings_file w) (Some m)
    (gold_file w) (results_file w) (chat_calls w) (embed_calls w) (stdout w).

Definition results_written (rows : list result_row) (w : world) : world :=
  World (chunks_file w) (questions_file w) (embeddings_file w) (meta_file w)
    (gold_file w) (Some rows) (chat_calls w) (embed_calls w) (stdout w).

Definition write_questions (qs : list question) : M unit := λ w,
  (Ok (), questions_written qs w).

Definition write_embeddings (arr : ndarray) : M unit := λ w,
  (Ok (), embeddings_written arr w).

Definition write_meta (m : meta) : M unit := λ w, (Ok (), meta_written m w).

Definition write_results (rows : list result_row) : M unit := λ w,
  (Ok (), results_written rows w).

(** The model server behind [requests.post]: [None] is a failed request
    ([raise_for_status]).  Generation runs at temperature 0. *)
Class Backend := {
  embeddings_api : str → str → option (list Q);
  chat_api : str → str → option str
}.

(** The two NumPy functions whose result is not computed here:
    [np.linalg.norm] of a vector (a floating-point square root) and
    [np.argsort] with its default sort. *)
Class Numpy := {
  linalg_norm : list Q → Q;
  argsort : list Q → list nat
}.

(** [ollama_embed(model, text)] *)
Definition ollama_embed `{Backend} (model text : str) : M (list Q) := λ w,
  match embeddings_api model text with
  | Some v => (Ok v, embed_called model text w)
  | None => (Raise BackendError, embed_called model text w)
  end.

(** [ollama_chat(model, prompt)] *)
Definition ollama_chat `{Backend} (model prompt : str) : M str := λ w,
  match chat_api model prompt with
  | Some r => (Ok r, chat_called model prompt w)
  | None => (Raise BackendError, chat_called model prompt w)
  end.

End Store.

Import Store.

(** ** Notions used to state the properties of the effects *)

Module StoreSpec.

(** A computation that leaves the world as it is. *)
Definition silent {A} (m : M A) : Prop := ∀ w, (m w).2 = w.

(** A computation that leaves one component of the world as it is. *)
Definition preserves {A X} (f : world → X) (m : M A) : Prop :=
  ∀ w, f (m w).2 = f w.

(** A component of the world that requests to the backends do not
    change, and one that printing does not change. *)
Definition ignores_calls {X} (f : world → X) : Prop :=
  ∀ w model text,
    f (embed_called model text w) = f w ∧ f (chat_called model text w) = f w.

Definition ignores_prints {X} (f : world → X) : Prop :=
  ∀ w p, f (printing p w) = f w.

(** A computation whose result does not depend on the world. *)
Definition pure_outcome {A} (m : M A) : Prop := ∀ w w', (m w).1 = (m w').1.

(** No file, no call, no output. *)
Definition empty_world : world :=
  World None None None None None None [] [] [].

End StoreSpec.


(** ** index.py: doc2query questions and their embeddings *)

Module Index.

Definition DOC2QUERY_MODEL : str := lit "qwen2.5:1.5b".
Definition EMBED_MODEL : str := lit "mxbai-embed-large:latest".
Definition N_QUESTIONS_PER_CHUNK : nat := 3.
Definition EMBED_NORMALIZED : bool := false.

Definition STOPWORDS : gset str :=
  list_to_set (map lit
    [ "the"; "and"; "or"; "a"; "an"; "of"; "to"; "in"; "for"; "on";
      "at"; "by"; "is"; "are"; "be"; "this"; "that"; "it"; "with";
      "as"; "from"; "about";
      "what"; "which"; "who"; "whom"; "when"; "where"; "why"; "how";
      "can"; "could"; "would"; "should"; "may" ]%string).

(** The f-string sent by [generate_questions_for_chunk]. *)
Definition doc2query_prompt (n_questions section_title chunk_text : str) : str :=
  lit "
You are helping build a search index for the Centre College Student Handbook.

You will be given:
- the title of a handbook section
- an excerpt from that section

Write "
  ++ n_questions
  ++ lit " different questions that a student, parent, incoming student, or staff member might ask when trying to understand how these rules apply in real situations.

Guidelines:
- Sound natural and conversational, not like a textbook.
- Do NOT prefix question statements with roles, categories, labels, or markdown of any kind.
- You may ask about fines or sanctions only when the excerpt clearly mentions them, but do NOT invent additional penalties not stated.
- Do NOT describe fictional accidents, mishaps, or made-up stories involving friends "
  ++ [DQ]
  ++ lit "sneaking"
  ++ [DQ]
  ++ lit " into a violation.
- Do NOT ask about personal struggles, emotional support, family issues, relationship problems, or everyday mishaps; focus only on policy-related questions that this excerpt can answer.
- Do NOT ask about household chores or routine personal tasks; only ask about enforceable policies stated in the excerpt.
- Do NOT refer to any meta-level structure; questions must be written as if the user only knows general campus topics, not the handbook text you were shown.
- Do NOT introduce sensitive topics unless they are explicitly stated in the excerpt.
- Do NOT copy long phrases from the excerpt; paraphrase in your own words.
- Each question must focus on a different situation or angle.
- Keep each question to one sentence.


Section title: "
  ++ section_title
  ++ lit "

Handbook excerpt:
"
  ++ chunk_text
  ++ lit "
".

(** [line[0] in "-*0123456789"] *)
Definition is_marker (c : ascii) : bool := bool_decide (c ∈ lit "-*0123456789").

(** The characters removed by [line.lstrip("-*0123456789. ")]. *)
Definition is_marker_or_sep (c : ascii) : bool :=
  bool_decide (c ∈ lit "-*0123456789. ").

(** The [while] loop that removes leading numbering and bullets; every
    turn shortens the line, so [length line] turns are enough. *)
Fixpoint strip_markers (fuel : nat) (line : str) : str :=
  match fuel with
  | 0 => line
  | S fuel' =>
      match line with
      | c :: _ =>
          if is_marker c
          then strip_markers fuel' (strip (dropwhile is_marker_or_sep line))
          else line
      | [] => line
      end
  end.

(** The post-processing of the model's answer in
    [generate_questions_for_chunk]. *)
Definition parse_questions (raw : str) : list str :=
  let lines :=
    map strip (filter (fun line => is_empty (strip line) = false) (splitlines raw)) in
  let questions :=
    filter (fun line => is_empty line = false)
      (map (fun line => strip_markers (length line) line) lines) in
  if N_QUESTIONS_PER_CHUNK <? length questions
  then take N_QUESTIONS_PER_CHUNK questions
  else questions.

(** [_tokenize]: [re.findall(r"[A-Za-z]+", text.lower())] without the
    stopwords. *)
Definition _tokenize (text : str) : list str :=
  filter (fun t => t ∉ STOPWORDS) (runs is_alpha (lower text)).

Definition _has_basic_overlap (question chunk_text : str) (min_overlap : nat)
  : bool :=
  let q_tokens : gset str := list_to_set (_tokenize question) in
  let c_tokens : gset str := list_to_set (_tokenize chunk_text) in
  let overlap := q_tokens ∩ c_tokens in
  min_overlap <=? size overlap.

(** [_question_supported_by_chunk]; [nums_q] is
    [re.findall(r"\d+", question)]. *)
Definition _question_supported_by_chunk (question chunk_text : str) : bool :=
  let nums_q := runs is_digit question in
  if forallb (fun n => contains n chunk_text) nums_q
  then
    if negb (_has_basic_overlap question chunk_text 2) then false
    else true
  else false.

Section WithBackend.

Context `{Backend}.

Definition generate_questions_for_chunk (section_title chunk_text : str)
  : M (list str) :=
  let prompt :=
    doc2query_prompt (str_of_nat N_QUESTIONS_PER_CHUNK) section_title chunk_text in
  raw ← ollama_chat DOC2QUERY_MODEL prompt;
  mret (parse_questions raw).

Definition embed_text (text : str) : M (list Q) :=
  ollama_embed EMBED_MODEL text.

(** The cleaning loop of [build_questions] over [raw_questions]; the
    result is [clean]. *)
Fixpoint clean_loop (raw_questions : list str) (text : str) : M (list str) :=
  match raw_questions with
  | [] => mret []
  | q :: rest =>
      let q := strip q in
      if is_empty q then clean_loop rest text
      else if negb (_question_supported_by_chunk q text) then
        print (PDropping q);;
        clean_loop rest text
      else
        clean ← clean_loop rest text;
        mret (q :: clean)
  end.

(** The records appended for one chunk: [enumerate(clean)] from [i]. *)
Fixpoint question_records (chunk_id section_title : str) (i : nat)
    (clean : list str) : list question :=
  match clean with
  | [] => []
  | q :: rest =>
      Question (chunk_id ++ lit "_q" ++ str_of_nat i) chunk_id section_title q
        :: question_records chunk_id section_title (S i) rest
  end.

Fixpoint build_questions (chunks : list chunk) : M (list question) :=
  match chunks with
  | [] => mret []
  | chunk :: rest =>
      let chunk_id := chunk_id chunk in
      let section_title := section_title chunk in
      let text := text chunk in
      print (PText (lit "Generating questions for " ++ chunk_id ++ lit " ("
                    ++ section_title ++ lit ")..."));;
      raw_questions ← generate_questions_for_chunk section_title text;
      clean ← clean_loop raw_questions text;
      match clean with
      | [] =>
          print (PText (lit "  Warning: no supported questions for " ++ chunk_id
                        ++ lit ", skipping this chunk."));;
          build_questions rest
      | _ :: _ =>
          let clean := take N_QUESTIONS_PER_CHUNK clean in
          all_questions ← build_questions rest;
          mret (question_records chunk_id section_title 0 clean ++ all_questions)
      end
  end.

(** [np.array(vectors, dtype="float32")]: rows of different lengths are
    refused. *)
Definition np_array (vectors : list (list Q)) : outcome ndarray :=
  match vectors with
  | [] => Ok Arr1D_empty
  | v :: _ =>
      if forallb (fun u => length u =? length v) vectors
      then Ok (Arr2D (length v) vectors)
      else Raise ValueError
  end.

Context `{Numpy}.

(** [arr / (np.linalg.norm(arr, axis=1, keepdims=True) + 1e-8)] *)
Definition l2_normalize (arr : ndarray) : outcome ndarray :=
  match arr with
  | Arr1D_empty => Raise AxisError
  | Arr2D d rows =>
      Ok (Arr2D d
            (map (fun row =>
                    map (fun x => (x / (linalg_norm row + (1 # 100000000)))%Q) row)
               rows))
  end.

(** The embedding loop of [build_embeddings]; [i] counts the questions
    already embedded and [n] is [len(questions)]. *)
Fixpoint embed_loop (i n : nat) (questions : list question) : M (list (list Q)) :=
  match questions with
  | [] => mret []
  | q :: rest =>
      let text := q_question q in
      print (PText (lit "Embedding question " ++ str_of_nat (i + 1) ++ lit "/"
                    ++ str_of_nat n));;
      vec ← embed_text text;
      vectors ← embed_loop (S i) n rest;
      mret (vec :: vectors)
  end.

Definition build_embeddings (questions : list question) : M ndarray :=
  vectors ← embed_loop 0 (length questions) questions;
  arr ← lift (np_array vectors);
  if EMBED_NORMALIZED then lift (l2_normalize arr) else mret arr.

Definition save_questions (questions : list question) : M unit :=
  write_questions questions;;
  print (PWroteQuestions (length questions)).

Definition save_embeddings (embeddings : ndarray) : M unit :=
  write_embeddings embeddings;;
  print (PWroteEmbeddings embeddings);;
  let meta :=
    Meta EMBED_MODEL
      (match embeddings with Arr2D d _ => d | Arr1D_empty => 0 end)
      EMBED_NORMALIZED in
  write_meta meta;;
  print PWroteMeta.

Definition main : M unit :=
  chunks ← read_file chunks_file;
  print (PLoaded (length chunks));;
  questions ← build_questions chunks;
  save_questions questions;;
  emb_matrix ← build_embeddings questions;
  save_embeddings emb_matrix.

End WithBackend.

End Index.

(** ** ask.py: retrieval and the gated answer *)

Module Ask.

Definition EMBED_MODEL : str := lit "mxbai-embed-large:latest".
Definition GENERATOR_MODEL : str := lit "qwen2.5:1.5b".

Definition TOP_K_QUESTIONS : nat := 5.
Definition MAX_CHUNKS : nat := 1.
Definition MIN_SIMILARITY : Q := 68 # 100.

(** The fixed answer of the confidence gate. *)
Definition INSUFFICIENT : str :=
  lit "Insufficient context in the handbook sections I know.".

(** [x < y] on similarities. *)
Definition Qltb (x y : Q) : bool := negb (Qle_bool y x).

(** The f-string of [build_context_prompt]. *)
Definition context_prompt (context_text user_q : str) : str :=
  lit "
Follow the rules below exactly. Do not violate or ignore any rule.

RULES (read carefully):

1. You must output exactly ONE of:
   (a) an answer based ONLY on user enquiry and all relevant details in the excerpt,
   (b) the exact string: "
  ++ [DQ]
  ++ lit "I cannot help with that as it would violate college policy."
  ++ [DQ]
  ++ lit ",
   (c) the exact string: "
  ++ [DQ]
  ++ lit "Insufficient context in the handbook sections I know."
  ++ [DQ]
  ++ lit "


2. If the question explicitly seeks tips, strategies, or methods to break or sneak around college guidelines,
   respond ONLY with line (b).


3. If the question seeks to manipulate a specific person or group,
   respond ONLY with line (b).


4. If the excerpt includes policy language that directly relates to the question,
   respond with line (a).


5. If the excerpt does NOT include policy language that directly relates to the
   question, respond ONLY with line (c).


6. You must NOT guess, improvise, add assumptions, or supply information not in
   the excerpt.


7. You must NOT mention anything about the rules, excerpt, or knowledge base.


--- EXCERPT START ---
"
  ++ context_text
  ++ lit "
--- EXCERPT END ---

USER QUESTION:
"
  ++ user_q
  ++ lit "

YOUR RESPONSE:
".

(** [chunks_by_id] as [load_chunks] fills it: a later record with the
    same id replaces an earlier one. *)
Definition index_chunks (records : list chunk) : gmap str chunk :=
  foldl (fun chunks_by_id rec => <[chunk_id rec := rec]> chunks_by_id) ∅ records.

Section WithBackend.

Context `{Backend} `{Numpy}.

Definition dot (v w : list Q) : Q :=
  foldr (fun p acc => (p.1 * p.2 + acc)%Q) 0%Q (zip v w).

(** [cosine_sim_matrix(vec, mat)]: the norm along axis 1 needs two
    dimensions, the product needs rows as long as [vec].  The errors
    and the length of the result are those of the code; the values are
    computed in the rationals, where the code rounds to float32. *)
Definition cosine_sim_matrix (vec : list Q) (mat : ndarray) : outcome (list Q) :=
  let vec_norm := (linalg_norm vec + (1 # 100000000))%Q in
  match mat with
  | Arr1D_empty => Raise AxisError
  | Arr2D d rows =>
      let mat_norms := map (fun row => (linalg_norm row + (1 # 100000000))%Q) rows in
      if length vec =? d
      then Ok (map (fun p => (dot p.1 vec / (p.2 * vec_norm))%Q) (zip rows mat_norms))
      else Raise ValueError
  end.

(** The loop of [retrieve_chunks_for_query] over [top_indices], with its
    [continue] and its [break]. *)
Fixpoint collect_chunks (top_indices : list nat) (questions : list question)
    (chunks_by_id : gmap str chunk) (seen : gset str)
    (context_chunks : list chunk) : outcome (list chunk) :=
  match top_indices with
  | [] => Ok context_chunks
  | idx :: rest =>
      match questions !! idx with
      | None => Raise IndexError
      | Some q_rec =>
          let chunk_id := q_chunk_id q_rec in
          if bool_decide (chunk_id ∈ seen)
          then collect_chunks rest questions chunks_by_id seen context_chunks
          else
            let seen := seen ∪ {[ chunk_id ]} in
            let context_chunks :=
              match chunks_by_id !! chunk_id with
              | Some chunk => context_chunks ++ [chunk]
              | None => context_chunks
              end in
            if MAX_CHUNKS <=? length context_chunks
            then Ok context_chunks
            else collect_chunks rest questions chunks_by_id seen context_chunks
      end
  end.

(** [np.argsort(-sims)[:TOP_K_QUESTIONS]] *)
Definition top_k (sims : list Q) : list nat :=
  take TOP_K_QUESTIONS (argsort (map Qopp sims)).

Definition retrieve_chunks_for_query (user_q : str) (emb_matrix : ndarray)
    (questions : list question) (chunks_by_id : gmap str chunk)
  : M (Q * list chunk) :=
  q_vec ← ollama_embed EMBED_MODEL user_q;
  sims ← lift (cosine_sim_matrix q_vec emb_matrix);
  let top_indices := top_k sims in
  max_sim ←
    match top_indices with
    | i0 :: _ =>
        match sims !! i0 with
        | Some s => mret s
        | None => raise IndexError
        end
    | [] => mret 0%Q
    end;
  context_chunks ← lift (collect_chunks top_indices questions chunks_by_id ∅ []);
  mret (max_sim, context_chunks).

Definition build_context_prompt (user_q : str) (context_chunks : list chunk)
  : outcome str :=
  match context_chunks with
  | ch :: _ => Ok (context_prompt (text ch) user_q)
  | [] => Raise IndexError
  end.

(** The citation lines printed after an answer. *)
Fixpoint print_sources (context_chunks : list chunk) : M unit :=
  match context_chunks with
  | [] => mret ()
  | ch :: rest =>
      let title := section_title ch in
      let url := url ch in
      (if is_empty url then print (PCitation title None)
       else print (PCitation title (Some url)));;
      print_sources rest
  end.

Definition answer_query (user_q : str) (emb_matrix : ndarray)
    (questions : list question) (chunks_by_id : gmap str chunk) : M unit :=
  '(max_sim, context_chunks) ←
    retrieve_chunks_for_query user_q emb_matrix questions chunks_by_id;
  if Qltb max_sim MIN_SIMILARITY || bool_decide (context_chunks = []) then
    print (PText (INSUFFICIENT ++ [LF]))
  else
    prompt ← lift (build_context_prompt user_q context_chunks);
    answer ← ollama_chat GENERATOR_MODEL prompt;
    print (PText (strip answer));;
    print (PText (LF :: lit "Sources:"));;
    print_sources context_chunks;;
    print (PText []).

End WithBackend.

End Ask.

(** ** score.py: the evaluator *)

Module Score.

Import Ask.

Section WithBackend.

Context `{Backend} `{Numpy}.

Definition load_gold : M (list gold_case) := read_file gold_file.

Definition load_index : M (ndarray * list question * gmap str chunk) :=
  emb ← read_file embeddings_file;
  questions ← read_file questions_file;
  records ← read_file chunks_file;
  mret (emb, questions, index_chunks records).

Definition safe_generate_answer (user_q : str) (max_sim : Q)
    (context_chunks : list chunk) : M str :=
  if Qltb max_sim MIN_SIMILARITY || bool_decide (context_chunks = []) then
    mret INSUFFICIENT
  else
    prompt ← lift (build_context_prompt user_q context_chunks);
    answer ← ollama_chat GENERATOR_MODEL prompt;
    mret (strip answer).

(** The top-1 predicted chunk: the id of the first context chunk, or
    the empty string. *)
Definition top1_chunk_id (context_chunks : list chunk) : str :=
  match context_chunks with
  | ch :: _ => chunk_id ch
  | [] => []
  end.

(** The loop of [main] over the gold rows, with its two counters and
    the rows collected so far. *)
Fixpoint eval_loop (gold : list gold_case) (emb_matrix : ndarray)
    (questions : list question) (chunks_by_id : gmap str chunk)
    (total_normals total_hits : nat) (out_rows : list result_row)
  : M (nat * nat * list result_row) :=
  match gold with
  | [] => mret (total_normals, total_hits, out_rows)
  | row :: rest =>
      let qid := g_qid row in
      let qtext := g_question row in
      let qtype := g_type row in
      let gold_chunk :=
        if is_empty (g_gold_chunk row) then [] else strip (g_gold_chunk row) in
      let notes := g_notes row in
      '(max_sim, context_chunks) ←
        retrieve_chunks_for_query qtext emb_matrix questions chunks_by_id;
      let pred_chunk := top1_chunk_id context_chunks in
      let '(total_normals, total_hits, hit1) :=
        if bool_decide (qtype = lit "normal") && negb (is_empty gold_chunk) then
          let hit1 := if bool_decide (pred_chunk = gold_chunk) then 1 else 0 in
          (total_normals + 1, total_hits + hit1, Some hit1)
        else (total_normals, total_hits, None) in
      answer_text ← safe_generate_answer qtext max_sim context_chunks;
      eval_loop rest emb_matrix questions chunks_by_id total_normals total_hits
        (out_rows ++ [ResultRow qid qtext qtype gold_chunk pred_chunk hit1
                        answer_text notes])
  end.

Definition main : M unit :=
  gold ← load_gold;
  '(emb_matrix, questions, chunks_by_id) ← load_index;
  '(total_normals, total_hits, out_rows) ←
    eval_loop gold emb_matrix questions chunks_by_id 0 0 [];
  write_results out_rows;;
  if 0 <? total_normals then
    let hit_rate :=
      (inject_Z (Z.of_nat total_hits) / inject_Z (Z.of_nat total_normals))%Q in
    print (PText (lit "Normal questions with gold chunk: " ++ str_of_nat total_normals));;
    print (PHitAt1 hit_rate)
  else
    print (PText (lit "No answerable normal questions found.")).

End WithBackend.

End Score.

(** ** Notions used to state the properties of the chunker *)

Module IngestSpec.

Import Ingest.

(** The paragraphs packed into each chunk: the loop of
    [_split_paragraphs_into_chunks] with [current] kept as it is instead
    of joined. *)
Fixpoint group_loop (current : list str) (cur_len : Z) (paragraphs : list str)
    (max_chars : Z) : list (list str) :=
  match paragraphs with
  | [] =>
      match current with
      | [] => []
      | _ :: _ => [current]
      end
  | p :: rest =>
      let p_len := len p in
      match current with
      | _ :: _ =>
          if (cur_len + p_len + 2 >? max_chars)%Z
          then current :: group_loop [p] p_len rest max_chars
          else group_loop (current ++ [p]) (cur_len + p_len + 2) rest max_chars
      | [] => group_loop (current ++ [p]) (cur_len + p_len + 2) rest max_chars
      end
  end.

Definition chunk_groups (paragraphs : list str) (max_chars : Z) : list (list str) :=
  group_loop [] 0 paragraphs max_chars.

(** A chunk within the budget, or one paragraph that alone exceeds it. *)
Definition within_budget (max_chars : Z) (group : list str) : Prop :=
  (len (join [LF; LF] group) <= max_chars)%Z
  ∨ ∃ p, group = [p] ∧ (max_chars < len p)%Z.

(** A line on which the header pattern matches. *)
Definition is_header (line : str) : bool :=
  bool_decide (is_Some (roman_header_match (strip line))).

(** The lines between the headers: first the lines before the first
    header, then the body of every header, in order. *)
Fixpoint bodies_go (cur : list str) (lines : list str) : list (list str) :=
  match lines with
  | [] => [cur]
  | line :: rest =>
      if is_header line then cur :: bodies_go [] rest
      else bodies_go (cur ++ [line]) rest
  end.

Definition section_bodies (lines : list str) : list (list str) :=
  bodies_go [] lines.

Definition section_paragraphs (body : list str) : list str :=
  paragraphs_of (strip (join [LF] body)).

(** The chunks of the lines of one section. *)
Definition body_chunks (max_chars : Z) (body : list str) : list str :=
  _split_paragraphs_into_chunks (section_paragraphs body) max_chars.

(** The paragraphs that the chunker makes of a document, in reading
    order and with the text before the first header: the splitting of
    the code applied to the normalized text, section by section. *)
Definition document_paragraphs (text filename : str) : list str :=
  let text := normalize_newlines text in
  if bool_decide (filename ∈ MULTI_SECTION_FILES)
  then flat_map section_paragraphs (section_bodies (splitlines text))
  else paragraphs_of text.

(** A blank line of a text, as [normalize_newlines] tests it. *)
Definition is_blank (line : str) : bool := is_empty (strip line).

(** Two blank lines in a row. *)
Fixpoint has_blank_pair (lines : list str) : bool :=
  match lines with
  | [] => false
  | a :: rest =>
      match rest with
      | [] => false
      | b :: _ => (is_blank a && is_blank b) || has_blank_pair rest
      end
  end.

(** The text without its final line feed, when it has one. *)
Definition chomp (s : str) : str :=
  match rev s with
  | c :: r => if bool_decide (c = LF) then rev r else s
  | [] => s
  end.

(** A character that ends no line. *)
Definition no_break (line : str) : Prop :=
  Forall (λ c, is_linebreak c = false) line.

(** The shape of [normalized_lines]: a blank entry is the empty string
    and follows no blank entry; [prev_blank] tells whether the entry
    before the list is blank. *)
Fixpoint single_blanks (prev_blank : bool) (lines : list str) : bool :=
  match lines with
  | [] => true
  | line :: rest =>
      if is_blank line
      then is_empty line && negb prev_blank && single_blanks true rest
      else single_blanks false rest
  end.

(** The lines without a final empty line. *)
Fixpoint trim_last (lines : list str) : list str :=
  match lines with
  | [] => []
  | line :: rest =>
      match rest with
      | [] => if is_empty line then [] else [line]
      | _ :: _ => line :: trim_last rest
      end
  end.

End IngestSpec.

(** ** Notions used to state the properties of the support filter *)

Module IndexSpec.

Import Index.

(** [needle] occurs in [hay] as a block of consecutive characters. *)
Definition substring (needle hay : str) : Prop :=
  ∃ before after, hay = before ++ needle ++ after.

Definition outside (f : ascii → bool) (c : option ascii) : Prop :=
  match c with
  | Some c => f c = false
  | None => True
  end.

(** The run being read, when there is one. *)
Definition pending (cur : str) : list str :=
  match cur with [] => [] | _ :: _ => [rev cur] end.

(** [run] is a maximal block of characters of the class [f] in [s]:
    not empty, and neither preceded nor followed by a character of the
    class. *)
Definition maximal_run (f : ascii → bool) (s run : str) : Prop :=
  ∃ before after,
    s = before ++ run ++ after
    ∧ run ≠ []
    ∧ Forall (λ c, f c = true) run
    ∧ outside f (last before)
    ∧ outside f (head after).

(** A digit-substring of [s]: a non-empty block of digits. *)
Definition digit_substring (d s : str) : Prop :=
  d ≠ [] ∧ Forall (λ c, is_digit c = true) d ∧ substring d s.

(** A content word of [text]: a maximal block of letters of the
    lowercased text that is not a stopword. *)
Definition content_word (w text : str) : Prop :=
  maximal_run is_alpha (lower text) w ∧ w ∉ STOPWORDS.

(** The two texts have at least two content words in common. *)
Definition share_two_words (question chunk_text : str) : Prop :=
  ∃ w1 w2, w1 ≠ w2
    ∧ content_word w1 question ∧ content_word w1 chunk_text
    ∧ content_word w2 question ∧ content_word w2 chunk_text.

(** The invariant of the persisted index: the embedding matrix has one
    row per question of [questions.jsonl]. *)
Definition index_consistent (w : world) : Prop :=
  match questions_file w, embeddings_file w with
  | Some questions, Some (Arr2D _ rows) => length rows = length questions
  | Some questions, Some Arr1D_empty => questions = []
  | None, None => True
  | _, _ => False
  end.

End IndexSpec.

(** ** Notions used to state the properties of the retriever *)

Module AskSpec.

Import Ask.

(** The value at an index of a vector. *)
Definition key_at (keys : list Q) (i : nat) : Q := default 0%Q (keys !! i).

(** What NumPy documents for [np.argsort(keys)] with the default sort
    (quicksort, not stable): the indices of [keys], each once, such that
    the values come in ascending order.  The order of the indices of
    equal values is not fixed. *)
Definition argsort_ok (keys : list Q) (idxs : list nat) : Prop :=
  idxs ≡ₚ seq 0 (length keys)
  ∧ StronglySorted (λ i j, (key_at keys i <= key_at keys j)%Q) idxs.

(** The tie rule of the specification: of two rows with the same
    similarity, the one with the smaller index is selected first. *)
Definition ties_by_index (sims : list Q) (top : list nat) : Prop :=
  ∀ i j, i < j → j < length sims → (key_at sims i == key_at sims j)%Q →
    j ∈ top → ∃ a b, a < b ∧ top !! a = Some i ∧ top !! b = Some j.

(** An argsort by insertion: [before x y] tells whether an index with
    value [x] goes in front of an index with value [y]. *)
Fixpoint insert_index (before : Q → Q → bool) (keys : list Q) (i : nat)
    (sorted : list nat) : list nat :=
  match sorted with
  | [] => [i]
  | j :: rest =>
      if before (key_at keys i) (key_at keys j) then i :: sorted
      else j :: insert_index before keys i rest
  end.

Definition insertion_argsort (before : Q → Q → bool) (keys : list Q) : list nat :=
  foldr (insert_index before keys) [] (seq 0 (length keys)).

End AskSpec.

(** ** Notions used to state the properties of the evaluator *)

Module ScoreSpec.

Import Ask Score.

(** The gold chunk id of a case, as the evaluator reads it. *)
Definition gold_of (row : gold_case) : str := strip (g_gold_chunk row).

(** A case that counts for Hit@1: of type "normal", with a gold chunk. *)
Definition eligible (row : gold_case) : bool :=
  bool_decide (g_type row = lit "normal") && negb (is_empty (gold_of row)).

Section WithBackend.

Context `{Backend} `{Numpy}.

Variable emb_matrix : ndarray.
Variable questions : list question.
Variable chunks_by_id : gmap str chunk.

(** The id of the first chunk that the retriever returns for a
    question, empty when it returns none. *)
Definition predicted (qtext : str) : str :=
  match
    (retrieve_chunks_for_query qtext emb_matrix questions chunks_by_id
       StoreSpec.empty_world).1
  with
  | Ok (_, context_chunks) => top1_chunk_id context_chunks
  | Raise _ => []
  end.

(** An eligible case whose predicted chunk is the gold chunk. *)
Definition hit (row : gold_case) : bool :=
  eligible row && bool_decide (predicted (g_question row) = gold_of row).

(** The row of [results.csv] that belongs to a case; the answer text
    is left open. *)
Definition row_of_case (row : gold_case) (r : result_row) : Prop :=
  r_qid r = g_qid row
  ∧ r_question r = g_question row
  ∧ r_type r = g_type row
  ∧ r_gold_chunk r = gold_of row
  ∧ r_pred_chunk r = predicted (g_question row)
  ∧ r_hit1 r = (if eligible row then Some (if hit row then 1 else 0) else None)
  ∧ r_notes r = g_notes row.

(** What the evaluator prints at the end. *)
Definition summary (normals hits : nat) : list printed :=
  if 0 <? normals then
    [PText (lit "Normal questions with gold chunk: " ++ str_of_nat normals);
     PHitAt1 (inject_Z (Z.of_nat hits) / inject_Z (Z.of_nat normals))%Q]
  else [PText (lit "No answerable normal questions found.")].

End WithBackend.

End ScoreSpec.

(** ** Test doubles: a backend, NumPy and a small corpus *)

Module Fixtures.

(** The chunk of the example scenario of the specification. *)
Definition absences_chunk : chunk :=
  Chunk (lit "chunk_1") (lit "Attendance") (lit "attendance_policy.txt") []
    (lit "Students may have up to 2 unexcused absences").

(** The generation backend answers every prompt with the same three
    numbered lines; the embedding backend knows two texts. *)
#[local] Instance backend : Backend := {|
  embeddings_api := λ model text,
    if bool_decide (text = lit "how many absences can I miss") then Some [1; 0]%Q
    else if bool_decide (text = lit "How many unexcused absences may students have?")
    then Some [1; 0]%Q
    else if bool_decide (text = lit "What about absences of students?")
    then Some [0; 1]%Q
    else None;
  chat_api := λ model prompt,
    Some (py "1. How many unexcused absences may students have?\n2. Are 5 absences allowed for students?\n- What about absences of students?")
|}.

Definition empty_world : world := StoreSpec.empty_world.

(** An index of one question, which belongs to the chunk above and
    whose embedding is orthogonal to that of the live query. *)
Definition other_question : question :=
  Question (lit "chunk_1_q0") (lit "chunk_1") (lit "Attendance")
    (lit "What about absences of students?").

Definition other_matrix : ndarray := Arr2D 2 [[0; 1]%Q].

(** A backend whose embedding endpoint is down. *)
#[local] Instance offline_backend : Backend := {|
  embeddings_api := λ model text, None;
  chat_api := λ model prompt,
    Some (py "1. How many unexcused absences may students have?\n2. Are 5 absences allowed for students?\n- What about absences of students?")
|}.

(** A backend that answers every request: the live query about
    absences and the first question of the index get one embedding, any
    other text gets an orthogonal one. *)
#[local] Instance eval_backend : Backend := {|
  embeddings_api := λ model text,
    if bool_decide (text = lit "how many absences can I miss") then Some [1; 0]%Q
    else Some [0; 1]%Q;
  chat_api := λ model prompt, Some (lit " Up to 2 unexcused absences. ")
|}.

Definition dress_chunk : chunk :=
  Chunk (lit "chunk_2") (lit "Dress Code") (lit "dress_code.txt") []
    (lit "Students wear the uniform on campus").

(** A project directory with an index of two questions and a gold set
    of three cases: a normal case that is retrieved, a normal case whose
    gold chunk is not the one retrieved, and a case without gold chunk. *)
Definition eval_world : world :=
  World
    (Some [absences_chunk; dress_chunk])
    (Some [Question (lit "chunk_1_q0") (lit "chunk_1") (lit "Attendance")
             (lit "How many unexcused absences may students have?");
           Question (lit "chunk_2_q0") (lit "chunk_2") (lit "Dress Code")
             (lit "What do students wear on campus?")])
    (Some (Arr2D 2 [[1; 0]; [0; 1]]%Q))
    (Some (Meta Index.EMBED_MODEL 2 false))
    (Some [GoldCase (lit "q1") (lit "how many absences can I miss") (lit "normal")
             (lit "chunk_1") [];
           GoldCase (lit "q2") (lit "what do I wear") (lit "normal")
             (lit " chunk_1 ") [];
           GoldCase (lit "q3") (lit "how do I skip class unnoticed")
             (lit "adversarial") [] []])
    None [] [] [].

(** A project directory with an index built earlier: one question and
    the matrix of its embedding. *)
Definition served_world : world :=
  World (Some [absences_chunk]) (Some [other_question]) (Some other_matrix)
    (Some (Meta Index.EMBED_MODEL 2 false)) None None [] [] [].

(** A stand-in for the Euclidean norm: the sum of the absolute values,
    equal to it on vectors with one non-zero coordinate. *)
Definition l1_norm (v : list Q) : Q := foldr (λ x acc, (Qabs x + acc)%Q) 0%Q v.

(** An argsort that keeps equal values in index order. *)
#[local] Instance numpy : Numpy := {|
  linalg_norm := l1_norm;
  argsort := AskSpec.insertion_argsort Qle_bool
|}.

(** An argsort that puts equal values in reverse index order. *)
#[local] Instance numpy_reversing : Numpy := {|
  linalg_norm := l1_norm;
  argsort := AskSpec.insertion_argsort Ask.Qltb
|}.

End Fixtures.

(** ** ingest.py: the entry point *)

Module IngestMain.

Import Ingest.

(** The handbook address of each file; in a dict display a later entry
    with the same key replaces an earlier one. *)
Definition URLS : gmap str str :=
  foldl (fun urls kv => <[kv.1 := kv.2]> urls) ∅
    [
      (lit "activities_and_organizations.txt",
       lit "https://centre.smartcatalogiq.com/en/catalog-and-handbooks/student-handbook/activities-and-organizations");
      (lit "alcohol_drug_policy.txt",
       lit "https://centre.smartcatalogiq.com/catalog-and-handbooks/student-handbook/student-policies-and-regulations/alcohol-and-drug-policy");
      (lit "good_samaritan_medical_amnesty.txt",
       lit "https://centre.smartcatalogiq.com/en/catalog-and-handbooks/student-handbook/student-policies-and-regulations/good-samaritan-and-medical-amnesty-policies");
      (lit "greek_life_social_policy.txt",
       lit "https://centre.smartcatalogiq.com/en/catalog-and-handbooks/student-handbook/student-policies-and-regulations/greek-life-social-policy");
      (lit "hazing_statement.txt",
       lit "https://centre.smartcatalogiq.com/en/catalog-and-handbooks/student-handbook/student-policies-and-regulations/hazing-statement");
      (lit "living_on_campus.txt",
       lit "https://centre.smartcatalogiq.com/en/catalog-and-handbooks/student-handbook/living-on-campus");
      (lit "student_conduct_code.txt",
       lit "https://centre.smartcatalogiq.com/en/catalog-and-handbooks/student-handbook/student-policies-and-regulations/policy-prohibiting-discrimination-and-harassment");
      (lit "sexual_misconduct_title_ix.txt",
       lit "https://centre.smartcatalogiq.com/en/catalog-and-handbooks/student-handbook/student-policies-and-regulations/sexual-misconduct-policy");
      (lit "student_travel_policy.txt",
       lit "https://centre.smartcatalogiq.com/en/catalog-and-handbooks/student-handbook/student-policies-and-regulations/student-travel-policy");
      (lit "visitation_policy.txt",
       lit "https://centre.smartcatalogiq.com/en/catalog-and-handbooks/student-handbook/student-policies-and-regulations/visitation")
    ].

(** [chunks.jsonl] just opened for writing, and after one more line. *)
Definition chunks_opened (w : world) : world :=
  World (Some []) (questions_file w) (embeddings_file w) (meta_file w)
    (gold_file w) (results_file w) (chat_calls w) (embed_calls w) (stdout w).

Definition chunk_appended (rec : chunk) (w : world) : world :=
  World (Some (default [] (chunks_file w) ++ [rec])) (questions_file w)
    (embeddings_file w) (meta_file w) (gold_file w) (results_file w)
    (chat_calls w) (embed_calls w) (stdout w).

Definition open_chunks : M unit := λ w, (Ok (), chunks_opened w).

Definition write_chunk (rec : chunk) : M unit := λ w, (Ok (), chunk_appended rec w).

(** The inner loop of [main]: one record per pair yielded by
    [iter_section_chunks]; the result is the next [chunk_id]. *)
Fixpoint write_records (chunk_id : nat) (filename url : str)
    (pairs : list (str * str)) : M nat :=
  match pairs with
  | [] => mret chunk_id
  | (section_title, chunk_text) :: rest =>
      let record :=
        Chunk (lit "chunk_" ++ str_of_nat chunk_id) section_title filename url
          chunk_text in
      write_chunk record;;
      write_records (chunk_id + 1) filename url rest
  end.

(** The outer loop of [main] over [load_text_files(data_dir)]: the
    files come in the sorted order of their paths, each with its decoded
    text, or with [None] when [read_text] cannot decode it (a
    [UnicodeDecodeError], which is a [ValueError]).  A file is read when
    the loop reaches it. *)
Fixpoint files_loop (chunk_id : nat) (files : list (str * option str)) : M nat :=
  match files with
  | [] => mret chunk_id
  | (filename, content) :: rest =>
      match content with
      | None => raise ValueError
      | Some text =>
          let url := default [] (URLS !! filename) in
          chunk_id ←
            write_records chunk_id filename url
              (iter_section_chunks text filename MAX_CHARS);
          files_loop chunk_id rest
      end
  end.

(** [main], for the text files of the data directory and the path of
    [chunks.jsonl] as it is printed. *)
Definition main (files : list (str * option str)) (out_path : str) : M unit :=
  open_chunks;;
  chunk_id ← files_loop 0 files;
  print (PText (lit "Wrote " ++ str_of_nat chunk_id ++ lit " chunks to " ++ out_path)).

(** The records that [main] writes for readable files, numbered from
    [chunk_id]. *)
Definition records_of_file (chunk_id : nat) (filename text : str) : list chunk :=
  imap (fun i p =>
          Chunk (lit "chunk_" ++ str_of_nat (chunk_id + i)) p.1 filename
            (default [] (URLS !! filename)) p.2)
    (iter_section_chunks text filename MAX_CHARS).

Fixpoint records_of_files (chunk_id : nat) (files : list (str * str)) : list chunk :=
  match files with
  | [] => []
  | (filename, text) :: rest =>
      let records := records_of_file chunk_id filename text in
      records ++ records_of_files (chunk_id + length records) rest
  end.

End IngestMain.

(** ** Further notions about the chunker *)

Module ChunkerSpec.

Import Ingest.

(** A text that is not empty and has no whitespace at either end. *)
Definition trimmed (s : str) : Prop :=
  s ≠ []
  ∧ (∃ c, head s = Some c ∧ isspace c = false)
  ∧ (∃ c, last s = Some c ∧ isspace c = false).

(** Every group but the last is full: its text together with the first
    paragraph of the next group and the separator exceeds the budget,
    up to the two characters that the first group of a list counts in
    excess. *)
Fixpoint packed_tight (max_chars : Z) (groups : list (list str)) : Prop :=
  match groups with
  | [] => True
  | g :: rest =>
      match rest with
      | [] => True
      | next :: _ =>
          (max_chars < len (join [LF; LF] g) + len (default [] (head next)) + 4)%Z
          ∧ packed_tight max_chars rest
      end
  end.

End ChunkerSpec.

(** ** Notions used to state the properties of the index build *)

Module BuildSpec.

Import Index.

(** The prompt that [generate_questions_for_chunk] sends for a chunk. *)
Definition chunk_prompt (ch : chunk) : str :=
  doc2query_prompt (str_of_nat N_QUESTIONS_PER_CHUNK) (section_title ch) (text ch).

(** A question as the parser of the model's answer leaves it: trimmed,
    and without a list marker in front. *)
Definition clean_question (q : str) : Prop :=
  ChunkerSpec.trimmed q ∧ ∀ c, head q = Some c → is_marker c = false.

(** The questions kept for a chunk out of the answer [raw] of the model,
    and their records, numbered from 0 within the chunk. *)
Definition kept_questions (ch : chunk) (raw : str) : list str :=
  filter (λ q, _question_supported_by_chunk q (text ch) = true)
    (parse_questions raw).

Definition chunk_questions (ch : chunk) (raw : str) : list question :=
  imap (λ i q,
          Question (chunk_id ch ++ lit "_q" ++ str_of_nat i) (chunk_id ch)
            (section_title ch) q)
    (kept_questions ch raw).

Section WithBackend.

Context `{Backend}.

(** The answer of the generation model for a chunk. *)
Definition model_answer (ch : chunk) : option str :=
  chat_api DOC2QUERY_MODEL (chunk_prompt ch).

Definition expected_questions (chunks : list chunk) : list question :=
  flat_map (λ ch, chunk_questions ch (default [] (model_answer ch))) chunks.

(** The embedding of a question of the index. *)
Definition question_vector (q : question) : option (list Q) :=
  embeddings_api EMBED_MODEL (q_question q).

End WithBackend.

(** The matrix that [np.array] makes of the vectors, all of length [d]. *)
Definition matrix_of (d : nat) (vectors : list (list Q)) : ndarray :=
  match vectors with
  | [] => Arr1D_empty
  | _ :: _ => Arr2D d vectors
  end.

End BuildSpec.

(** ** Fixtures of the index build *)

Module BuildFixtures.

(** A server whose generation endpoint is down. *)
#[local] Instance mute_backend : Backend := {|
  embeddings_api := λ model text, Some [1; 0]%Q;
  chat_api := λ model prompt, None
|}.

(** A project directory with no chunk, and a gold set of one case. *)
Definition bare_world : world :=
  World (Some []) None None None
    (Some [GoldCase (lit "q1") (lit "how many absences can I miss") (lit "normal")
             (lit "chunk_1") []])
    None [] [] [].

End BuildFixtures.

(** ** Notions used to state the properties of a retrieval and of the
       answer shown *)

Module RetrievalSpec.

Import Ask.

(** The chunk ids of the questions at the selected rows, in order. *)
Definition top_chunk_ids (top_indices : list nat) (questions : list question)
  : list str :=
  omap (λ idx, q_chunk_id <$> questions !! idx) top_indices.

(** The gate of [answer_query] and [safe_generate_answer]. *)
Definition closed_gate (max_sim : Q) (context_chunks : list chunk) : bool :=
  Qltb max_sim MIN_SIMILARITY || bool_decide (context_chunks = []).

(** The citation lines of the context chunks. *)
Definition citations (context_chunks : list chunk) : list printed :=
  map (λ ch, PCitation (section_title ch)
               (if is_empty (url ch) then None else Some (url ch)))
    context_chunks.

(** What the chatbot shows for an answer text: behind the closed gate
    the text followed by an empty line; else the text, the sources and
    an empty line. *)
Definition shown_answer (closed : bool) (answer_text : str)
    (context_chunks : list chunk) : list printed :=
  if closed then [PText (answer_text ++ [LF])]
  else PText answer_text :: PText (LF :: lit "Sources:")
         :: citations context_chunks ++ [PText []].

End RetrievalSpec.

(** ** ask.py: the chat session *)

Module AskMain.

Import Ask.

(** [user_q.lower() in {"/exit", "/quit"}] *)
Definition is_exit (user_q : str) : bool :=
  bool_decide (lower user_q ∈ [lit "/exit"; lit "/quit"]).

(** The queries of a session: the lines typed, stripped, without the
    blank ones, up to the first exit command. *)
Fixpoint queries (inputs : list str) : list str :=
  match inputs with
  | [] => []
  | line :: rest =>
      let user_q := strip line in
      if is_empty user_q then queries rest
      else if is_exit user_q then []
      else user_q :: queries rest
  end.

Section WithBackend.

Context `{Backend} `{Numpy}.

(** [load_meta]: a missing file gives the empty dict. *)
Definition load_meta : M (option meta) := λ w, (Ok (meta_file w), w).

(** The [while True] loop of [main].  [inputs] are the lines that
    [input] returns, one per turn; after the last one [input] raises
    [EOFError].  The prompt that [input] writes is not recorded in the
    output. *)
Fixpoint repl (inputs : list str) (emb_matrix : ndarray)
    (questions : list question) (chunks_by_id : gmap str chunk) : M unit :=
  match inputs with
  | [] => print (PText [])
  | line :: rest =>
      let user_q := strip line in
      if is_empty user_q then repl rest emb_matrix questions chunks_by_id
      else if is_exit user_q then mret ()
      else
        answer_query user_q emb_matrix questions chunks_by_id;;
        repl rest emb_matrix questions chunks_by_id
  end.

Definition main (inputs : list str) : M unit :=
  questions ← read_file questions_file;
  records ← read_file chunks_file;
  emb_matrix ← read_file embeddings_file;
  meta ← load_meta;
  print (PText (lit "Centre Handbook Chatbot"));;
  print (PText (lit "Type /exit or /quit to stop." ++ [LF]));;
  repl inputs emb_matrix questions (index_chunks records).

End WithBackend.

End AskMain.

(** ** Notions used to compare the two paths of the chunker *)

Module ParagraphSpec.

Import Ingest.

(** The paragraphs made of the pieces between blank lines: the pieces
    that are not blank, stripped. *)
Definition kept (pieces : list str) : list str :=
  map strip (filter (λ p, is_empty (strip p) = false) pieces).

End ParagraphSpec.

(** ** The paragraphs of a source text, read line by line *)

Module SourceSpec.

Import Ingest IngestSpec.

(** A line that ends a paragraph: a blank line and, in a multi-section
    file, a header line. *)
Definition separates (multi : bool) (line : str) : bool :=
  is_blank line || (multi && is_header line).

(** The blocks of lines between the separating lines, in order; [cur]
    is the block being read. *)
Fixpoint line_blocks (sep : str → bool) (cur : list str) (lines : list str)
  : list (list str) :=
  match lines with
  | [] =>
      match cur with
      | [] => []
      | _ :: _ => [cur]
      end
  | line :: rest =>
      if sep line then
        match cur with
        | [] => line_blocks sep [] rest
        | _ :: _ => cur :: line_blocks sep [] rest
        end
      else line_blocks sep (cur ++ [line]) rest
  end.

(** The paragraphs of a source text: the lines of the text as it is,
    cut into blocks at the blank lines (and at the header lines of a
    multi-section file); each block is put together again with line
    feeds and loses the whitespace at its two ends. *)
Definition source_paragraphs (text filename : str) : list str :=
  let multi := bool_decide (filename ∈ MULTI_SECTION_FILES) in
  map (λ block, strip (join [LF] block))
    (line_blocks (separates multi) [] (splitlines text)).

(** The first line that is not blank is a header, or no line is a
    header. *)
Fixpoint header_comes_first (lines : list str) : bool :=
  match lines with
  | [] => true
  | line :: rest =>
      if is_header line then true
      else if is_blank line then header_comes_first rest
      else negb (existsb is_header rest)
  end.

(** No text stands before the first header of a multi-section file. *)
Definition no_text_before_first_header (text filename : str) : bool :=
  negb (bool_decide (filename ∈ MULTI_SECTION_FILES))
  || header_comes_first (splitlines text).

(** The lines, each followed by a line feed. *)
Definition terminated (lines : list str) : str :=
  concat (map (λ line, line ++ [LF]) lines).

End SourceSpec.

(** * Properties *)

(** ** Computations *)

Module StoreFacts.

Import StoreSpec.

Lemma bind_Ok {A B} (m : M A) (f : A → M B) w b w' :
  (m ≫= f) w = (Ok b, w') → ∃ a w1, m w = (Ok a, w1) ∧ f a w1 = (Ok b, w').
Proof.
  unfold mbind, M_bind. destruct (m w) as [[a|e] w1]; [eauto|done].
Qed.

Lemma bind_Raise {A B} (m : M A) (f : A → M B) w e w' :
  (m ≫= f) w = (Raise e, w') →
  m w = (Raise e, w') ∨ ∃ a w1, m w = (Ok a, w1) ∧ f a w1 = (Raise e, w').
Proof.
  unfold mbind, M_bind. destruct (m w) as [[a|e1] w1]; [eauto|].
  intros [= -> ->]. by left.
Qed.

Lemma ret_Ok {A} (a b : A) w w' :
  (mret a : M A) w = (Ok b, w') → a = b ∧ w = w'.
Proof. by intros [= -> ->]. Qed.

Lemma bind_snd_silent {A B} (m : M A) (f : A → M B) w :
  (∀ a, silent (f a)) → ((m ≫= f) w).2 = (m w).2.
Proof.
  intros Hf. unfold mbind, M_bind. destruct (m w) as [[a|e] w1]; [|done].
  apply Hf.
Qed.

Lemma silent_bind {A B} (m : M A) (f : A → M B) :
  silent m → (∀ a, silent (f a)) → silent (m ≫= f).
Proof. intros Hm Hf w. rewrite bind_snd_silent by done. apply Hm. Qed.

Lemma silent_ret {A} (a : A) : silent (mret a : M A).
Proof. by intros w. Qed.

Lemma silent_raise {A} e : silent (raise e : M A).
Proof. by intros w. Qed.

Lemma silent_lift {A} (o : outcome A) : silent (lift o).
Proof. by intros w. Qed.

Lemma preserves_bind {A B X} (f : world → X) (m : M A) (k : A → M B) :
  preserves f m → (∀ a, preserves f (k a)) → preserves f (m ≫= k).
Proof.
  intros Hm Hk w. unfold mbind, M_bind.
  specialize (Hm w). destruct (m w) as [[a|e] w1]; simpl in *; [|done].
  by rewrite Hk.
Qed.

Lemma preserves_ret {A X} (f : world → X) (a : A) : preserves f (mret a : M A).
Proof. by intros w. Qed.

Lemma preserves_print {X} (f : world → X) p : ignores_prints f → preserves f (print p).
Proof. intros Hf w. apply Hf. Qed.

Lemma preserves_embed `{Backend} {X} (f : world → X) model text :
  ignores_calls f → preserves f (ollama_embed model text).
Proof.
  intros Hf w. unfold ollama_embed. destruct (embeddings_api _ _); apply Hf.
Qed.

Lemma preserves_chat `{Backend} {X} (f : world → X) model prompt :
  ignores_calls f → preserves f (ollama_chat model prompt).
Proof.
  intros Hf w. unfold ollama_chat. destruct (chat_api _ _); apply Hf.
Qed.

Lemma pure_outcome_bind {A B} (m : M A) (k : A → M B) :
  pure_outcome m → (∀ a, pure_outcome (k a)) → pure_outcome (m ≫= k).
Proof.
  intros Hm Hk w w'. unfold mbind, M_bind. specialize (Hm w w').
  destruct (m w) as [[a|e] w1], (m w') as [[a'|e'] w1']; simpl in *;
    try congruence.
  injection Hm as <-. apply Hk.
Qed.

Lemma pure_outcome_ret {A} (a : A) : pure_outcome (mret a : M A).
Proof. by intros w w'. Qed.

Lemma pure_outcome_raise {A} e : pure_outcome (raise e : M A).
Proof. by intros w w'. Qed.

Lemma pure_outcome_lift {A} (o : outcome A) : pure_outcome (lift o).
Proof. by intros w w'. Qed.

Lemma pure_outcome_embed `{Backend} model text : pure_outcome (ollama_embed model text).
Proof. intros w w'. unfold ollama_embed. by destruct (embeddings_api _ _). Qed.

Lemma pure_outcome_chat `{Backend} model prompt : pure_outcome (ollama_chat model prompt).
Proof. intros w w'. unfold ollama_chat. by destruct (chat_api _ _). Qed.

End StoreFacts.

(** ** The chunker *)

Module IngestFacts.

Import Ingest IngestSpec.

Lemma join_snoc sep (l : list str) (p : str) :
  l ≠ [] → join sep (l ++ [p]) = join sep l ++ sep ++ p.
Proof.
  induction l as [|x l IH]; [done|]. intros _.
  destruct l as [|y l].
  - reflexivity.
  - change (join sep ((x :: y :: l) ++ [p]))
      with (x ++ sep ++ join sep ((y :: l) ++ [p])).
    rewrite IH by done.
    change (join sep (x :: y :: l)) with (x ++ sep ++ join sep (y :: l)).
    by rewrite <- !app_assoc.
Qed.

Lemma join_app sep (l1 l2 : list str) :
  l1 ≠ [] → l2 ≠ [] → join sep (l1 ++ l2) = join sep l1 ++ sep ++ join sep l2.
Proof.
  induction l1 as [|x l1 IH]; [done|]. intros _ Hl2.
  destruct l1 as [|y l1].
  - destruct l2; [done|]. reflexivity.
  - change (join sep ((x :: y :: l1) ++ l2))
      with (x ++ sep ++ join sep ((y :: l1) ++ l2)).
    rewrite IH by done.
    change (join sep (x :: y :: l1)) with (x ++ sep ++ join sep (y :: l1)).
    by rewrite <- !app_assoc.
Qed.

(** Joining joined groups is joining their concatenation. *)
Lemma join_concat sep (groups : list (list str)) :
  Forall (λ g, g ≠ []) groups →
  join sep (map (join sep) groups) = join sep (concat groups).
Proof.
  induction groups as [|g groups IH]; [done|].
  intros Hne. apply Forall_cons in Hne as [Hg Hgs].
  destruct groups as [|g' groups].
  - simpl. by rewrite app_nil_r.
  - change (join sep (map (join sep) (g :: g' :: groups)))
      with (join sep g ++ sep ++ join sep (map (join sep) (g' :: groups))).
    rewrite IH by done.
    change (concat (g :: g' :: groups)) with (g ++ concat (g' :: groups)).
    rewrite join_app; [done|done|].
    apply Forall_cons in Hgs as [Hg' _].
    destruct g'; [done|]. done.
Qed.

Lemma len_app (a b : str) : len (a ++ b) = (len a + len b)%Z.
Proof. unfold len. rewrite length_app. lia. Qed.

(** The yielded texts are the joined groups. *)
Lemma split_loop_groups current cur_len paragraphs max_chars :
  split_loop current cur_len paragraphs max_chars
  = map (join [LF; LF]) (group_loop current cur_len paragraphs max_chars).
Proof.
  revert current cur_len.
  induction paragraphs as [|p rest IH]; intros current cur_len; simpl.
  - by destruct current.
  - destruct current as [|c current]; [apply IH|].
    destruct (_ >? _)%Z; simpl; by rewrite IH.
Qed.

(** The groups are the paragraphs, cut into consecutive pieces. *)
Lemma group_loop_concat current cur_len paragraphs max_chars :
  concat (group_loop current cur_len paragraphs max_chars) = current ++ paragraphs.
Proof.
  revert current cur_len.
  induction paragraphs as [|p rest IH]; intros current cur_len; simpl.
  - destruct current; simpl; by rewrite ?app_nil_r.
  - destruct current as [|c current]; [by rewrite IH|].
    destruct (_ >? _)%Z; simpl; rewrite IH; [done|].
    simpl. by rewrite <- app_assoc.
Qed.

Lemma group_loop_nonempty current cur_len paragraphs max_chars :
  Forall (λ g, g ≠ []) (group_loop current cur_len paragraphs max_chars).
Proof.
  revert current cur_len.
  induction paragraphs as [|p rest IH]; intros current cur_len; simpl.
  - destruct current; [constructor|]. by repeat constructor.
  - destruct current as [|c current]; [apply IH|].
    destruct (_ >? _)%Z; [|apply IH].
    constructor; [done|apply IH].
Qed.

Lemma within_budget_single max_chars (p : str) : within_budget max_chars [p].
Proof.
  unfold within_budget. simpl.
  destruct (Z_le_gt_dec (len p) max_chars); [by left|right].
  exists p. split; [done|lia].
Qed.

(** The invariant of the packing loop: [cur_len] bounds the length of
    the joined [current], and stays within the budget once [current]
    holds two paragraphs. *)
Lemma group_loop_budget current cur_len paragraphs max_chars :
  (0 <= cur_len)%Z →
  (current ≠ [] → len (join [LF; LF] current) <= cur_len)%Z →
  (2 ≤ length current → (cur_len <= max_chars)%Z) →
  Forall (within_budget max_chars) (group_loop current cur_len paragraphs max_chars).
Proof.
  revert current cur_len.
  induction paragraphs as [|p rest IH]; intros current cur_len Hpos Hlen Hmax; simpl.
  - destruct current as [|c [|d current]]; [constructor| |].
    + constructor; [apply within_budget_single|constructor].
    + constructor; [|constructor]. left.
      etrans; [apply Hlen; done|apply Hmax; simpl; lia].
  - assert (0 <= len p)%Z as Hp by (unfold len; lia).
    destruct current as [|c current].
    + apply IH; simpl; [lia|intros _; lia|lia].
    + destruct (Z.gtb_spec (cur_len + len p + 2) max_chars) as [Hgt|Hle].
      * constructor.
        -- destruct current as [|d current]; [apply within_budget_single|].
           left. etrans; [apply Hlen; done|apply Hmax; simpl; lia].
        -- apply IH; simpl; [lia|intros _; lia|lia].
      * apply IH; [lia| |].
        -- intros _. rewrite join_snoc by done.
           rewrite !len_app. specialize (Hlen ltac:(done)).
           change (len [LF; LF]) with 2%Z. lia.
        -- intros _. lia.
Qed.

(** C5. For every list of paragraphs and every budget (positive or not),
    the chunks yielded by the greedy packing are the joined groups of a
    cut of the paragraphs into consecutive pieces; every group holds at
    least one paragraph, and its text is at most [max_chars] long unless
    the group is one paragraph that alone is longer than [max_chars]. *)
Theorem split_chunks_within_budget (paragraphs : list str) (max_chars : Z) :
  let groups := chunk_groups paragraphs max_chars in
  _split_paragraphs_into_chunks paragraphs max_chars = map (join [LF; LF]) groups
  ∧ concat groups = paragraphs
  ∧ Forall (λ g, g ≠ [] ∧ within_budget max_chars g) groups.
Proof.
  unfold chunk_groups, _split_paragraphs_into_chunks. simpl.
  split; [apply split_loop_groups|].
  split; [apply group_loop_concat|].
  apply Forall_and. split; [apply group_loop_nonempty|].
  apply group_loop_budget; [lia|done|simpl; lia].
Qed.

Lemma split_chunks_join paragraphs max_chars :
  join [LF; LF] (_split_paragraphs_into_chunks paragraphs max_chars)
  = join [LF; LF] paragraphs.
Proof.
  unfold _split_paragraphs_into_chunks.
  rewrite split_loop_groups, join_concat by apply group_loop_nonempty.
  by rewrite group_loop_concat.
Qed.

Lemma map_snd_pair {A B} (a : A) (l : list B) : map snd (map (pair a) l) = l.
Proof. induction l; simpl; congruence. Qed.

Lemma body_chunks_nil max_chars : body_chunks max_chars [] = [].
Proof. reflexivity. Qed.

Lemma map_snd_section_chunks section_title current_lines max_chars :
  map snd (section_chunks section_title current_lines max_chars)
  = body_chunks max_chars current_lines.
Proof.
  unfold section_chunks, body_chunks, section_paragraphs.
  destruct (strip (join [LF] current_lines)) as [|c s] eqn:E; simpl.
  - reflexivity.
  - apply map_snd_pair.
Qed.

Lemma dropwhile_head f (s : str) c s' : dropwhile f s = c :: s' → f c = false.
Proof.
  induction s as [|d s IH]; simpl; [done|].
  destruct (f d) eqn:E; [done|]. by intros [= <- _].
Qed.

Lemma dropwhile_snoc_keeps f (s : str) c : f c = false → dropwhile f (s ++ [c]) ≠ [].
Proof.
  intros Hc. induction s as [|d s IH]; simpl.
  - by rewrite Hc.
  - by destruct (f d).
Qed.

(** A stripped text that starts with a visible character is not empty. *)
Lemma strip_nonempty c (s : str) : isspace c = false → strip (c :: s) ≠ [].
Proof.
  intros Hc. unfold strip, lstrip, rstrip. simpl. rewrite Hc.
  destruct (rev (c :: s)) as [|d r] eqn:E.
  { apply (f_equal (@length _)) in E. rewrite length_rev in E. done. }
  assert (∃ r', rev (c :: s) = r' ++ [c]) as [r' Hr'] by (simpl; eauto).
  rewrite <- E, Hr'.
  intros Hnil. apply (f_equal (@rev _)) in Hnil. rewrite rev_involutive in Hnil.
  by apply (dropwhile_snoc_keeps isspace r' c Hc).
Qed.

(** The title taken from a header line is never empty. *)
Lemma header_title_set stripped title_group :
  roman_header_match stripped = Some title_group →
  title_set (Some (strip title_group)) = true.
Proof.
  unfold roman_header_match.
  destruct (takewhile is_roman stripped); [done|].
  destruct (dropwhile is_roman stripped) as [|dot rest]; [done|].
  case_bool_decide; [|done].
  destruct (takewhile isspace rest); [done|].
  destruct (dropwhile isspace rest) as [|c t] eqn:E; [done|].
  intros [= <-]. apply dropwhile_head in E.
  pose proof (strip_nonempty c t E) as Hne.
  unfold title_set. by destruct (strip (c :: t)).
Qed.

Lemma is_header_match line :
  is_header line = true ↔ ∃ t, roman_header_match (strip line) = Some t.
Proof. unfold is_header. rewrite bool_decide_eq_true. done. Qed.

(** Once a header has been read, every section is emitted. *)
Lemma section_loop_titled current_title current_lines lines base_title max_chars :
  title_set current_title = true →
  map snd (section_loop current_title current_lines lines base_title max_chars)
  = flat_map (body_chunks max_chars) (bodies_go current_lines lines).
Proof.
  revert current_title current_lines.
  induction lines as [|line rest IH]; intros ct cl Hct; simpl.
  - rewrite app_nil_r. destruct cl as [|l cl]; [done|].
    rewrite Hct. apply map_snd_section_chunks.
  - unfold is_header.
    destruct (roman_header_match (strip line)) as [tg|] eqn:E.
    + rewrite (bool_decide_eq_true_2 (is_Some (Some tg))) by (exists tg; reflexivity).
      simpl.
      rewrite map_app, (IH _ _ (header_title_set _ _ E)). f_equal.
      rewrite Hct. simpl. case_bool_decide as Hcl; simpl.
      * by subst cl.
      * apply map_snd_section_chunks.
    + rewrite (bool_decide_eq_false_2 (is_Some None)) by (by intros [? ?]).
      by apply IH.
Qed.

(** Without a header the whole text is one section. *)
Lemma section_loop_plain current_title current_lines lines base_title max_chars :
  existsb is_header lines = false →
  map snd (section_loop current_title current_lines lines base_title max_chars)
  = flat_map (body_chunks max_chars) (bodies_go current_lines lines).
Proof.
  revert current_lines.
  induction lines as [|line rest IH]; intros cl Hno; simpl.
  - rewrite app_nil_r. destruct cl as [|l cl]; [done|].
    apply map_snd_section_chunks.
  - simpl in Hno. apply orb_false_iff in Hno as [Hline Hrest].
    rewrite Hline.
    destruct (roman_header_match (strip line)) as [tg|] eqn:E.
    + apply not_true_iff_false in Hline. destruct Hline.
      apply is_header_match. eauto.
    + by apply IH.
Qed.

Lemma body_chunks_groups max_chars body :
  body_chunks max_chars body
  = map (join [LF; LF]) (chunk_groups (section_paragraphs body) max_chars).
Proof. apply split_loop_groups. Qed.

Lemma flat_body_chunks_join max_chars (bodies : list (list str)) :
  join [LF; LF] (flat_map (body_chunks max_chars) bodies)
  = join [LF; LF] (flat_map section_paragraphs bodies).
Proof.
  set (G := λ body, chunk_groups (section_paragraphs body) max_chars).
  assert (flat_map (body_chunks max_chars) bodies
          = map (join [LF; LF]) (concat (map G bodies))) as ->.
  { induction bodies as [|b bodies IH]; [done|].
    cbn [flat_map map concat]. by rewrite map_app, <- IH, body_chunks_groups. }
  rewrite join_concat.
  - f_equal. induction bodies as [|b bodies IH]; [done|].
    cbn [flat_map map concat]. rewrite concat_app, IH. f_equal.
    apply group_loop_concat.
  - apply Forall_concat, Forall_map, Forall_forall. intros b _.
    apply group_loop_nonempty.
Qed.

(** C1. A multi-section file with a line before its first header: the
    chunker emits the section of the header only, the line before it is
    in no chunk and the title made from the file name is not used. *)
Theorem text_before_first_header_dropped :
  iter_section_chunks (py "Overview\nI. Scope\nRules") (lit "living_on_campus.txt")
    MAX_CHARS
  = [(lit "Scope", lit "Rules")].
Proof. vm_compute. reflexivity. Qed.

(** The same text in a file that is not multi-section, and in a
    multi-section file without any header, is kept under the title made
    from the file name. *)
Lemma text_without_header_kept :
  iter_section_chunks (py "Overview\nRules") (lit "living_on_campus.txt") MAX_CHARS
  = [(lit "Living On Campus", py "Overview\nRules")].
Proof. vm_compute. reflexivity. Qed.

(** C2, as stated: the chunk texts put together and normalized are not
    the normalized source; the space that starts the only paragraph of
    this document is in no chunk. *)
Lemma chunk_text_loses_whitespace :
  normalize_newlines
    (concat (map snd (iter_section_chunks (lit " a") (lit "notes.txt") MAX_CHARS)))
  ≠ normalize_newlines (lit " a").
Proof. vm_compute. discriminate. Qed.

(** *** Blank-line normalization *)

Lemma splitlines_go_line (line cur s : str) :
  no_break line → splitlines_go cur (line ++ s) = splitlines_go (rev line ++ cur) s.
Proof.
  intros Hline. revert cur.
  induction Hline as [|c line Hc _ IH]; intros cur; [done|].
  simpl. rewrite Hc, IH. by rewrite <- app_assoc.
Qed.

Lemma splitlines_go_LF (cur s : str) :
  splitlines_go cur (LF :: s) = rev cur :: splitlines_go [] s.
Proof. reflexivity. Qed.

(** The lines of [splitlines] hold no line boundary. *)
Lemma splitlines_go_no_break (cur s : str) :
  no_break cur → Forall no_break (splitlines_go cur s).
Proof.
  revert cur.
  induction s as [s IH] using (induction_ltof1 _ (@length ascii)).
  unfold ltof in IH. intros cur Hcur.
  assert (no_break (rev cur)) as Hrev by (by apply Forall_rev).
  destruct s as [|c s]; simpl.
  - destruct cur; repeat constructor; done.
  - destruct (is_linebreak c) eqn:Hc.
    + constructor; [done|].
      assert (no_break []) as Hnil by constructor.
      destruct (decide (c = CR)); [|apply IH; simpl; [lia|done]].
      destruct s as [|c' s]; [apply IH; simpl; [lia|done]|].
      destruct (decide (c' = LF)); apply IH; simpl; (lia || done).
    + apply IH; [simpl; lia|]. by constructor.
Qed.

Lemma splitlines_no_break (s : str) : Forall no_break (splitlines s).
Proof. apply splitlines_go_no_break. constructor. Qed.

(** Reading back lines that were joined by line feeds. *)
Lemma splitlines_join (lines : list str) :
  Forall no_break lines → splitlines (join [LF] lines) = trim_last lines.
Proof.
  unfold splitlines.
  induction 1 as [|x rest Hx _ IH]; [done|].
  destruct rest as [|y rest].
  - simpl. rewrite <- (app_nil_r x) at 1.
    rewrite splitlines_go_line by done. simpl. rewrite app_nil_r.
    destruct x as [|c x]; [done|]. simpl.
    destruct (rev x ++ [c]) eqn:E; [by destruct (rev x)|].
    by rewrite <- E, <- (rev_involutive (c :: x)).
  - change (join [LF] (x :: y :: rest)) with (x ++ LF :: join [LF] (y :: rest)).
    rewrite splitlines_go_line, splitlines_go_LF, app_nil_r, rev_involutive by done.
    by rewrite IH.
Qed.

Lemma normalize_loop_no_break n (lines : list str) :
  Forall no_break lines → Forall no_break (normalize_loop n lines).
Proof.
  intros Hl. revert n.
  induction Hl as [|line rest Hline _ IH]; intros n; simpl; [constructor|].
  destruct (is_empty (strip line)).
  - destruct (n + 1 =? 1); [constructor; [constructor|]|]; apply IH.
  - constructor; [done|apply IH].
Qed.

(** [normalized_lines] has single, empty blank entries. *)
Lemma normalize_loop_single_blanks n (lines : list str) :
  single_blanks (0 <? n) (normalize_loop n lines) = true.
Proof.
  revert n. induction lines as [|line rest IH]; intros n; simpl; [done|].
  destruct (is_empty (strip line)) eqn:Hblank.
  - destruct (Nat.eqb_spec (n + 1) 1) as [Hn|Hn].
    + assert (n = 0) as -> by lia. simpl. apply (IH 1).
    + specialize (IH (n + 1)).
      replace (0 <? n + 1) with true in IH by (symmetry; apply Nat.ltb_lt; lia).
      replace (0 <? n) with true by (symmetry; apply Nat.ltb_lt; lia). done.
  - simpl. unfold is_blank. rewrite Hblank. apply (IH 0).
Qed.

(** The loop changes nothing in a list of that shape. *)
Lemma normalize_loop_fixed prev_blank n (lines : list str) :
  single_blanks prev_blank lines = true →
  (prev_blank = false → n = 0) →
  normalize_loop n lines = lines.
Proof.
  revert prev_blank n.
  induction lines as [|line rest IH]; intros b n Hok Hn; simpl; [done|].
  simpl in Hok. unfold is_blank in Hok.
  destruct (is_empty (strip line)) eqn:Hblank.
  - apply andb_true_iff in Hok as [Hok Hrest].
    apply andb_true_iff in Hok as [Hline Hb].
    destruct line; [|done]. destruct b; [done|].
    rewrite (Hn eq_refl). simpl. f_equal. by apply (IH true).
  - f_equal. by apply (IH false).
Qed.

Lemma single_blanks_weaken prev_blank (lines : list str) :
  single_blanks prev_blank lines = true → single_blanks false lines = true.
Proof.
  destruct lines as [|line rest]; [done|]. simpl.
  destruct (is_blank line); [|done].
  intros H. apply andb_true_iff in H as [H Hrest].
  apply andb_true_iff in H as [Hline _]. by rewrite Hline, Hrest.
Qed.

Lemma single_blanks_trim prev_blank (lines : list str) :
  single_blanks prev_blank lines = true →
  single_blanks prev_blank (trim_last lines) = true.
Proof.
  revert prev_blank.
  induction lines as [|line rest IH]; intros b; [done|].
  destruct rest as [|y rest].
  - simpl. destruct (is_empty line) eqn:E; [done|]. simpl.
    by destruct (is_blank line).
  - change (trim_last (line :: y :: rest)) with (line :: trim_last (y :: rest)).
    cbn [single_blanks]. destruct (is_blank line).
    + intros H. apply andb_true_iff in H as [-> Hrest]. by apply IH.
    + apply IH.
Qed.

Lemma single_blanks_no_pair prev_blank (lines : list str) :
  single_blanks prev_blank lines = true → has_blank_pair lines = false.
Proof.
  revert prev_blank.
  induction lines as [|a rest IH]; intros b; [done|].
  destruct rest as [|y rest]; [done|].
  change (has_blank_pair (a :: y :: rest))
    with ((is_blank a && is_blank y) || has_blank_pair (y :: rest)).
  change (single_blanks b (a :: y :: rest))
    with (if is_blank a
          then is_empty a && negb b && single_blanks true (y :: rest)
          else single_blanks false (y :: rest)).
  destruct (is_blank a) eqn:Ha.
  - intros H. apply andb_true_iff in H as [_ Hrest].
    rewrite (IH _ Hrest). cbn [single_blanks] in Hrest.
    destruct (is_blank y); [|done].
    apply andb_true_iff in Hrest as [Hy _].
    apply andb_true_iff in Hy as [_ Hy]. done.
  - intros Hrest. by rewrite (IH _ Hrest).
Qed.

Lemma chomp_app (p t : str) : t ≠ [] → chomp (p ++ t) = p ++ chomp t.
Proof.
  intros Ht. unfold chomp. rewrite rev_app_distr.
  destruct (rev t) as [|c r] eqn:E.
  { apply (f_equal (@rev _)) in E. by rewrite rev_involutive in E. }
  simpl. case_bool_decide; [|done].
  by rewrite rev_app_distr, rev_involutive.
Qed.

Lemma chomp_no_break (x : str) : no_break x → chomp x = x.
Proof.
  intros Hx. unfold chomp. destruct (rev x) as [|c r] eqn:E; [done|].
  case_bool_decide as Hc; [|done]. subst c.
  apply Forall_rev in Hx. rewrite E in Hx.
  by apply Forall_cons in Hx as [Hx _].
Qed.

Lemma join_nil_inv sep (lines : list str) :
  sep ≠ [] → join sep lines = [] → lines = [] ∨ lines = [[]].
Proof.
  intros Hsep. destruct lines as [|x [|y rest]]; simpl; [by left| |].
  - intros ->. by right.
  - intros H. apply app_eq_nil in H as [_ H]. by apply app_eq_nil in H as [? _].
Qed.

(** Joining the lines without their final empty line removes one final
    line feed. *)
Lemma join_trim_last prev_blank (lines : list str) :
  Forall no_break lines → single_blanks prev_blank lines = true →
  join [LF] (trim_last lines) = chomp (join [LF] lines).
Proof.
  intros Hnb. revert prev_blank.
  induction Hnb as [|x rest Hx Hrest IH]; intros b Hok; [done|].
  destruct rest as [|y rest].
  - simpl. rewrite chomp_no_break by done. by destruct x.
  - change (trim_last (x :: y :: rest)) with (x :: trim_last (y :: rest)).
    change (join [LF] (x :: y :: rest)) with (x ++ [LF] ++ join [LF] (y :: rest)).
    assert (∃ b', single_blanks b' (y :: rest) = true) as [b' Hok'].
    { cbn [single_blanks] in Hok. destruct (is_blank x); [|by eauto].
      apply andb_true_iff in Hok as [_ ?]. eauto. }
    specialize (IH _ Hok').
    destruct (trim_last (y :: rest)) as [|z zs] eqn:Etrim.
    + destruct rest as [|y' rest]; [|done].
      simpl in Etrim. destruct y; [|done]. simpl.
      unfold chomp. rewrite rev_app_distr. simpl.
      by rewrite rev_involutive.
    + change (join [LF] (x :: z :: zs)) with (x ++ [LF] ++ join [LF] (z :: zs)).
      rewrite IH, app_assoc, (app_assoc x [LF]). apply symmetry, chomp_app.
      intros Hnil. apply join_nil_inv in Hnil; [|done].
      destruct Hnil as [Hnil|Hnil]; [done|].
      injection Hnil as -> ->. done.
Qed.

(** C10, as stated: a second normalization changes the output of the
    first one when the text ends with a blank line. *)
Lemma normalize_newlines_not_idempotent :
  normalize_newlines (normalize_newlines (py "a\n\n"))
  ≠ normalize_newlines (py "a\n\n").
Proof. vm_compute. discriminate. Qed.

(** C10, amended. For every text, normalizing the output of
    [normalize_newlines] again gives that output without its final line
    feed when it ends with one, and the same output otherwise; the
    output never has two blank lines in a row. *)
Theorem normalize_newlines_twice (text : str) :
  let out := normalize_newlines text in
  normalize_newlines out = chomp out
  ∧ has_blank_pair (splitlines out) = false.
Proof.
  unfold normalize_newlines.
  set (L := normalize_loop 0 (splitlines text)).
  assert (Forall no_break L) as Hnb
    by apply normalize_loop_no_break, splitlines_no_break.
  assert (single_blanks false L = true) as Hok
    by apply (normalize_loop_single_blanks 0).
  simpl. rewrite splitlines_join by done.
  pose proof (single_blanks_trim _ _ Hok) as Hok'.
  split.
  - rewrite (normalize_loop_fixed false) by done.
    by eapply join_trim_last.
  - by eapply single_blanks_no_pair.
Qed.

End IngestFacts.

(** ** The support filter of the question synthesizer *)

Module IndexFacts.

Import Index IndexSpec StoreFacts.

Lemma startswith_spec (p s : str) :
  startswith p s = true ↔ ∃ after, s = p ++ after.
Proof.
  revert s. induction p as [|a p IH]; intros s; simpl.
  - split; [eauto|done].
  - destruct s as [|b s].
    + split; [done|]. by intros [? ?].
    + destruct (decide (a = b)) as [->|Hne].
      * rewrite IH. split; intros [after H]; exists after; simpl; congruence.
      * split; [done|]. intros [after [= ? _]]. done.
Qed.

Lemma contains_spec (needle hay : str) :
  contains needle hay = true ↔ substring needle hay.
Proof.
  unfold substring. induction hay as [|c hay IH]; simpl.
  - rewrite orb_false_r, startswith_spec. split.
    + intros [after H]. by exists [], after.
    + intros (before & after & H). symmetry in H.
      apply app_eq_nil in H as [-> H]. eauto.
  - rewrite orb_true_iff, startswith_spec, IH. split.
    + intros [[after H]|(before & after & H)].
      * by exists [], after.
      * exists (c :: before), after. simpl. by rewrite H.
    + intros (before & after & H). destruct before as [|b before].
      * left. eauto.
      * right. injection H as _ H. eauto.
Qed.

Lemma substring_trans (a b c : str) : substring a b → substring b c → substring a c.
Proof.
  intros (x & y & ->) (u & v & ->). exists (u ++ x), (y ++ v).
  by rewrite <- !app_assoc.
Qed.

Section Runs.

Variable f : ascii → bool.

Lemma runs_go_nil cur : runs_go f cur [] = pending cur.
Proof. reflexivity. Qed.

Lemma runs_go_out cur c s :
  f c = false → runs_go f cur (c :: s) = pending cur ++ runs_go f [] s.
Proof. intros Hc. simpl. rewrite Hc. by destruct cur. Qed.

Lemma runs_go_in cur (run s : str) :
  Forall (λ c, f c = true) run → runs_go f cur (run ++ s) = runs_go f (rev run ++ cur) s.
Proof.
  intros Hrun. revert cur.
  induction Hrun as [|c run Hc _ IH]; intros cur; [done|].
  simpl. rewrite Hc, IH. by rewrite <- app_assoc.
Qed.

(** What is read after a character outside the class does not depend
    on what was read before it. *)
Lemma runs_go_cut cur (before rest : str) :
  before ≠ [] → outside f (last before) →
  runs_go f cur (before ++ rest) = runs_go f cur before ++ runs_go f [] rest.
Proof.
  revert cur. induction before as [|c before IH]; intros cur Hne Hlast; [done|].
  destruct before as [|d before].
  - simpl in Hlast. cbn [app]. rewrite !runs_go_out by done.
    by rewrite runs_go_nil, app_nil_r.
  - assert (last (c :: d :: before) = last (d :: before)) as Hl by done.
    rewrite Hl in Hlast.
    destruct (f c) eqn:Hc.
    + change ((c :: d :: before) ++ rest) with (c :: (d :: before) ++ rest).
      cbn [runs_go]. rewrite Hc. by apply IH.
    + change ((c :: d :: before) ++ rest) with (c :: (d :: before) ++ rest).
      rewrite !runs_go_out by done. rewrite IH by done. by rewrite app_assoc.
Qed.

(** Every maximal run is found. *)
Lemma runs_complete (s run : str) : maximal_run f s run → run ∈ runs f s.
Proof.
  intros (before & after & -> & Hne & Hrun & Hbefore & Hafter).
  unfold runs.
  assert (run ∈ runs_go f [] (run ++ after)) as Hin.
  { rewrite runs_go_in, app_nil_r by done.
    assert (pending (rev run) = [run]) as Hp.
    { unfold pending. destruct (rev run) eqn:E.
      - apply (f_equal (@rev _)) in E. by rewrite rev_involutive in E.
      - by rewrite <- E, rev_involutive. }
    destruct after as [|c after].
    - rewrite runs_go_nil, Hp. set_solver.
    - rewrite runs_go_out, Hp by done. set_solver. }
  destruct before as [|b before]; [done|].
  rewrite runs_go_cut by done. set_solver.
Qed.

(** Every run found is a maximal run. *)
Lemma runs_go_sound cur (s run : str) :
  Forall (λ c, f c = true) cur →
  run ∈ runs_go f cur s →
  ∃ before after,
    rev cur ++ s = before ++ run ++ after
    ∧ run ≠ []
    ∧ Forall (λ c, f c = true) run
    ∧ outside f (last before)
    ∧ outside f (head after).
Proof.
  revert cur. induction s as [|c s IH]; intros cur Hcur Hin.
  - rewrite runs_go_nil in Hin. destruct cur as [|d cur]; [set_solver|].
    apply list_elem_of_singleton in Hin as ->.
    exists [], []. rewrite !app_nil_r. simpl.
    split; [done|]. split; [by destruct (rev cur)|].
    split; [|done]. exact (Forall_rev Hcur).
  - destruct (f c) eqn:Hc.
    + simpl in Hin. rewrite Hc in Hin.
      apply IH in Hin; [|by constructor].
      destruct Hin as (before & after & Heq & H).
      exists before, after. split; [|done].
      rewrite <- Heq. simpl. by rewrite <- app_assoc.
    + rewrite runs_go_out in Hin by done.
      apply elem_of_app in Hin as [Hin|Hin].
      * destruct cur as [|d cur]; [set_solver|].
        apply list_elem_of_singleton in Hin as ->.
        exists [], (c :: s). simpl.
        split; [done|]. split; [by destruct (rev cur)|].
        split; [|done]. exact (Forall_rev Hcur).
      * apply IH in Hin; [|constructor].
        destruct Hin as (before & after & Heq & Hne & Hrun & Hbefore & Hafter).
        simpl in Heq.
        exists (rev cur ++ c :: before), after.
        split; [by rewrite Heq, <- app_assoc|].
        split; [done|]. split; [done|]. split; [|done].
        rewrite last_app, last_cons. by destruct (last before).
Qed.

Lemma runs_spec (s run : str) : run ∈ runs f s ↔ maximal_run f s run.
Proof.
  split; [|apply runs_complete].
  intros Hin. apply runs_go_sound in Hin; [|constructor]. done.
Qed.

(** A block of characters of the class lies inside a maximal run. *)
Lemma block_in_maximal_run (s d : str) :
  d ≠ [] → Forall (λ c, f c = true) d → substring d s →
  ∃ run, maximal_run f s run ∧ substring d run.
Proof.
  intros Hne Hd (before & after & ->).
  assert (∃ b1 b2, before = b1 ++ b2 ∧ Forall (λ c, f c = true) b2
                   ∧ outside f (last b1)) as (b1 & b2 & -> & Hb2 & Hb1).
  { clear. induction before as [|c before IH] using rev_ind.
    - exists [], []. done.
    - destruct (f c) eqn:Hc.
      + destruct IH as (b1 & b2 & -> & Hb2 & Hb1).
        exists b1, (b2 ++ [c]). rewrite app_assoc. split; [done|].
        split; [|done]. apply Forall_app. split; [done|]. by constructor.
      + exists (before ++ [c]), []. rewrite app_nil_r, last_snoc. done. }
  assert (∃ a1 a2, after = a1 ++ a2 ∧ Forall (λ c, f c = true) a1
                   ∧ outside f (head a2)) as (a1 & a2 & -> & Ha1 & Ha2).
  { clear. induction after as [|c after IH].
    - exists [], []. done.
    - destruct (f c) eqn:Hc.
      + destruct IH as (a1 & a2 & -> & Ha1 & Ha2).
        exists (c :: a1), a2. split; [done|]. split; [|done]. by constructor.
      + exists [], (c :: after). done. }
  exists (b2 ++ d ++ a1). split.
  - exists b1, a2. split; [by rewrite <- !app_assoc|].
    split; [by destruct b2, d|]. split; [|done].
    by rewrite !Forall_app.
  - by exists b2, a1.
Qed.

End Runs.

Lemma size_two_elems (X : gset str) :
  2 ≤ size X ↔ ∃ x y, x ≠ y ∧ x ∈ X ∧ y ∈ X.
Proof.
  split.
  - intros Hsize.
    destruct (size_pos_elem_of X) as [x Hx]; [lia|].
    destruct (size_pos_elem_of (X ∖ {[x]})) as [y Hy].
    { rewrite size_difference, size_singleton by set_solver. lia. }
    apply elem_of_difference in Hy as [Hy Hxy].
    rewrite elem_of_singleton in Hxy. exists x, y. by repeat split.
  - intros (x & y & Hne & Hx & Hy).
    etrans; [|apply (subseteq_size ({[x]} ∪ {[y]}) X)].
    + rewrite size_union, !size_singleton; [done|].
      intros z Hz1 Hz2. rewrite elem_of_singleton in Hz1, Hz2. congruence.
    + intros z Hz. apply elem_of_union in Hz as [Hz|Hz];
        rewrite elem_of_singleton in Hz; by subst z.
Qed.

Lemma tokenize_spec (w text : str) : w ∈ _tokenize text ↔ content_word w text.
Proof.
  unfold _tokenize, content_word.
  rewrite list_elem_of_filter, runs_spec. tauto.
Qed.

Lemma has_basic_overlap_spec (question chunk_text : str) :
  _has_basic_overlap question chunk_text 2 = true
  ↔ share_two_words question chunk_text.
Proof.
  unfold _has_basic_overlap, share_two_words.
  rewrite Nat.leb_le, size_two_elems.
  split; intros (w1 & w2 & Hne & H); exists w1, w2; (split; [done|]);
    revert H; rewrite !elem_of_intersection, !elem_of_list_to_set, !tokenize_spec;
    tauto.
Qed.

Lemma length_dropwhile f (s : str) : length (dropwhile f s) ≤ length s.
Proof.
  induction s as [|c s IH]; simpl; [done|]. destruct (f c); simpl; lia.
Qed.

Lemma length_strip (s : str) : length (strip s) ≤ length s.
Proof.
  unfold strip, rstrip, lstrip. rewrite length_rev.
  etrans; [apply length_dropwhile|]. rewrite length_rev. apply length_dropwhile.
Qed.

Lemma marker_is_removed c : is_marker c = true → is_marker_or_sep c = true.
Proof.
  unfold is_marker, is_marker_or_sep. rewrite !bool_decide_eq_true.
  change (lit "-*0123456789. ") with (lit "-*0123456789" ++ lit ". ").
  intros Hc. apply elem_of_app. by left.
Qed.

(** The loop that removes list markers has stopped after [length line]
    turns: what is left does not start with a marker. *)
Lemma strip_markers_done fuel (line : str) :
  length line ≤ fuel →
  match strip_markers fuel line with
  | c :: _ => is_marker c = false
  | [] => True
  end.
Proof.
  revert line. induction fuel as [|fuel IH]; intros line Hlen.
  - destruct line; [done|]. simpl in Hlen. lia.
  - destruct line as [|c line]; [done|]. cbn [strip_markers].
    destruct (is_marker c) eqn:Hc; [|by rewrite Hc].
    apply IH. etrans; [apply length_strip|].
    cbn [dropwhile]. rewrite (marker_is_removed c Hc).
    etrans; [apply length_dropwhile|]. simpl in Hlen. lia.
Qed.

(** What the support filter tests. *)
Lemma question_supported_spec (question chunk_text : str) :
  _question_supported_by_chunk question chunk_text = true
  ↔ (∀ n, maximal_run is_digit question n → substring n chunk_text)
    ∧ share_two_words question chunk_text.
Proof.
  unfold _question_supported_by_chunk.
  rewrite <- has_basic_overlap_spec.
  destruct (forallb _ _) eqn:Hnums.
  - rewrite forallb_forall in Hnums.
    destruct (_has_basic_overlap question chunk_text 2); simpl.
    + split; [|done]. intros _. split; [|done].
      intros n Hn. apply contains_spec, Hnums, list_elem_of_In.
      by apply runs_spec.
    + split; [done|]. by intros [_ ?].
  - split; [done|]. intros [Hall _].
    assert (forallb (λ n, contains n chunk_text) (runs is_digit question) = true)
      as Habs; [|congruence].
    apply forallb_forall. intros n Hn. apply contains_spec, Hall, runs_spec.
    by apply list_elem_of_In.
Qed.

(** An accepted question has every block of digits in the chunk. *)
Lemma supported_digits (question chunk_text d : str) :
  _question_supported_by_chunk question chunk_text = true →
  digit_substring d question → substring d chunk_text.
Proof.
  intros Hsup (Hne & Hd & Hsub).
  apply question_supported_spec in Hsup as [Hnums _].
  destruct (block_in_maximal_run is_digit question d Hne Hd Hsub) as (run & Hrun & Hin).
  eapply substring_trans; [apply Hin|]. by apply Hnums.
Qed.

Section WithBackend.

Context `{Backend}.

Lemma clean_loop_supported raw_questions text w clean w' :
  clean_loop raw_questions text w = (Ok clean, w') →
  Forall (λ q, _question_supported_by_chunk q text = true) clean.
Proof.
  revert w clean w'.
  induction raw_questions as [|q rest IH]; intros w clean w'; simpl.
  - intros [= <- _]. constructor.
  - destruct (is_empty (strip q)); [apply IH|].
    destruct (_question_supported_by_chunk (strip q) text) eqn:Hsup; simpl.
    + intros Hrun. apply bind_Ok in Hrun as (clean' & w1 & Hrest & Hret).
      apply ret_Ok in Hret as [<- _]. constructor; [done|]. by eapply IH.
    + intros Hrun. apply bind_Ok in Hrun as (? & w1 & _ & Hrest). by eapply IH.
Qed.

Lemma question_records_elem chunk_id section_title i clean r :
  r ∈ question_records chunk_id section_title i clean →
  q_chunk_id r = chunk_id ∧ q_question r ∈ clean.
Proof.
  revert i. induction clean as [|q rest IH]; intros i; simpl.
  { intros Hin. by apply elem_of_nil in Hin. }
  intros Hin. apply elem_of_cons in Hin as [->|Hin].
  - simpl. split; [done|]. by left.
  - apply IH in Hin as [? ?]. split; [done|]. by right.
Qed.

Lemma build_questions_supported chunks w qs w' r :
  build_questions chunks w = (Ok qs, w') → r ∈ qs →
  ∃ chunk, chunk ∈ chunks ∧ q_chunk_id r = chunk_id chunk
    ∧ _question_supported_by_chunk (q_question r) (text chunk) = true.
Proof.
  revert w qs w'.
  induction chunks as [|chunk rest IH]; intros w qs w'; simpl.
  - intros [= <- _] Hr. by apply elem_of_nil in Hr.
  - intros Hrun Hr.
    apply bind_Ok in Hrun as (? & w1 & _ & Hrun).
    apply bind_Ok in Hrun as (raw_questions & w2 & _ & Hrun).
    apply bind_Ok in Hrun as (clean & w3 & Hclean & Hrun).
    apply clean_loop_supported in Hclean.
    destruct clean as [|q clean].
    + apply bind_Ok in Hrun as (? & w4 & _ & Hrun).
      destruct (IH _ _ _ Hrun Hr) as (c & Hc & ?). exists c.
      split; [by right|done].
    + apply bind_Ok in Hrun as (all_questions & w4 & Hrest & Hret).
      apply ret_Ok in Hret as [<- _].
      apply elem_of_app in Hr as [Hr|Hr].
      * apply question_records_elem in Hr as [Hid Hq].
        exists chunk. split; [by left|]. split; [done|].
        apply subseteq_take in Hq.
        rewrite Forall_forall in Hclean. by apply Hclean.
      * destruct (IH _ _ _ Hrest Hr) as (c & Hc & ?). exists c.
        split; [by right|done].
Qed.

(** C7. The support filter accepts a question exactly when every
    maximal block of digits of the question occurs in the chunk text and
    the two share at least two content words; so every question that
    [build_questions] retains belongs to one of the chunks, and every
    block of digits of the question occurs in the text of that chunk. *)
Theorem retained_questions_supported :
  (∀ question chunk_text : str,
     _question_supported_by_chunk question chunk_text = true
     ↔ (∀ n, maximal_run is_digit question n → substring n chunk_text)
       ∧ share_two_words question chunk_text)
  ∧ (∀ (chunks : list chunk) (w : world) (qs : list question) (w' : world)
       (r : question),
       build_questions chunks w = (Ok qs, w') → r ∈ qs →
       ∃ chunk, chunk ∈ chunks
         ∧ q_chunk_id r = chunk_id chunk
         ∧ _question_supported_by_chunk (q_question r) (text chunk) = true
         ∧ ∀ d, digit_substring d (q_question r) → substring d (text chunk)).
Proof.
  split; [apply question_supported_spec|].
  intros chunks w qs w' r Hrun Hr.
  destruct (build_questions_supported _ _ _ _ _ Hrun Hr) as (chunk & Hc & Hid & Hsup).
  exists chunk. repeat split; try done.
  intros d. by apply supported_digits.
Qed.

End WithBackend.

Lemma retained_questions_supported_witness :
  ∃ chunk, chunk ∈ [Fixtures.absences_chunk]
    ∧ lit "chunk_1" = chunk_id chunk
    ∧ _question_supported_by_chunk
        (lit "How many unexcused absences may students have?") (text chunk) = true
    ∧ ∀ d, digit_substring d (lit "How many unexcused absences may students have?")
           → substring d (text chunk).
Proof.
  eapply (proj2 (@retained_questions_supported Fixtures.backend)
            [Fixtures.absences_chunk] Fixtures.empty_world _ _
            (Question (lit "chunk_1_q0") (lit "chunk_1") (lit "Attendance")
               (lit "How many unexcused absences may students have?"))).
  - vm_compute. reflexivity.
  - left.
Defined.

End IndexFacts.

(** ** The retriever and the answer gate *)

Module AskFacts.

Import Ask AskSpec Score StoreSpec StoreFacts.

Lemma Qltb_lt (x y : Q) : Qltb x y = true ↔ (x < y)%Q.
Proof.
  unfold Qltb. rewrite negb_true_iff, <- not_true_iff_false, Qle_bool_iff.
  split; [apply Qnot_le_lt|apply Qlt_not_le].
Qed.

Lemma Qltb_ge (x y : Q) : Qltb x y = false → (y <= x)%Q.
Proof.
  unfold Qltb. rewrite negb_false_iff. apply Qle_bool_iff.
Qed.

Lemma Qle_bool_false (x y : Q) : Qle_bool x y = false → (y <= x)%Q.
Proof.
  intros H. apply Qlt_le_weak, Qnot_le_lt. rewrite <- Qle_bool_iff. congruence.
Qed.

Section Insertion.

Variable before : Q → Q → bool.
Hypothesis before_le : ∀ x y, before x y = true → (x <= y)%Q.
Hypothesis before_ge : ∀ x y, before x y = false → (y <= x)%Q.
Variable keys : list Q.

Local Abbreviation R := (λ i j : nat, (key_at keys i <= key_at keys j)%Q).

Lemma insert_index_perm i l : insert_index before keys i l ≡ₚ i :: l.
Proof.
  induction l as [|j l IH]; simpl; [done|].
  destruct (before _ _); [done|]. rewrite IH. apply Permutation_swap.
Qed.

Lemma insert_index_sorted i l :
  StronglySorted R l → StronglySorted R (insert_index before keys i l).
Proof.
  induction l as [|j l IH]; intros Hl; simpl.
  - repeat constructor.
  - apply StronglySorted_cons in Hl as [Hj Hl].
    destruct (before _ _) eqn:Hb.
    + apply StronglySorted_cons. split.
      * constructor; [by apply before_le|].
        eapply Forall_impl; [apply Hj|]. intros k Hk. simpl in *.
        eapply Qle_trans; [by apply before_le|done].
      * by apply StronglySorted_cons.
    + apply StronglySorted_cons. split; [|by apply IH].
      rewrite insert_index_perm. constructor; [by apply before_ge|done].
Qed.

Lemma insertion_argsort_ok : argsort_ok keys (insertion_argsort before keys).
Proof.
  unfold argsort_ok, insertion_argsort.
  generalize (seq 0 (length keys)). intros l. split.
  - induction l as [|i l IH]; simpl; [done|].
    by rewrite insert_index_perm, IH.
  - induction l as [|i l IH]; simpl; [constructor|].
    by apply insert_index_sorted.
Qed.

End Insertion.

Lemma key_at_opp (sims : list Q) i :
  i < length sims → key_at (map Qopp sims) i = (- key_at sims i)%Q.
Proof.
  intros Hi. unfold key_at. rewrite list_lookup_fmap.
  destruct (lookup_lt_is_Some_2 sims i Hi) as [x ->]. done.
Qed.

Lemma Qopp_le_inv (x y : Q) : (- x <= - y)%Q → (y <= x)%Q.
Proof.
  intros H. apply Qopp_le_compat in H. by rewrite !Qopp_involutive in H.
Qed.

Section WithNumpy.

Context `{Backend} `{Numpy}.

(** The contract of [np.argsort]. *)
Hypothesis argsort_contract : ∀ keys, argsort_ok keys (argsort keys).

Lemma argsort_range keys i : i ∈ argsort keys → i < length keys.
Proof.
  destruct (argsort_contract keys) as [Hperm _]. rewrite Hperm.
  rewrite list_elem_of_In, in_seq. lia.
Qed.

Lemma argsort_NoDup keys : NoDup (argsort keys).
Proof.
  destruct (argsort_contract keys) as [Hperm _]. rewrite Hperm.
  apply NoDup_seq.
Qed.

Lemma argsort_length keys : length (argsort keys) = length keys.
Proof.
  destruct (argsort_contract keys) as [Hperm _].
  by rewrite Hperm, length_seq.
Qed.

Lemma argsort_nil : argsort [] = [].
Proof. apply length_zero_iff_nil. by rewrite argsort_length. Qed.

Lemma top_k_range (sims : list Q) i : i ∈ top_k sims → i < length sims.
Proof.
  unfold top_k. intros Hi. apply subseteq_take, argsort_range in Hi.
  by rewrite length_map in Hi.
Qed.

(** C4, amended. For every similarity vector of N rows, when
    [np.argsort] meets its contract, the top-k selection returns
    min(k, N) different row indices, in descending order of similarity,
    and no row left out has a higher similarity than a selected row.
    Nothing is said of the order of rows with equal similarity. *)
Theorem top_k_highest_descending (sims : list Q) :
  let top := top_k sims in
  length top = min TOP_K_QUESTIONS (length sims)
  ∧ NoDup top
  ∧ (∀ i, i ∈ top → i < length sims)
  ∧ StronglySorted (λ i j, (key_at sims j <= key_at sims i)%Q) top
  ∧ (∀ i j, i ∈ top → j < length sims → j ∉ top →
       (key_at sims j <= key_at sims i)%Q).
Proof.
  unfold top_k. set (keys := map Qopp sims).
  assert (length keys = length sims) as Hlen by apply length_map.
  destruct (argsort_contract keys) as [Hperm Hsorted].
  rewrite <- (take_drop TOP_K_QUESTIONS (argsort keys)) in Hsorted.
  apply StronglySorted_app in Hsorted as (Hcross & Htop & _).
  assert (∀ i, i ∈ take TOP_K_QUESTIONS (argsort keys) → i < length sims) as Hrange.
  { intros i Hi. rewrite <- Hlen. by apply argsort_range, (subseteq_take _ _ _ Hi). }
  simpl. split; [by rewrite length_take, argsort_length, Hlen|].
  split; [eapply sublist_NoDup; [apply argsort_NoDup|apply sublist_take]|].
  split; [done|]. split.
  - clear Hcross. induction Htop as [|i l _ IH Hi]; [constructor|].
    constructor.
    + apply IH. intros k Hk. apply Hrange. by right.
    + apply Forall_forall. intros k Hk. rewrite Forall_forall in Hi.
      apply Qopp_le_inv. rewrite <- !key_at_opp.
      * by apply Hi.
      * apply Hrange. by right.
      * apply Hrange. by left.
  - intros i j Hi Hj Hnj. apply Qopp_le_inv.
    rewrite <- !key_at_opp by auto. apply Hcross; [done|].
    assert (j ∈ argsort keys) as Hin.
    { rewrite Hperm, list_elem_of_In, in_seq. lia. }
    rewrite <- (take_drop TOP_K_QUESTIONS (argsort keys)) in Hin.
    apply elem_of_app in Hin as [?|?]; done.
Qed.

(** The retriever leaves the world as it is, except that the embedding
    backend has received the question. *)
Lemma retrieve_world user_q emb_matrix questions chunks_by_id w :
  (retrieve_chunks_for_query user_q emb_matrix questions chunks_by_id w).2
  = embed_called EMBED_MODEL user_q w.
Proof.
  unfold retrieve_chunks_for_query. rewrite bind_snd_silent.
  - unfold ollama_embed. by destruct (embeddings_api _ _).
  - intros q_vec. apply silent_bind; [apply silent_lift|]. intros sims.
    apply silent_bind.
    + destruct (top_k sims) as [|i0 ?]; [apply silent_ret|].
      destruct (sims !! i0); [apply silent_ret|apply silent_raise].
    + intros max_sim. apply silent_bind; [apply silent_lift|].
      intros ?. apply silent_ret.
Qed.

(** The case that the test [len(top_indices) > 0] of the retriever
    provides for: against a matrix of two dimensions with zero rows,
    and for a query embedded with as many coordinates as the matrix has
    columns, the retriever returns the similarity 0 and no context
    chunk. *)
Lemma retrieve_empty_index (user_q : str) (q_vec : list Q) (ncols : nat)
    (questions : list question) (chunks_by_id : gmap str chunk) (w : world) :
  embeddings_api EMBED_MODEL user_q = Some q_vec →
  length q_vec = ncols →
  retrieve_chunks_for_query user_q (Arr2D ncols []) questions chunks_by_id w
  = (Ok (0%Q, []), embed_called EMBED_MODEL user_q w).
Proof.
  intros Hvec Hlen.
  unfold retrieve_chunks_for_query, mbind, M_bind, ollama_embed, lift.
  rewrite Hvec. unfold cosine_sim_matrix.
  rewrite (proj2 (Nat.eqb_eq _ _) Hlen). simpl.
  unfold top_k. simpl. rewrite argsort_nil. reflexivity.
Qed.

End WithNumpy.

(** The array that [build_embeddings] makes of no question at all has
    one dimension only, and the retriever raises on it. *)
Lemma retrieve_one_dimensional `{Backend} `{Numpy} user_q q_vec questions chunks_by_id w :
  embeddings_api EMBED_MODEL user_q = Some q_vec →
  retrieve_chunks_for_query user_q Arr1D_empty questions chunks_by_id w
  = (Raise AxisError, embed_called EMBED_MODEL user_q w).
Proof.
  intros Hvec.
  unfold retrieve_chunks_for_query, mbind, M_bind, ollama_embed, lift.
  by rewrite Hvec.
Qed.

(** C9. Against an embedding matrix with zero rows the retriever does
    not always return the similarity 0 and no context chunk.  The index
    that the build leaves when no question is kept has no row:
    [build_embeddings] of no question returns the array of shape (0,),
    and on that array the retriever stops with the axis error of the
    norm along axis 1, after the embedding request.  On a matrix of
    zero rows and three columns a query embedded with two coordinates
    stops with the value error of the matrix product. *)
Theorem empty_index_raises_axis_error :
  let user_q := lit "how many absences can I miss" in
  @Index.build_embeddings Fixtures.backend Fixtures.numpy [] Fixtures.empty_world
  = (Ok Arr1D_empty, Fixtures.empty_world)
  ∧ @retrieve_chunks_for_query Fixtures.backend Fixtures.numpy user_q
      Arr1D_empty [] ∅ Fixtures.empty_world
    = (Raise AxisError, embed_called EMBED_MODEL user_q Fixtures.empty_world)
  ∧ @retrieve_chunks_for_query Fixtures.backend Fixtures.numpy user_q
      (Arr2D 3 []) [] ∅ Fixtures.empty_world
    = (Raise ValueError, embed_called EMBED_MODEL user_q Fixtures.empty_world).
Proof.
  intros user_q. split; [reflexivity|]. split.
  - by apply (retrieve_one_dimensional user_q [1; 0]%Q).
  - vm_compute. reflexivity.
Qed.

Lemma fixture_argsort_ok keys : argsort_ok keys (@argsort Fixtures.numpy keys).
Proof.
  apply insertion_argsort_ok.
  - intros x y. apply Qle_bool_iff.
  - apply Qle_bool_false.
Qed.

Lemma reversing_argsort_ok keys :
  argsort_ok keys (@argsort Fixtures.numpy_reversing keys).
Proof.
  apply insertion_argsort_ok.
  - intros x y Hlt. apply Qlt_le_weak. by apply Qltb_lt.
  - apply Qltb_ge.
Qed.

(** C4, as stated: of four rows with the similarities 0, 0, 1, 1 an
    argsort within NumPy's contract selects the rows 3, 2, 1, 0, in
    this order: row 3 comes before row 2, and row 1 before row 0,
    though the rows of each pair have the same similarity. *)
Lemma top_k_ties_not_by_index :
  ∃ numpy : Numpy,
    (∀ keys, argsort_ok keys (@argsort numpy keys))
    ∧ @top_k numpy [0; 0; 1; 1]%Q = [3; 2; 1; 0]
    ∧ ¬ ties_by_index [0; 0; 1; 1]%Q (@top_k numpy [0; 0; 1; 1]%Q).
Proof.
  exists Fixtures.numpy_reversing.
  split; [apply reversing_argsort_ok|].
  assert (@top_k Fixtures.numpy_reversing [0; 0; 1; 1]%Q = [3; 2; 1; 0])
    as Htop by (vm_compute; reflexivity).
  split; [done|]. rewrite Htop. intros Hties.
  destruct (Hties 2 3) as (a & b & Hab & Ha & Hb).
  - lia.
  - simpl. lia.
  - reflexivity.
  - left.
  - destruct a as [|[|a]]; [done| |].
    + destruct b as [|[|b]]; [lia|lia|]. by destruct b as [|[|b]].
    + by destruct a as [|[|a]].
Qed.

Lemma top_k_highest_descending_witness :
  let top := @top_k Fixtures.numpy [1 # 2; 9 # 10; 9 # 10; 0; 3 # 4; 1; 1 # 5]%Q in
  top = [5; 1; 2; 4; 0]
  ∧ length top = min TOP_K_QUESTIONS 7
  ∧ NoDup top.
Proof.
  split; [vm_compute; reflexivity|].
  pose proof (@top_k_highest_descending Fixtures.numpy fixture_argsort_ok
                [1 # 2; 9 # 10; 9 # 10; 0; 3 # 4; 1; 1 # 5]%Q) as (Hlen & Hnd & _).
  split; [exact Hlen|exact Hnd].
Defined.

Lemma retrieve_empty_index_witness :
  @retrieve_chunks_for_query Fixtures.backend Fixtures.numpy
    (lit "how many absences can I miss") (Arr2D 2 []) [] ∅ Fixtures.empty_world
  = (Ok (0%Q, []),
     embed_called EMBED_MODEL (lit "how many absences can I miss") Fixtures.empty_world).
Proof.
  apply (@retrieve_empty_index Fixtures.backend Fixtures.numpy fixture_argsort_ok
           (lit "how many absences can I miss") [1; 0]%Q 2 [] ∅ Fixtures.empty_world).
  - reflexivity.
  - reflexivity.
Defined.

Section Gate.

Context `{Backend} `{Numpy}.

Lemma gate_closed (max_sim : Q) (context_chunks : list chunk) :
  (max_sim < MIN_SIMILARITY)%Q ∨ context_chunks = [] →
  Qltb max_sim MIN_SIMILARITY || bool_decide (context_chunks = []) = true.
Proof.
  intros [Hlow|Hnone]; apply orb_true_iff.
  - left. by apply Qltb_lt.
  - right. by apply bool_decide_eq_true.
Qed.

(** C3. For every similarity and every list of context chunks, when the
    similarity is below [MIN_SIMILARITY] or the list is empty,
    [safe_generate_answer] returns the fixed insufficient-context string
    and leaves the world as it is, so the generation backend receives no
    call; and [answer_query], after a retrieval with such a result,
    prints that string and the generation backend has received no call
    since the query came in. *)
Theorem insufficient_context_gate :
  (∀ (user_q : str) (max_sim : Q) (context_chunks : list chunk) (w : world),
     (max_sim < MIN_SIMILARITY)%Q ∨ context_chunks = [] →
     safe_generate_answer user_q max_sim context_chunks w = (Ok INSUFFICIENT, w))
  ∧ (∀ (user_q : str) (emb_matrix : ndarray) (questions : list question)
       (chunks_by_id : gmap str chunk) (w : world) (max_sim : Q)
       (context_chunks : list chunk) (w1 : world),
       retrieve_chunks_for_query user_q emb_matrix questions chunks_by_id w
       = (Ok (max_sim, context_chunks), w1) →
       (max_sim < MIN_SIMILARITY)%Q ∨ context_chunks = [] →
       ∃ w2,
         answer_query user_q emb_matrix questions chunks_by_id w = (Ok (), w2)
         ∧ stdout w2 = stdout w ++ [PText (INSUFFICIENT ++ [LF])]
         ∧ chat_calls w2 = chat_calls w).
Proof.
  split.
  - intros user_q max_sim context_chunks w Hgate.
    unfold safe_generate_answer. by rewrite gate_closed.
  - intros user_q emb_matrix questions chunks_by_id w max_sim context_chunks w1
      Hret Hgate.
    pose proof (retrieve_world user_q emb_matrix questions chunks_by_id w) as Hw.
    rewrite Hret in Hw. simpl in Hw. subst w1.
    eexists. split.
    + unfold answer_query, mbind, M_bind. rewrite Hret.
      rewrite gate_closed by done. reflexivity.
    + done.
Qed.

End Gate.

Lemma insufficient_context_gate_witness :
  let user_q := lit "how many absences can I miss" in
  let chunks_by_id := index_chunks [Fixtures.absences_chunk] in
  (0 < MIN_SIMILARITY)%Q
  ∧ @safe_generate_answer Fixtures.backend user_q 0 [Fixtures.absences_chunk]
      Fixtures.empty_world
    = (Ok INSUFFICIENT, Fixtures.empty_world)
  ∧ ∃ w2,
      @answer_query Fixtures.backend Fixtures.numpy user_q Fixtures.other_matrix
        [Fixtures.other_question] chunks_by_id Fixtures.empty_world
      = (Ok (), w2)
      ∧ stdout w2 = [PText (INSUFFICIENT ++ [LF])]
      ∧ chat_calls w2 = [].
Proof.
  assert (0 < MIN_SIMILARITY)%Q as Hlow by reflexivity.
  split; [exact Hlow|]. split.
  - apply (proj1 (@insufficient_context_gate Fixtures.backend Fixtures.numpy)).
    left. exact Hlow.
  - eapply (proj2 (@insufficient_context_gate Fixtures.backend Fixtures.numpy)
              (lit "how many absences can I miss") Fixtures.other_matrix
              [Fixtures.other_question] (index_chunks [Fixtures.absences_chunk])
              Fixtures.empty_world _ _ _).
    + vm_compute. reflexivity.
    + left. vm_compute. reflexivity.
Defined.

End AskFacts.

(** ** The index build *)

Module BuildFacts.

Import Index IndexSpec StoreSpec StoreFacts.

Section WithBackend.

Context `{Backend} `{Numpy}.

Lemma clean_loop_preserves {X} (f : world → X) raw_questions text :
  ignores_prints f → preserves f (clean_loop raw_questions text).
Proof.
  intros Hf. induction raw_questions as [|q rest IH]; simpl.
  - apply preserves_ret.
  - destruct (is_empty (strip q)); [done|].
    destruct (_question_supported_by_chunk (strip q) text); simpl.
    + apply preserves_bind; [done|]. intros ?. apply preserves_ret.
    + apply preserves_bind; [by apply preserves_print|done].
Qed.

(** Generating the questions writes no file. *)
Lemma build_questions_preserves {X} (f : world → X) chunks :
  ignores_prints f → ignores_calls f → preserves f (build_questions chunks).
Proof.
  intros Hp Hc. induction chunks as [|chunk rest IH]; simpl.
  - apply preserves_ret.
  - apply preserves_bind; [by apply preserves_print|]. intros _.
    apply preserves_bind.
    { unfold generate_questions_for_chunk.
      apply preserves_bind; [by apply preserves_chat|]. intros ?.
      apply preserves_ret. }
    intros raw_questions.
    apply preserves_bind; [by apply clean_loop_preserves|].
    intros [|q clean].
    + apply preserves_bind; [by apply preserves_print|done].
    + apply preserves_bind; [done|]. intros ?. apply preserves_ret.
Qed.

Lemma embed_loop_preserves {X} (f : world → X) i n questions :
  ignores_prints f → ignores_calls f → preserves f (embed_loop i n questions).
Proof.
  intros Hp Hc. revert i. induction questions as [|q rest IH]; intros i; simpl.
  - apply preserves_ret.
  - apply preserves_bind; [by apply preserves_print|]. intros _.
    apply preserves_bind; [by apply preserves_embed|]. intros vec.
    apply preserves_bind; [done|]. intros ?. apply preserves_ret.
Qed.

(** One failed embedding call stops the loop with the error. *)
Lemma embed_loop_fails i n questions w :
  (∃ q, q ∈ questions ∧ embeddings_api EMBED_MODEL (q_question q) = None) →
  ∃ w', embed_loop i n questions w = (Raise BackendError, w').
Proof.
  revert i w. induction questions as [|q rest IH]; intros i w (q0 & Hin & Hfail).
  - by apply elem_of_nil in Hin.
  - simpl. unfold mbind, M_bind, print, embed_text, ollama_embed.
    destruct (embeddings_api EMBED_MODEL (q_question q)) as [vec|] eqn:Hq; [|eauto].
    apply elem_of_cons in Hin as [->|Hin]; [congruence|].
    edestruct (IH (S i)) as [w' ->]; [by eauto|]. eauto.
Qed.

Lemma build_embeddings_fails questions w :
  (∃ q, q ∈ questions ∧ embeddings_api EMBED_MODEL (q_question q) = None) →
  ∃ w', build_embeddings questions w = (Raise BackendError, w')
        ∧ questions_file w' = questions_file w
        ∧ embeddings_file w' = embeddings_file w
        ∧ meta_file w' = meta_file w.
Proof.
  intros Hfail.
  destruct (embed_loop_fails 0 (length questions) questions w Hfail) as [w' Hloop].
  exists w'. split.
  - unfold build_embeddings, mbind, M_bind. by rewrite Hloop.
  - pose proof (embed_loop_preserves questions_file 0 (length questions) questions
                  ltac:(done) ltac:(done) w) as Hq.
    pose proof (embed_loop_preserves embeddings_file 0 (length questions) questions
                  ltac:(done) ltac:(done) w) as He.
    pose proof (embed_loop_preserves meta_file 0 (length questions) questions
                  ltac:(done) ltac:(done) w) as Hm.
    rewrite Hloop in Hq, He, Hm. done.
Qed.

(** C6, amended. For every project directory and every backend, when
    the questions have been generated and one call of the embedding
    backend fails, [build_embeddings] raises the backend error and makes
    no matrix, [main] stops with that error, [embeddings.npy] and
    [meta.json] are as they were before the run, and [questions.jsonl]
    already holds the new questions. *)
Theorem failed_embedding_aborts_build (w : world) (chunks : list chunk)
    (questions : list question) (w1 : world) :
  chunks_file w = Some chunks →
  build_questions chunks (printing (PLoaded (length chunks)) w) = (Ok questions, w1) →
  (∃ q, q ∈ questions ∧ embeddings_api EMBED_MODEL (q_question q) = None) →
  let w2 :=
    printing (PWroteQuestions (length questions)) (questions_written questions w1) in
  ∃ w',
    build_embeddings questions w2 = (Raise BackendError, w')
    ∧ main w = (Raise BackendError, w')
    ∧ questions_file w' = Some questions
    ∧ embeddings_file w' = embeddings_file w
    ∧ meta_file w' = meta_file w.
Proof.
  intros Hchunks Hbuild Hfail w2.
  destruct (build_embeddings_fails questions w2 Hfail) as (w' & Hemb & Hq & He & Hm).
  exists w'. split; [done|].
  pose proof (build_questions_preserves embeddings_file chunks
                ltac:(done) ltac:(done) (printing (PLoaded (length chunks)) w)) as He1.
  pose proof (build_questions_preserves meta_file chunks
                ltac:(done) ltac:(done) (printing (PLoaded (length chunks)) w)) as Hm1.
  rewrite Hbuild in He1, Hm1. simpl in He1, Hm1.
  split; [|by rewrite Hq, He, Hm, <- He1, <- Hm1].
  unfold main, mbind, M_bind, read_file. rewrite Hchunks.
  change (print (PLoaded (length chunks)) w)
    with (Ok (), printing (PLoaded (length chunks)) w).
  cbv beta iota. rewrite Hbuild.
  change (save_questions questions w1) with (Ok (), w2).
  cbv beta iota. by rewrite Hemb.
Qed.

End WithBackend.

(** C6, as stated: a directory that holds a consistent index; the build
    stops at the first embedding call, and leaves two new questions next
    to the old matrix of one row. *)
Lemma failed_build_leaves_stale_index :
  index_consistent Fixtures.served_world
  ∧ ∃ w',
      @main Fixtures.offline_backend Fixtures.numpy Fixtures.served_world
      = (Raise BackendError, w')
      ∧ embeddings_file w' = Some Fixtures.other_matrix
      ∧ (length <$> questions_file w') = Some 2
      ∧ ¬ index_consistent w'.
Proof.
  split; [reflexivity|].
  eexists. split; [vm_compute; reflexivity|].
  split; [reflexivity|]. split; [reflexivity|].
  vm_compute. discriminate.
Qed.

Lemma failed_embedding_aborts_build_witness :
  ∃ w',
    @main Fixtures.offline_backend Fixtures.numpy Fixtures.served_world
    = (Raise BackendError, w')
    ∧ questions_file w'
      = Some (question_records (lit "chunk_1") (lit "Attendance") 0
                [lit "How many unexcused absences may students have?";
                 lit "What about absences of students?"])
    ∧ embeddings_file w' = Some Fixtures.other_matrix.
Proof.
  edestruct (@failed_embedding_aborts_build Fixtures.offline_backend Fixtures.numpy
               Fixtures.served_world [Fixtures.absences_chunk])
    as (w' & _ & Hmain & Hq & Hemb & _).
  - reflexivity.
  - vm_compute. reflexivity.
  - eexists. split; [left|reflexivity].
  - exists w'. split; [exact Hmain|]. split; [exact Hq|exact Hemb].
Defined.

End BuildFacts.

(** ** The evaluator *)

Module ScoreFacts.

Import Ask AskSpec Score ScoreSpec StoreSpec StoreFacts AskFacts.

Section WithBackend.

Context `{Backend} `{Numpy}.

Lemma retrieve_pure_outcome user_q emb_matrix questions chunks_by_id :
  pure_outcome (retrieve_chunks_for_query user_q emb_matrix questions chunks_by_id).
Proof.
  unfold retrieve_chunks_for_query.
  apply pure_outcome_bind; [apply pure_outcome_embed|]. intros q_vec.
  apply pure_outcome_bind; [apply pure_outcome_lift|]. intros sims.
  apply pure_outcome_bind.
  - destruct (top_k sims) as [|i0 ?]; [apply pure_outcome_ret|].
    destruct (sims !! i0); [apply pure_outcome_ret|apply pure_outcome_raise].
  - intros max_sim. apply pure_outcome_bind; [apply pure_outcome_lift|].
    intros ?. apply pure_outcome_ret.
Qed.

Lemma safe_generate_preserves {X} (f : world → X) user_q max_sim context_chunks :
  ignores_calls f → preserves f (safe_generate_answer user_q max_sim context_chunks).
Proof.
  intros Hf. unfold safe_generate_answer.
  destruct (_ || _); [apply preserves_ret|].
  apply preserves_bind; [by intros w|]. intros prompt.
  apply preserves_bind; [by apply preserves_chat|]. intros ?. apply preserves_ret.
Qed.

Lemma gold_chunk_read (g : str) : (if is_empty g then [] else strip g) = strip g.
Proof. by destruct g. Qed.

Variable emb_matrix : ndarray.
Variable questions : list question.
Variable chunks_by_id : gmap str chunk.

Lemma predicted_of_retrieval qtext w max_sim context_chunks w1 :
  retrieve_chunks_for_query qtext emb_matrix questions chunks_by_id w
  = (Ok (max_sim, context_chunks), w1) →
  predicted emb_matrix questions chunks_by_id qtext = top1_chunk_id context_chunks.
Proof.
  intros Hret. unfold predicted.
  by rewrite (retrieve_pure_outcome qtext emb_matrix questions chunks_by_id
                StoreSpec.empty_world w), Hret.
Qed.

(** The invariant of the loop over the gold rows. *)
Lemma eval_loop_counts gold total_normals total_hits out_rows w n' h' rows' w' :
  eval_loop gold emb_matrix questions chunks_by_id total_normals total_hits out_rows w
  = (Ok (n', h', rows'), w') →
  n' = total_normals + length (List.filter eligible gold)
  ∧ h' = total_hits
         + length (List.filter (hit emb_matrix questions chunks_by_id) gold)
  ∧ (∃ new, rows' = out_rows ++ new
            ∧ Forall2 (row_of_case emb_matrix questions chunks_by_id) gold new)
  ∧ stdout w' = stdout w.
Proof.
  revert total_normals total_hits out_rows w.
  induction gold as [|row rest IH]; intros n h rows w.
  - intros [= <- <- <- <-]. simpl. split; [lia|]. split; [lia|].
    split; [|done]. exists []. split; [by rewrite app_nil_r|constructor].
  - cbn [eval_loop]. rewrite gold_chunk_read. fold (gold_of row).
    intros Hrun. apply bind_Ok in Hrun as ([max_sim ctx] & w1 & Hret & Hrun).
    pose proof (predicted_of_retrieval _ _ _ _ _ Hret) as Hpred.
    pose proof (retrieve_world (g_question row) emb_matrix questions chunks_by_id w)
      as Hw1.
    rewrite Hret in Hw1. simpl in Hw1.
    fold (eligible row) in Hrun. rewrite <- Hpred in Hrun.
    assert (hit emb_matrix questions chunks_by_id row
            = eligible row
              && bool_decide (predicted emb_matrix questions chunks_by_id
                                (g_question row) = gold_of row)) as Hhit by done.
    cbn [List.filter]. rewrite Hhit.
    destruct (eligible row) eqn:Hel; cbn [andb] in *.
    + apply bind_Ok in Hrun as (answer_text & w2 & Hans & Hrun).
      apply IH in Hrun as (-> & -> & (new & -> & Hnew) & Hout).
      pose proof (safe_generate_preserves stdout (g_question row) max_sim ctx
                    ltac:(done) w1) as Hw2.
      rewrite Hans in Hw2. simpl in Hw2.
      split; [simpl; lia|]. split.
      { destruct (bool_decide _); simpl; lia. }
      split; [|by rewrite Hout, Hw2, Hw1].
      eexists. split; [by rewrite <- app_assoc|].
      constructor; [|done]. red.
      cbn [r_qid r_question r_type r_gold_chunk r_pred_chunk r_hit1 r_notes].
      by rewrite Hhit, Hel.
    + apply bind_Ok in Hrun as (answer_text & w2 & Hans & Hrun).
      apply IH in Hrun as (-> & -> & (new & -> & Hnew) & Hout).
      pose proof (safe_generate_preserves stdout (g_question row) max_sim ctx
                    ltac:(done) w1) as Hw2.
      rewrite Hans in Hw2. simpl in Hw2.
      split; [done|]. split; [done|].
      split; [|by rewrite Hout, Hw2, Hw1].
      eexists. split; [by rewrite <- app_assoc|].
      constructor; [|done]. red.
      cbn [r_qid r_question r_type r_gold_chunk r_pred_chunk r_hit1 r_notes].
      by rewrite Hel.
Qed.

Lemma bind_returns {A B} (m : M A) (f : A → M B) w a w1 :
  m w = (Ok a, w1) → (m ≫= f) w = f a w1.
Proof. intros Hm. unfold mbind, M_bind. by rewrite Hm. Qed.

Lemma collect_chunks_returns top_indices seen context_chunks :
  Forall (λ i, i < length questions) top_indices →
  ∃ ctx, collect_chunks top_indices questions chunks_by_id seen context_chunks = Ok ctx.
Proof.
  intros Htop. revert seen context_chunks.
  induction Htop as [|idx rest Hidx _ IH]; intros seen ctx;
    cbn [collect_chunks]; [eauto|].
  destruct (lookup_lt_is_Some_2 questions idx Hidx) as [q_rec ->].
  case_bool_decide; [apply IH|].
  destruct (MAX_CHUNKS <=? _); [eauto|apply IH].
Qed.

Lemma safe_generate_returns user_q max_sim context_chunks w :
  (∀ prompt, is_Some (chat_api GENERATOR_MODEL prompt)) →
  ∃ answer w', safe_generate_answer user_q max_sim context_chunks w = (Ok answer, w').
Proof.
  intros Hchat. unfold safe_generate_answer.
  destruct (_ || _) eqn:Hgate; [by eexists _, _|].
  apply orb_false_iff in Hgate as [_ Hctx].
  apply bool_decide_eq_false in Hctx.
  destruct context_chunks as [|ch ctx]; [done|].
  destruct (Hchat (context_prompt (text ch) user_q)) as [answer Hanswer].
  unfold mbind, M_bind, lift, build_context_prompt, ollama_chat.
  rewrite Hanswer. by eexists _, _.
Qed.

Section Returns.

Hypothesis argsort_contract : ∀ keys, argsort_ok keys (argsort keys).
Variable ncols : nat.
Variable rows : list (list Q).
Hypothesis matrix_shape : emb_matrix = Arr2D ncols rows.
Hypothesis rows_indexed : length rows ≤ length questions.
Hypothesis embed_total :
  ∀ text, ∃ v, embeddings_api EMBED_MODEL text = Some v ∧ length v = ncols.
Hypothesis chat_total : ∀ prompt, is_Some (chat_api GENERATOR_MODEL prompt).

Lemma cosine_sim_matrix_length vec sims :
  cosine_sim_matrix vec (Arr2D ncols rows) = Ok sims → length sims = length rows.
Proof.
  unfold cosine_sim_matrix. destruct (_ =? _); [|done].
  intros [= <-]. rewrite length_map, length_zip, length_map. lia.
Qed.

Lemma retrieve_returns user_q w :
  ∃ max_sim context_chunks,
    retrieve_chunks_for_query user_q emb_matrix questions chunks_by_id w
    = (Ok (max_sim, context_chunks), embed_called EMBED_MODEL user_q w).
Proof.
  destruct (embed_total user_q) as (v & Hv & Hlen).
  pose proof (retrieve_world user_q emb_matrix questions chunks_by_id w) as Hw.
  destruct (retrieve_chunks_for_query user_q emb_matrix questions chunks_by_id w)
    as [o w'] eqn:Hret.
  simpl in Hw. subst w'.
  enough (∃ r, o = Ok r) as [[max_sim ctx] ->] by eauto.
  apply (f_equal fst) in Hret. simpl in Hret. subst o.
  unfold retrieve_chunks_for_query, mbind, M_bind, ollama_embed, lift.
  rewrite Hv, matrix_shape.
  destruct (cosine_sim_matrix v (Arr2D ncols rows)) as [sims|e] eqn:Hsims.
  2:{ unfold cosine_sim_matrix in Hsims.
      by rewrite (proj2 (Nat.eqb_eq _ _) Hlen) in Hsims. }
  apply cosine_sim_matrix_length in Hsims.
  pose proof (top_k_range argsort_contract sims) as Hrange.
  assert (Forall (λ i, i < length questions) (top_k sims)) as Htop.
  { apply Forall_forall. intros i Hi. apply Hrange in Hi. lia. }
  destruct (collect_chunks_returns (top_k sims) ∅ [] Htop) as [ctx Hctx].
  destruct (top_k sims) as [|i0 rest] eqn:Etop.
  - rewrite Hctx. eauto.
  - destruct (lookup_lt_is_Some_2 sims i0) as [s0 ->].
    { apply Hrange. by left. }
    rewrite Hctx. eauto.
Qed.

Lemma eval_loop_returns gold total_normals total_hits out_rows w :
  ∃ res w',
    eval_loop gold emb_matrix questions chunks_by_id total_normals total_hits
      out_rows w
    = (Ok res, w').
Proof.
  revert total_normals total_hits out_rows w.
  induction gold as [|row rest IH]; intros n h out w.
  - by eexists _, _.
  - cbn [eval_loop].
    destruct (retrieve_returns (g_question row) w) as (max_sim & ctx & Hret).
    rewrite (bind_returns _ _ _ _ _ Hret).
    destruct (safe_generate_returns (g_question row) max_sim ctx
                (embed_called EMBED_MODEL (g_question row) w) chat_total)
      as (answer & w2 & Hans).
    destruct (_ && _); rewrite (bind_returns _ _ _ _ _ Hans); apply IH.
Qed.

End Returns.

End WithBackend.

Section Main.

Context `{Backend} `{Numpy}.

Lemma load_index_reads w emb_matrix questions records :
  embeddings_file w = Some emb_matrix →
  questions_file w = Some questions →
  chunks_file w = Some records →
  load_index w = (Ok (emb_matrix, questions, index_chunks records), w).
Proof.
  intros He Hq Hc. unfold load_index, mbind, M_bind, read_file.
  by rewrite He, Hq, Hc.
Qed.

Lemma main_after_loop w gold emb_matrix questions records n h rows w1 :
  gold_file w = Some gold →
  embeddings_file w = Some emb_matrix →
  questions_file w = Some questions →
  chunks_file w = Some records →
  eval_loop gold emb_matrix questions (index_chunks records) 0 0 [] w
  = (Ok (n, h, rows), w1) →
  ∃ w', main w = (Ok (), w')
    ∧ results_file w' = Some rows
    ∧ stdout w' = stdout w1 ++ summary n h.
Proof.
  intros Hg He Hq Hc Hloop.
  unfold main, load_gold.
  rewrite (bind_returns _ _ w gold w) by (unfold read_file; by rewrite Hg).
  rewrite (bind_returns _ _ _ _ _ (load_index_reads _ _ _ _ He Hq Hc)).
  rewrite (bind_returns _ _ _ _ _ Hloop).
  unfold summary.
  destruct (0 <? n); (eexists; split; [reflexivity|]; split; [reflexivity|]).
  - simpl. by rewrite <- app_assoc.
  - reflexivity.
Qed.

(** C8. For every gold set and index on disk: when the evaluator runs
    to its end, it writes one result row per gold case, in order, with
    the case's id, type and gold chunk, the top-1 chunk predicted by the
    retriever, and a hit mark only for the cases of type "normal" with a
    non-empty gold chunk; it prints Hit@1 as the number of those cases
    whose predicted chunk is the gold chunk, divided by the number of
    those cases, or the no-answerable-cases message when there is none.
    And it does run to its end when NumPy's argsort meets its contract,
    the matrix has at most as many rows as there are questions, and both
    backends answer every request. *)
Theorem hit_at_1_over_answerable_normals (w : world) (gold : list gold_case)
    (emb_matrix : ndarray) (questions : list question) (records : list chunk) :
  gold_file w = Some gold →
  embeddings_file w = Some emb_matrix →
  questions_file w = Some questions →
  chunks_file w = Some records →
  let chunks_by_id := index_chunks records in
  let normals := length (List.filter eligible gold) in
  let hits := length (List.filter (hit emb_matrix questions chunks_by_id) gold) in
  (∀ w', main w = (Ok (), w') →
     (∃ rows, results_file w' = Some rows
              ∧ Forall2 (row_of_case emb_matrix questions chunks_by_id) gold rows)
     ∧ stdout w'
       = stdout w
         ++ (if 0 <? normals then
               [PText (lit "Normal questions with gold chunk: " ++ str_of_nat normals);
                PHitAt1 (inject_Z (Z.of_nat hits) / inject_Z (Z.of_nat normals))%Q]
             else [PText (lit "No answerable normal questions found.")]))
  ∧ ((∀ keys, argsort_ok keys (argsort keys)) →
     (∃ ncols rows,
        emb_matrix = Arr2D ncols rows
        ∧ length rows ≤ length questions
        ∧ ∀ text, ∃ v, embeddings_api EMBED_MODEL text = Some v ∧ length v = ncols) →
     (∀ prompt, is_Some (chat_api GENERATOR_MODEL prompt)) →
     ∃ w', main w = (Ok (), w')).
Proof.
  intros Hg He Hq Hc chunks_by_id normals hits. split.
  - intros w' Hrun.
    destruct (eval_loop gold emb_matrix questions chunks_by_id 0 0 [] w)
      as [[[[n h] rows]|e] w1] eqn:Hloop.
    + destruct (main_after_loop _ _ _ _ _ _ _ _ _ Hg He Hq Hc Hloop)
        as (w2 & Hmain & Hres & Hout).
      rewrite Hmain in Hrun. injection Hrun as <-.
      apply eval_loop_counts in Hloop as (-> & -> & (new & -> & Hnew) & Hw1).
      split; [by exists new|]. by rewrite Hout, Hw1.
    + exfalso. revert Hrun. unfold main, load_gold.
      rewrite (bind_returns _ _ w gold w) by (unfold read_file; by rewrite Hg).
      rewrite (bind_returns _ _ _ _ _ (load_index_reads _ _ _ _ He Hq Hc)).
      unfold mbind at 1, M_bind at 1. fold chunks_by_id. by rewrite Hloop.
  - intros Hsort (ncols & rows & Hshape & Hrows & Hembed) Hchat.
    destruct (eval_loop_returns emb_matrix questions chunks_by_id Hsort ncols rows
                Hshape Hrows Hembed Hchat gold 0 0 [] w) as ([[n h] out] & w1 & Hloop).
    destruct (main_after_loop _ _ _ _ _ _ _ _ _ Hg He Hq Hc Hloop) as (w' & Hmain & _).
    eauto.
Qed.

End Main.

Lemma hit_at_1_over_answerable_normals_witness :
  ∃ w',
    @main Fixtures.eval_backend Fixtures.numpy Fixtures.eval_world = (Ok (), w')
    ∧ (length <$> results_file w') = Some 3
    ∧ stdout w'
      = [PText (lit "Normal questions with gold chunk: 2"); PHitAt1 (1 / 2)%Q].
Proof.
  destruct (@hit_at_1_over_answerable_normals Fixtures.eval_backend Fixtures.numpy
              Fixtures.eval_world _ _ _ _ eq_refl eq_refl eq_refl eq_refl)
    as [Hrows Hruns].
  destruct Hruns as [w' Hmain].
  - apply fixture_argsort_ok.
  - exists 2, [[1; 0]; [0; 1]]%Q. split; [reflexivity|]. split; [simpl; lia|].
    intros text. simpl. case_bool_decide; eauto.
  - intros prompt. by eexists.
  - exists w'. split; [exact Hmain|].
    destruct (Hrows w' Hmain) as [(rows & Hfile & Hall) Hout].
    split.
    + rewrite Hfile. simpl. f_equal. apply Forall2_length in Hall. by rewrite <- Hall.
    + exact Hout.
Defined.

End ScoreFacts.

(** ** The entry point of the chunker *)

Module IngestMainFacts.

Import Ingest IngestMain Ask StoreSpec StoreFacts ScoreFacts.

Lemma lit_inj (a b : string) : lit a = lit b → a = b.
Proof.
  unfold lit. intros Hab.
  by rewrite <- (string_of_list_ascii_of_string a),
             <- (string_of_list_ascii_of_string b), Hab.
Qed.

Lemma str_of_nat_inj (n m : nat) : str_of_nat n = str_of_nat m → n = m.
Proof.
  unfold str_of_nat. intros Hnm. apply lit_inj in Hnm.
  apply Unsigned.to_uint_inj.
  assert (Some (Nat.to_uint n) = Some (Nat.to_uint m)) as [= ->]; [|done].
  by rewrite <- !NilEmpty.usu, Hnm.
Qed.

(** The name of the chunk with a number. *)
Local Abbreviation chunk_name := (λ i : nat, lit "chunk_" ++ str_of_nat i).

Lemma chunk_name_inj (n m : nat) : chunk_name n = chunk_name m → n = m.
Proof. intros Hnm. by apply app_inv_head, str_of_nat_inj in Hnm. Qed.

Lemma records_of_file_ids chunk_id filename text :
  map Store.chunk_id (records_of_file chunk_id filename text)
  = map chunk_name
      (seq chunk_id (length (iter_section_chunks text filename MAX_CHARS))).
Proof.
  unfold records_of_file.
  generalize (iter_section_chunks text filename MAX_CHARS). intros pairs.
  revert chunk_id. induction pairs as [|p pairs IH]; intros chunk_id; [done|].
  rewrite imap_cons. cbn [map seq length]. f_equal.
  - by rewrite Nat.add_0_r.
  - rewrite <- IH. f_equal. apply imap_ext. intros i x _. simpl.
    by rewrite Nat.add_succ_r.
Qed.

Lemma records_of_file_length chunk_id filename text :
  length (records_of_file chunk_id filename text)
  = length (iter_section_chunks text filename MAX_CHARS).
Proof. apply length_imap. Qed.

Lemma records_of_files_ids chunk_id texts :
  map Store.chunk_id (records_of_files chunk_id texts)
  = map chunk_name (seq chunk_id (length (records_of_files chunk_id texts))).
Proof.
  revert chunk_id. induction texts as [|[filename text] rest IH]; intros chunk_id.
  - done.
  - cbn [records_of_files]. rewrite length_app, seq_app, !map_app.
    rewrite <- IH, records_of_file_ids. by rewrite records_of_file_length.
Qed.

Lemma records_of_files_NoDup chunk_id texts :
  NoDup (map Store.chunk_id (records_of_files chunk_id texts)).
Proof.
  rewrite records_of_files_ids.
  apply (NoDup_fmap_2_strong chunk_name); [|apply NoDup_seq].
  intros n m _ _. apply chunk_name_inj.
Qed.

Lemma write_records_spec chunk_id filename url pairs w written :
  chunks_file w = Some written →
  ∃ w',
    write_records chunk_id filename url pairs w = (Ok (chunk_id + length pairs), w')
    ∧ chunks_file w'
      = Some (written
              ++ imap (λ i p,
                         Chunk (chunk_name (chunk_id + i)) p.1 filename url p.2)
                   pairs)
    ∧ stdout w' = stdout w.
Proof.
  revert chunk_id w written.
  induction pairs as [|[section_title chunk_text] rest IH];
    intros chunk_id w written Hw.
  - exists w. cbn [write_records length imap]. rewrite Nat.add_0_r, app_nil_r.
    done.
  - cbn [write_records].
    set (rec := Chunk (chunk_name chunk_id) section_title filename url chunk_text).
    destruct (IH (chunk_id + 1) (chunk_appended rec w) (written ++ [rec]))
      as (w' & Hrun & Hfile & Hout).
    { simpl. by rewrite Hw. }
    exists w'. split; [|split].
    + rewrite (bind_returns _ _ w () (chunk_appended rec w)) by done.
      rewrite Hrun. do 2 f_equal. simpl. lia.
    + rewrite Hfile, imap_cons, <- app_assoc. cbn [app]. do 3 f_equal.
      * unfold rec. simpl. by rewrite Nat.add_0_r.
      * apply imap_ext. intros i x _. simpl.
        by replace (chunk_id + 1 + i) with (chunk_id + S i) by lia.
    + by rewrite Hout.
Qed.

(** All files readable. *)
Local Abbreviation readable :=
  (map (λ ft : str * str, (ft.1, Some ft.2))).

Lemma files_loop_spec chunk_id texts w written :
  chunks_file w = Some written →
  ∃ w',
    files_loop chunk_id (readable texts) w
    = (Ok (chunk_id + length (records_of_files chunk_id texts)), w')
    ∧ chunks_file w' = Some (written ++ records_of_files chunk_id texts)
    ∧ stdout w' = stdout w.
Proof.
  revert chunk_id w written.
  induction texts as [|[filename text] rest IH]; intros chunk_id w written Hw.
  - exists w. cbn. by rewrite Nat.add_0_r, app_nil_r.
  - cbn [map files_loop fst snd records_of_files].
    destruct (write_records_spec chunk_id filename (default [] (URLS !! filename))
                (iter_section_chunks text filename MAX_CHARS) w written Hw)
      as (w1 & Hrun1 & Hfile1 & Hout1).
    fold (records_of_file chunk_id filename text) in Hfile1.
    rewrite <- (records_of_file_length chunk_id) in Hrun1.
    destruct (IH (chunk_id + length (records_of_file chunk_id filename text))
                w1 _ Hfile1) as (w' & Hrun & Hfile & Hout).
    exists w'. split; [|split].
    + rewrite (bind_returns _ _ _ _ _ Hrun1), Hrun, length_app.
      do 2 f_equal. lia.
    + by rewrite Hfile, <- app_assoc.
    + by rewrite Hout.
Qed.

Lemma main_readable_run (texts : list (str * str)) (out_path : str) (w : world) :
  ∃ w',
    main (readable texts) out_path w = (Ok (), w')
    ∧ chunks_file w' = Some (records_of_files 0 texts)
    ∧ stdout w'
      = stdout w
        ++ [PText (lit "Wrote " ++ str_of_nat (length (records_of_files 0 texts))
                   ++ lit " chunks to " ++ out_path)].
Proof.
  destruct (files_loop_spec 0 texts (chunks_opened w) [] eq_refl)
    as (w1 & Hrun & Hfile & Hout).
  eexists. split; [|split].
  - unfold main.
    rewrite (bind_returns _ _ w () (chunks_opened w)) by done.
    rewrite (bind_returns _ _ _ _ _ Hrun). reflexivity.
  - simpl. by rewrite Hfile.
  - simpl. by rewrite Hout.
Qed.

Lemma records_of_files_chunks chunk_id texts :
  map (λ rec, (section_title rec, Store.text rec)) (records_of_files chunk_id texts)
  = flat_map (λ ft : str * str, iter_section_chunks ft.2 ft.1 MAX_CHARS) texts.
Proof.
  revert chunk_id. induction texts as [|[filename text] rest IH]; intros chunk_id.
  - done.
  - cbn [records_of_files flat_map fst snd]. rewrite map_app, IH. f_equal.
    unfold records_of_file.
    generalize (iter_section_chunks text filename MAX_CHARS). intros pairs.
    generalize chunk_id. clear.
    induction pairs as [|[title body] pairs IH]; intros chunk_id; [done|].
    rewrite imap_cons. cbn [map fst snd]. f_equal.
    rewrite <- (IH (S chunk_id)) at 2.
    f_equal. apply imap_ext. intros i x _. simpl. by rewrite Nat.add_succ_r.
Qed.

(** X1. Whatever [chunks.jsonl] held before, when every text file can
    be read [main] returns and the file holds one record per chunk: the
    titles and texts of the records are the chunks that
    [iter_section_chunks] yields for the files, in the order of the
    files, no chunk left out and none written twice; the records have
    the ids chunk_0, chunk_1, ... in the order of writing, all
    different, and the count printed is the number of chunks. *)
Theorem ingest_ids_sequential (texts : list (str * str)) (out_path : str)
    (w : world) :
  ∃ records w',
    main (readable texts) out_path w = (Ok (), w')
    ∧ chunks_file w' = Some records
    ∧ map (λ rec, (section_title rec, Store.text rec)) records
      = flat_map (λ ft : str * str, iter_section_chunks ft.2 ft.1 MAX_CHARS) texts
    ∧ map Store.chunk_id records = map chunk_name (seq 0 (length records))
    ∧ NoDup (map Store.chunk_id records)
    ∧ stdout w'
      = stdout w
        ++ [PText (lit "Wrote "
                   ++ str_of_nat
                        (length (flat_map
                                   (λ ft : str * str,
                                      iter_section_chunks ft.2 ft.1 MAX_CHARS)
                                   texts))
                   ++ lit " chunks to " ++ out_path)].
Proof.
  destruct (main_readable_run texts out_path w) as (w' & Hmain & Hfile & Hout).
  exists (records_of_files 0 texts), w'.
  split; [done|]. split; [done|].
  split; [apply records_of_files_chunks|].
  split; [apply records_of_files_ids|].
  split; [apply records_of_files_NoDup|].
  by rewrite <- (records_of_files_chunks 0), length_map.
Qed.

Lemma records_of_file_fields chunk_id filename text :
  map (λ rec, (source_file rec, section_title rec, Store.text rec, url rec))
    (records_of_file chunk_id filename text)
  = map (λ p, (filename, p.1, p.2, default [] (URLS !! filename)))
      (iter_section_chunks text filename MAX_CHARS).
Proof.
  unfold records_of_file.
  generalize (iter_section_chunks text filename MAX_CHARS). intros pairs.
  revert chunk_id. induction pairs as [|p pairs IH]; intros chunk_id; [done|].
  rewrite imap_cons. cbn [map]. f_equal. rewrite <- (IH (S chunk_id)).
  f_equal. apply imap_ext. intros i x _. simpl. by rewrite Nat.add_succ_r.
Qed.

(** X4. The records that [main] writes are the chunks of the files in
    the order of the files, and within a file in the order in which
    [iter_section_chunks] yields them; each record carries the name of
    its file and the address that [URLS] has for that name, or the empty
    string when it has none. *)
Theorem ingest_records_in_reading_order (texts : list (str * str))
    (out_path : str) (w : world) :
  ∃ records w',
    main (readable texts) out_path w = (Ok (), w')
    ∧ chunks_file w' = Some records
    ∧ map (λ rec, (source_file rec, section_title rec, Store.text rec, url rec))
        records
      = flat_map
          (λ ft : str * str,
             map (λ p, (ft.1, p.1, p.2, default [] (URLS !! ft.1)))
               (iter_section_chunks ft.2 ft.1 MAX_CHARS))
          texts.
Proof.
  destruct (main_readable_run texts out_path w) as (w' & Hmain & Hfile & _).
  exists (records_of_files 0 texts), w'. split; [done|]. split; [done|].
  clear Hmain Hfile. generalize 0.
  induction texts as [|[filename text] rest IH]; intros chunk_id.
  - done.
  - cbn [records_of_files flat_map fst snd].
    by rewrite map_app, records_of_file_fields, IH.
Qed.

Lemma files_loop_unreadable chunk_id before filename after w written :
  chunks_file w = Some written →
  ∃ w',
    files_loop chunk_id (readable before ++ (filename, None) :: after) w
    = (Raise ValueError, w')
    ∧ chunks_file w' = Some (written ++ records_of_files chunk_id before)
    ∧ stdout w' = stdout w.
Proof.
  revert chunk_id w written.
  induction before as [|[f text] rest IH]; intros chunk_id w written Hw.
  - exists w. cbn. by rewrite app_nil_r.
  - cbn [map app files_loop fst snd records_of_files].
    destruct (write_records_spec chunk_id f (default [] (URLS !! f))
                (iter_section_chunks text f MAX_CHARS) w written Hw)
      as (w1 & Hrun1 & Hfile1 & Hout1).
    fold (records_of_file chunk_id f text) in Hfile1.
    rewrite <- (records_of_file_length chunk_id) in Hrun1.
    destruct (IH (chunk_id + length (records_of_file chunk_id f text))
                w1 _ Hfile1) as (w' & Hrun & Hfile & Hout).
    exists w'. split; [|split].
    + by rewrite (bind_returns _ _ _ _ _ Hrun1), Hrun.
    + by rewrite Hfile, <- app_assoc.
    + by rewrite Hout.
Qed.

(** X5. A text file that cannot be decoded stops [main] with the error:
    the files after it are not read, nothing is printed, and
    [chunks.jsonl], whatever it held before, is left with exactly the
    records that a run over the files before the unreadable one
    writes. *)
Theorem ingest_unreadable_file_aborts (before after : list (str * str))
    (filename out_path : str) (w : world) :
  ∃ w' w0,
    main (readable before ++ (filename, None) :: readable after) out_path w
    = (Raise ValueError, w')
    ∧ main (readable before) out_path w = (Ok (), w0)
    ∧ chunks_file w' = chunks_file w0
    ∧ stdout w' = stdout w.
Proof.
  destruct (files_loop_unreadable 0 before filename (readable after)
              (chunks_opened w) [] eq_refl) as (w' & Hrun & Hfile & Hout).
  destruct (main_readable_run before out_path w) as (w0 & Hmain0 & Hfile0 & _).
  exists w', w0. split; [|split; [done|split]].
  - unfold main.
    rewrite (bind_returns _ _ w () (chunks_opened w)) by done.
    unfold mbind at 1, M_bind at 1. by rewrite Hrun.
  - by rewrite Hfile, Hfile0.
  - by rewrite Hout.
Qed.

Lemma index_chunks_snoc (records : list chunk) (rec : chunk) :
  index_chunks (records ++ [rec])
  = <[Store.chunk_id rec := rec]> (index_chunks records).
Proof. unfold index_chunks. by rewrite foldl_snoc. Qed.

Lemma index_chunks_lookup (records : list chunk) (id : str) :
  index_chunks records !! id
  = last (filter (λ rec, Store.chunk_id rec = id) records).
Proof.
  induction records as [|rec records IH] using rev_ind; [done|].
  rewrite index_chunks_snoc, filter_app.
  destruct (decide (Store.chunk_id rec = id)) as [Heq|Hne].
  - rewrite filter_cons_True, filter_nil, last_snoc by done.
    rewrite <- Heq. apply lookup_insert_eq.
  - rewrite filter_cons_False, filter_nil, app_nil_r by done.
    by rewrite lookup_insert_ne.
Qed.

(** X2. [load_chunks] of [ask.py] (and [load_index] of [score.py])
    keeps, for every id, the last record of the file with that id, so a
    repeated id hides the earlier records; an id that no record has is
    not in the dict. *)
Theorem load_chunks_last_wins (records : list chunk) (id : str) :
  index_chunks records !! id
  = last (filter (λ rec, Store.chunk_id rec = id) records)
  ∧ (index_chunks records !! id = None
     ↔ id ∉ map Store.chunk_id records).
Proof.
  split; [apply index_chunks_lookup|].
  rewrite index_chunks_lookup, last_None. split.
  - intros Hnil Hin. apply list_elem_of_fmap in Hin as (rec & -> & Hrec).
    by apply (filter_nil_not_elem_of _ _ rec Hnil).
  - intros Hnot.
    destruct (filter (λ rec, Store.chunk_id rec = id) records) as [|rec l] eqn:E;
      [done|].
    assert (rec ∈ filter (λ rec, Store.chunk_id rec = id) records) as Hin
      by (rewrite E; by left).
    apply list_elem_of_filter in Hin as [<- Hin]. destruct Hnot.
    by apply (list_elem_of_fmap_2 Store.chunk_id).
Qed.

Lemma same_id_same_record (records : list chunk) (r1 r2 : chunk) :
  NoDup (map Store.chunk_id records) → r1 ∈ records → r2 ∈ records →
  Store.chunk_id r1 = Store.chunk_id r2 → r1 = r2.
Proof.
  induction records as [|rec records IH]; intros Hnd H1 H2 Hid.
  - by apply elem_of_nil in H1.
  - cbn [map] in Hnd. apply NoDup_cons in Hnd as [Hrec Hnd].
    apply elem_of_cons in H1 as [->|H1], H2 as [->|H2]; [done| | |by apply IH].
    + destruct Hrec. rewrite Hid. by apply (list_elem_of_fmap_2 Store.chunk_id).
    + destruct Hrec. rewrite <- Hid. by apply (list_elem_of_fmap_2 Store.chunk_id).
Qed.

Lemma index_chunks_lookup_unique (records : list chunk) (rec : chunk) :
  NoDup (map Store.chunk_id records) → rec ∈ records →
  index_chunks records !! Store.chunk_id rec = Some rec.
Proof.
  intros Hnd Hin. rewrite index_chunks_lookup.
  destruct (last (filter (λ r, Store.chunk_id r = Store.chunk_id rec) records))
    as [r|] eqn:Hlast.
  - apply last_Some_elem_of, list_elem_of_filter in Hlast as [Hid Hr].
    f_equal. by apply (same_id_same_record records).
  - apply last_None in Hlast.
    assert (rec ∈ filter (λ r, Store.chunk_id r = Store.chunk_id rec) records) as Habs
      by (by apply list_elem_of_filter).
    rewrite Hlast in Habs. by apply elem_of_nil in Habs.
Qed.

(** X3. Every chunk that [main] of [ingest.py] writes is found again
    under its own id in the dict that [load_chunks] of [ask.py] builds
    from the file. *)
Theorem ingested_chunks_load_back (texts : list (str * str)) (out_path : str)
    (w : world) :
  ∃ records w',
    main (readable texts) out_path w = (Ok (), w')
    ∧ chunks_file w' = Some records
    ∧ Forall (λ rec, index_chunks records !! Store.chunk_id rec = Some rec) records.
Proof.
  destruct (main_readable_run texts out_path w) as (w' & Hmain & Hfile & _).
  exists (records_of_files 0 texts), w'. split; [done|]. split; [done|].
  apply Forall_forall. intros rec Hin.
  apply index_chunks_lookup_unique; [apply records_of_files_NoDup|done].
Qed.

End IngestMainFacts.

(** ** More on the chunker *)

Module ChunkerFacts.

Import Ingest IngestSpec IndexSpec ChunkerSpec IngestFacts.

(** *** Whitespace *)

Lemma dropwhile_all f (s : str) : Forall (λ c, f c = true) s → dropwhile f s = [].
Proof. induction 1 as [|c s Hc _ IH]; simpl; [done|]. by rewrite Hc. Qed.

Lemma strip_whitespace (s : str) : Forall (λ c, isspace c = true) s → strip s = [].
Proof.
  intros Hs. unfold strip, lstrip, rstrip.
  by rewrite (dropwhile_all isspace s).
Qed.

Lemma splitlines_go_Forall (P : ascii → Prop) (cur s : str) :
  Forall P cur → Forall P s → Forall (Forall P) (splitlines_go cur s).
Proof.
  revert cur.
  induction s as [s IH] using (induction_ltof1 _ (@length ascii)).
  unfold ltof in IH. intros cur Hcur Hs.
  assert (Forall P (rev cur)) as Hrev by (by apply Forall_rev).
  destruct s as [|c s]; simpl.
  - destruct cur; repeat constructor; done.
  - apply Forall_cons in Hs as [Hc Hs].
    destruct (is_linebreak c).
    + constructor; [done|].
      assert (Forall P []) as Hnil by constructor.
      destruct (decide (c = CR)); [|apply IH; simpl; [lia|done|done]].
      destruct s as [|c' s]; [apply IH; simpl; [lia|done|done]|].
      destruct (decide (c' = LF)).
      * apply Forall_cons in Hs as [_ Hs]. apply IH; simpl; (lia || done).
      * apply IH; simpl; (lia || done).
    + apply IH; [simpl; lia| |done]. by constructor.
Qed.

Lemma normalize_loop_blank_skip m (lines : list str) :
  Forall (λ line, is_empty (strip line) = true) lines → 0 < m →
  normalize_loop m lines = [].
Proof.
  intros Hl. revert m.
  induction Hl as [|line rest Hline _ IH]; intros m Hm; simpl; [done|].
  rewrite Hline. destruct (Nat.eqb_spec (m + 1) 1); [lia|]. apply IH. lia.
Qed.

Lemma normalize_loop_blank n (lines : list str) :
  Forall (λ line, is_empty (strip line) = true) lines →
  normalize_loop n lines = [] ∨ normalize_loop n lines = [[]].
Proof.
  intros Hl. destruct Hl as [|line rest Hline Hrest]; simpl; [by left|].
  rewrite Hline. destruct (n + 1 =? 1).
  - right. f_equal. apply normalize_loop_blank_skip; [done|lia].
  - left. apply normalize_loop_blank_skip; [done|lia].
Qed.

Lemma normalize_newlines_whitespace (text : str) :
  Forall (λ c, isspace c = true) text → normalize_newlines text = [].
Proof.
  intros Hws. unfold normalize_newlines.
  destruct (normalize_loop_blank 0 (splitlines text)) as [-> | ->]; [|done|done].
  eapply Forall_impl; [apply splitlines_go_Forall; [constructor|exact Hws]|].
  intros line Hline. simpl in Hline. by rewrite strip_whitespace.
Qed.

(** X6. A document that is empty or made of whitespace only gives no
    chunk at all, whatever its file name and the budget. *)
Theorem whitespace_document_has_no_chunk (text filename : str) (max_chars : Z) :
  Forall (λ c, isspace c = true) text →
  iter_section_chunks text filename max_chars = [].
Proof.
  intros Hws. unfold iter_section_chunks.
  rewrite normalize_newlines_whitespace by done.
  by destruct (bool_decide _).
Qed.

Lemma whitespace_document_has_no_chunk_witness :
  iter_section_chunks (py " \n\n\n  ") (lit "living_on_campus.txt") 3000 = [].
Proof.
  apply (whitespace_document_has_no_chunk (py " \n\n\n  ")
           (lit "living_on_campus.txt") 3000).
  repeat constructor.
Defined.

(** *** Non-blank lines survive the normalization *)

Lemma filter_trim_last (lines : list str) :
  filter (λ line, is_blank line = false) (trim_last lines)
  = filter (λ line, is_blank line = false) lines.
Proof.
  induction lines as [|line rest IH]; [done|].
  destruct rest as [|y rest].
  - simpl. destruct line; [done|]. done.
  - change (trim_last (line :: y :: rest)) with (line :: trim_last (y :: rest)).
    by rewrite !(filter_cons _ line), IH.
Qed.

Lemma filter_normalize_loop n (lines : list str) :
  filter (λ line, is_blank line = false) (normalize_loop n lines)
  = filter (λ line, is_blank line = false) lines.
Proof.
  revert n. induction lines as [|line rest IH]; intros n; [done|].
  cbn [normalize_loop].
  destruct (is_empty (strip line)) eqn:Hblank.
  - rewrite (filter_cons_False _ line) by (unfold is_blank; congruence).
    destruct (n + 1 =? 1); [|apply IH].
    rewrite filter_cons_False by (by compute). apply IH.
  - rewrite !(filter_cons_True _ line) by done. by rewrite IH.
Qed.

(** X7. Blank-line normalization keeps every line that is not blank,
    unchanged and in order: the non-blank lines of the output are the
    non-blank lines of the input. *)
Theorem normalize_newlines_keeps_lines (text : str) :
  filter (λ line, is_blank line = false) (splitlines (normalize_newlines text))
  = filter (λ line, is_blank line = false) (splitlines text).
Proof.
  unfold normalize_newlines.
  rewrite splitlines_join
    by apply normalize_loop_no_break, splitlines_no_break.
  by rewrite filter_trim_last, filter_normalize_loop.
Qed.

(** *** Chunk texts are trimmed *)

Lemma dropwhile_suffix f (s : str) : ∃ pre, s = pre ++ dropwhile f s.
Proof.
  induction s as [|c s [pre IH]]; simpl; [by exists []|].
  destruct (f c); [|by exists []].
  exists (c :: pre). simpl. by rewrite <- IH.
Qed.

Lemma dropwhile_fixed f (s : str) c :
  head s = Some c → f c = false → dropwhile f s = s.
Proof. destruct s as [|d s]; [done|]. intros [= ->] Hc. simpl. by rewrite Hc. Qed.

Lemma head_rev (s : str) : head (rev s) = last s.
Proof.
  induction s as [|c s IH] using rev_ind; [done|].
  by rewrite rev_app_distr, last_snoc.
Qed.

Lemma last_rev (s : str) : last (rev s) = head s.
Proof. by rewrite <- head_rev, rev_involutive. Qed.

Lemma trimmed_strip (s : str) : trimmed s → strip s = s.
Proof.
  intros (_ & (c & Hc & Hcs) & (d & Hd & Hds)).
  unfold strip, lstrip, rstrip.
  rewrite (dropwhile_fixed isspace s c) by done.
  rewrite (dropwhile_fixed isspace (rev s) d), rev_involutive; [done| |done].
  by rewrite head_rev.
Qed.

Lemma strip_trimmed (q : str) : strip q ≠ [] → trimmed (strip q).
Proof.
  unfold strip, lstrip, rstrip. intros Hne.
  set (a := dropwhile isspace q) in *.
  set (b := dropwhile isspace (rev a)) in *.
  destruct (dropwhile_suffix isspace (rev a)) as [pre Hpre]. fold b in Hpre.
  assert (a = rev b ++ rev pre) as Ha.
  { by rewrite <- rev_app_distr, <- Hpre, rev_involutive. }
  destruct b as [|d b'] eqn:Eb; [done|].
  pose proof (dropwhile_head isspace (rev a) d b' Eb) as Hd.
  split; [done|]. split.
  - destruct a as [|c a'] eqn:Ea.
    { symmetry in Ha. apply app_eq_nil in Ha as [Ha _]. by destruct Hne. }
    exists c. split.
    + destruct (rev (d :: b')) as [|c0 r] eqn:Er; [by destruct Hne|].
      simpl in Ha. by injection Ha as -> _.
    + by apply (dropwhile_head isspace q c a').
  - exists d. split; [|done]. by rewrite last_rev.
Qed.

Lemma join_trimmed sep (group : list str) :
  group ≠ [] → Forall trimmed group → trimmed (join sep group).
Proof.
  intros Hne Hall.
  induction Hall as [|x rest Hx Hrest IH]; [done|].
  destruct rest as [|y rest]; [done|].
  change (join sep (x :: y :: rest)) with (x ++ sep ++ join sep (y :: rest)).
  destruct Hx as (Hx & (c & Hc & Hcs) & _).
  destruct (IH ltac:(done)) as (Hj & _ & (d & Hd & Hds)).
  split; [by destruct x|]. split.
  - exists c. split; [|done]. by destruct x.
  - exists d. split; [|done].
    rewrite app_assoc, last_app, Hd. done.
Qed.

Lemma paragraphs_of_trimmed (text : str) : Forall trimmed (paragraphs_of text).
Proof.
  unfold paragraphs_of. apply Forall_map, Forall_forall. intros q Hq.
  apply list_elem_of_filter in Hq as [Hq _]. simpl.
  apply strip_trimmed. by destruct (strip q).
Qed.

Lemma split_chunks_trimmed (paragraphs : list str) (max_chars : Z) :
  Forall trimmed paragraphs →
  Forall trimmed (_split_paragraphs_into_chunks paragraphs max_chars).
Proof.
  intros Hall. unfold _split_paragraphs_into_chunks.
  rewrite split_loop_groups. apply Forall_map, Forall_forall.
  intros group Hgroup. simpl.
  pose proof (group_loop_nonempty [] 0 paragraphs max_chars) as Hne.
  rewrite Forall_forall in Hne.
  apply join_trimmed; [by apply Hne|].
  apply Forall_forall. intros p Hp. rewrite Forall_forall in Hall. apply Hall.
  pose proof (group_loop_concat [] 0 paragraphs max_chars) as Hcat.
  simpl in Hcat. rewrite <- Hcat.
  apply list_elem_of_In, in_concat. exists group.
  split; by apply list_elem_of_In.
Qed.

Lemma section_chunks_trimmed section_title current_lines max_chars :
  Forall (λ p, trimmed p.2) (section_chunks section_title current_lines max_chars).
Proof.
  unfold section_chunks. destruct (is_empty _); [constructor|].
  apply Forall_map. simpl.
  apply split_chunks_trimmed, paragraphs_of_trimmed.
Qed.

Lemma section_loop_trimmed current_title current_lines lines base_title max_chars :
  Forall (λ p, trimmed p.2)
    (section_loop current_title current_lines lines base_title max_chars).
Proof.
  revert current_title current_lines.
  induction lines as [|line rest IH]; intros ct cl; simpl.
  - destruct cl; [constructor|]. apply section_chunks_trimmed.
  - destruct (roman_header_match (strip line)); [|apply IH].
    apply Forall_app. split; [|apply IH].
    destruct (_ && _); [apply section_chunks_trimmed|constructor].
Qed.

(** X8. Every chunk text that the chunker yields is not empty and has
    no whitespace at either end: stripping it changes nothing. *)
Theorem chunk_texts_are_trimmed (text filename : str) (max_chars : Z) :
  Forall (λ p, p.2 ≠ [] ∧ strip p.2 = p.2)
    (iter_section_chunks text filename max_chars).
Proof.
  assert (Forall (λ p : str * str, trimmed p.2)
            (iter_section_chunks text filename max_chars)) as Hall.
  { unfold iter_section_chunks. destruct (negb _).
    - apply Forall_map. simpl. apply split_chunks_trimmed, paragraphs_of_trimmed.
    - apply section_loop_trimmed. }
  eapply Forall_impl; [exact Hall|]. intros p Hp. simpl.
  split; [apply Hp|by apply trimmed_strip].
Qed.

(** *** The packing is tight *)

Lemma group_loop_head current cur_len paragraphs max_chars c current' :
  current = c :: current' →
  ∃ g tail,
    group_loop current cur_len paragraphs max_chars = g :: tail
    ∧ head g = Some c.
Proof.
  revert current cur_len c current'.
  induction paragraphs as [|p rest IH]; intros current cl c current' ->; simpl.
  - eauto.
  - destruct (_ >? _)%Z; [eauto|]. by eapply IH.
Qed.

Lemma group_loop_tight current cur_len paragraphs max_chars :
  (current = [] → cur_len <= 0)%Z →
  (current ≠ [] → cur_len <= len (join [LF; LF] current) + 2)%Z →
  packed_tight max_chars (group_loop current cur_len paragraphs max_chars).
Proof.
  revert current cur_len.
  induction paragraphs as [|p rest IH]; intros current cl Hnil Hlen; simpl.
  - by destruct current.
  - destruct current as [|c current].
    + apply IH; [done|]. intros _. simpl. specialize (Hnil eq_refl). lia.
    + specialize (Hlen ltac:(done)).
      destruct (Z.gtb_spec (cl + len p + 2) max_chars) as [Hgt|Hle].
      * destruct (group_loop_head [p] (len p) rest max_chars p [] eq_refl)
          as (g & tail & Hg & Hhead).
        pose proof (IH [p] (len p) ltac:(done) ltac:(simpl; lia)) as Htail.
        rewrite Hg in Htail |- *.
        cbn [packed_tight]. rewrite Hhead.
        change (default [] (Some p)) with p. split; [lia|done].
      * apply IH; [done|]. intros _.
        rewrite (join_snoc [LF; LF] (c :: current) p) by done.
        rewrite !len_app. change (len [LF; LF]) with 2%Z. lia.
Qed.

(** X9. The greedy packing starts a new chunk only when it has to: for
    every chunk but the last, its text, the separator and the first
    paragraph of the next chunk do not fit the budget together (up to
    the two characters that the loop counts in excess for the first
    chunk). *)
Theorem split_chunks_packed_tight (paragraphs : list str) (max_chars : Z) :
  let groups := chunk_groups paragraphs max_chars in
  _split_paragraphs_into_chunks paragraphs max_chars = map (join [LF; LF]) groups
  ∧ concat groups = paragraphs
  ∧ packed_tight max_chars groups.
Proof.
  unfold chunk_groups, _split_paragraphs_into_chunks. simpl.
  split; [apply split_loop_groups|].
  split; [apply group_loop_concat|].
  apply group_loop_tight; [lia|done].
Qed.

(** *** Paragraphs read back from the chunks *)

Local Abbreviation blank_line := [LF; LF].

Lemma no_blank_line_nil : ¬ substring blank_line [].
Proof. intros (a & b & H). by destruct a. Qed.

Lemma no_blank_line_snoc (l : str) (c : ascii) :
  ¬ substring blank_line l → ¬ (last l = Some LF ∧ c = LF) →
  ¬ substring blank_line (l ++ [c]).
Proof.
  intros Hl Hc (a & b & Heq).
  destruct b as [|x b _] using rev_ind.
  - rewrite app_nil_r in Heq.
    change (a ++ [LF; LF]) with (a ++ [LF] ++ [LF]) in Heq.
    rewrite app_assoc in Heq. apply app_inj_tail in Heq as [-> ->].
    apply Hc. by rewrite last_snoc.
  - rewrite !app_assoc in Heq. apply app_inj_tail in Heq as [-> _].
    apply Hl. exists a, b. by rewrite <- app_assoc.
Qed.

Lemma no_blank_line_block (pre s post : str) :
  ¬ substring blank_line (pre ++ s ++ post) → ¬ substring blank_line s.
Proof.
  intros Hall (a & b & ->). apply Hall.
  exists (pre ++ a), (b ++ post). by rewrite <- !app_assoc.
Qed.

Lemma split_blank_go_cons2 (cur : str) (c c' : ascii) (s : str) :
  split_blank_go cur (c :: c' :: s)
  = if bool_decide (c = LF) && bool_decide (c' = LF)
    then rev cur :: split_blank_go [] s
    else split_blank_go (c :: cur) (c' :: s).
Proof. reflexivity. Qed.

(** The pieces of [split("\n\n")] hold no blank line. *)
Lemma split_blank_go_pieces (cur s : str) :
  ¬ substring blank_line (rev cur) →
  (head cur = Some LF → head s ≠ Some LF) →
  Forall (λ p, ¬ substring blank_line p) (split_blank_go cur s).
Proof.
  revert cur.
  induction s as [s IH] using (induction_ltof1 _ (@length ascii)).
  unfold ltof in IH. intros cur Hcur Hhead.
  assert (∀ c, (head cur = Some LF → c ≠ LF) →
               ¬ substring blank_line (rev (c :: cur))) as Hpush.
  { intros c Hc. simpl. apply no_blank_line_snoc; [done|].
    rewrite last_rev. intros [Hl ->]. by apply Hc. }
  destruct s as [|c s]; [by repeat constructor|].
  assert (¬ substring blank_line (rev (c :: cur))) as Hc.
  { apply Hpush. intros Hl ->. by apply Hhead. }
  destruct s as [|c' s].
  - simpl. repeat constructor. exact Hc.
  - rewrite split_blank_go_cons2.
    destruct (bool_decide (c = LF) && bool_decide (c' = LF)) eqn:Hcut.
    + constructor; [done|].
      apply IH; [simpl; lia|apply no_blank_line_nil|done].
    + apply IH; [simpl; lia|done|].
      simpl. intros [= ->] [= ->]. by rewrite !bool_decide_eq_true_2 in Hcut.
Qed.

Lemma strip_block (q : str) : ∃ pre post, q = pre ++ strip q ++ post.
Proof.
  unfold strip, lstrip, rstrip.
  destruct (dropwhile_suffix isspace q) as [pre Hpre].
  set (a := dropwhile isspace q) in *.
  destruct (dropwhile_suffix isspace (rev a)) as [post Hpost].
  exists pre, (rev post). rewrite <- rev_app_distr, <- Hpost, rev_involutive.
  exact Hpre.
Qed.

Lemma paragraphs_of_no_blank_line (text : str) :
  Forall (λ p, ¬ substring blank_line p) (paragraphs_of text).
Proof.
  unfold paragraphs_of. apply Forall_map, Forall_forall. intros q Hq.
  apply list_elem_of_filter in Hq as [_ Hq]. simpl.
  destruct (strip_block q) as (pre & post & Hblock).
  apply (no_blank_line_block pre _ post). rewrite <- Hblock.
  pose proof (split_blank_go_pieces [] text no_blank_line_nil ltac:(done)) as Hall.
  rewrite Forall_forall in Hall. by apply Hall.
Qed.

Lemma split_blank_go_end (p cur : str) :
  ¬ substring blank_line p → split_blank_go cur p = [rev cur ++ p].
Proof.
  revert cur. induction p as [|c p IH]; intros cur Hp.
  - simpl. by rewrite app_nil_r.
  - assert (¬ substring blank_line p) as Hp'
      by (apply (no_blank_line_block [c] p []); by rewrite app_nil_r).
    destruct p as [|c' p].
    + simpl. by rewrite <- ?app_assoc.
    + rewrite split_blank_go_cons2.
      destruct (bool_decide (c = LF) && bool_decide (c' = LF)) eqn:Hcut.
      * apply andb_true_iff in Hcut as [Hc Hc'].
        apply bool_decide_eq_true in Hc, Hc'. subst. destruct Hp.
        by exists [], p.
      * rewrite IH by done. simpl. by rewrite <- ?app_assoc.
Qed.

Lemma split_blank_go_piece (p cur rest : str) :
  ¬ substring blank_line p → last p ≠ Some LF →
  split_blank_go cur (p ++ LF :: LF :: rest)
  = (rev cur ++ p) :: split_blank_go [] rest.
Proof.
  revert cur. induction p as [|c p IH]; intros cur Hp Hlast.
  - simpl. by rewrite app_nil_r.
  - assert (¬ substring blank_line p) as Hp'
      by (apply (no_blank_line_block [c] p []); by rewrite app_nil_r).
    destruct p as [|c' p].
    + simpl in Hlast.
      change (([c] ++ LF :: LF :: rest)) with (c :: LF :: LF :: rest).
      rewrite split_blank_go_cons2.
      rewrite (bool_decide_eq_false_2 (c = LF)) by congruence.
      cbn [andb].
      change (LF :: LF :: rest) with ([] ++ LF :: LF :: rest).
      rewrite (IH (c :: cur)) by done. simpl. by rewrite <- ?app_assoc.
    + change ((c :: c' :: p) ++ LF :: LF :: rest)
        with (c :: c' :: (p ++ LF :: LF :: rest)).
      rewrite split_blank_go_cons2.
      destruct (bool_decide (c = LF) && bool_decide (c' = LF)) eqn:Hcut.
      * apply andb_true_iff in Hcut as [Hc Hc'].
        apply bool_decide_eq_true in Hc, Hc'. subst. destruct Hp.
        by exists [], p.
      * change (c' :: (p ++ LF :: LF :: rest))
          with ((c' :: p) ++ LF :: LF :: rest).
        rewrite IH; [|done|by rewrite last_cons_cons in Hlast].
        simpl. by rewrite <- ?app_assoc.
Qed.

Lemma split_blank_join (group : list str) :
  group ≠ [] →
  Forall (λ p, ¬ substring blank_line p ∧ last p ≠ Some LF) group →
  split_blank (join blank_line group) = group.
Proof.
  intros Hne Hall. unfold split_blank.
  induction Hall as [|x rest [Hx Hlast] Hrest IH]; [done|].
  destruct rest as [|y rest].
  - simpl. by rewrite split_blank_go_end.
  - change (join blank_line (x :: y :: rest))
      with (x ++ LF :: LF :: join blank_line (y :: rest)).
    rewrite split_blank_go_piece by done. simpl. f_equal. by apply IH.
Qed.

Lemma paragraphs_of_join (group : list str) :
  group ≠ [] →
  Forall trimmed group → Forall (λ p, ¬ substring blank_line p) group →
  paragraphs_of (join blank_line group) = group.
Proof.
  intros Hne Htrim Hnb. unfold paragraphs_of.
  rewrite split_blank_join; [|done|].
  - induction Htrim as [|p rest Hp _ IH]; [done|].
    apply Forall_cons in Hnb as [_ Hnb].
    pose proof (trimmed_strip p Hp) as Hs.
    rewrite filter_cons_True by (rewrite Hs; by destruct Hp as [? _], p).
    cbn [map]. rewrite Hs. f_equal.
    destruct rest; [done|]. by apply IH.
  - apply Forall_forall. intros p Hp.
    rewrite Forall_forall in Htrim, Hnb. split; [by apply Hnb|].
    destruct (Htrim p Hp) as (_ & _ & (d & -> & Hd)). by intros [= ->].
Qed.

(** X10. Chunk boundaries fall on paragraph breaks: splitting the chunk
    texts of a document into paragraphs again, as the chunker splits the
    document, gives the paragraphs of the document, whatever the
    budget. *)
Theorem chunks_keep_paragraphs (text : str) (max_chars : Z) :
  flat_map paragraphs_of
    (_split_paragraphs_into_chunks (paragraphs_of text) max_chars)
  = paragraphs_of text.
Proof.
  unfold _split_paragraphs_into_chunks. rewrite split_loop_groups.
  pose proof (group_loop_concat [] 0 (paragraphs_of text) max_chars) as Hcat.
  pose proof (group_loop_nonempty [] 0 (paragraphs_of text) max_chars) as Hne.
  simpl in Hcat. rewrite <- Hcat at 2.
  assert (Forall (λ g, Forall trimmed g ∧ Forall (λ p, ¬ substring blank_line p) g)
            (group_loop [] 0 (paragraphs_of text) max_chars)) as Hgroups.
  { apply Forall_forall. intros g Hg.
    assert (∀ p, p ∈ g → p ∈ paragraphs_of text) as Hsub.
    { intros p Hp. rewrite <- Hcat. apply list_elem_of_In, in_concat.
      exists g. split; by apply list_elem_of_In. }
    pose proof (paragraphs_of_trimmed text) as Ht.
    pose proof (paragraphs_of_no_blank_line text) as Hb.
    rewrite Forall_forall in Ht, Hb.
    split; apply Forall_forall; intros p Hp; auto. }
  clear Hcat.
  induction Hne as [|g groups Hg _ IH]; [done|].
  apply Forall_cons in Hgroups as [[Ht Hb] Hgroups].
  cbn [map flat_map concat]. rewrite paragraphs_of_join by done.
  f_equal. by apply IH.
Qed.

End ChunkerFacts.

(** ** The index build, from the chunks to the files *)

Module IndexMainFacts.

Import Index IndexSpec ChunkerSpec BuildSpec StoreSpec.
Import StoreFacts IndexFacts BuildFacts ScoreFacts ChunkerFacts IngestMainFacts.

Lemma strip_markers_trimmed fuel (line : str) :
  line = [] ∨ trimmed line →
  strip_markers fuel line = [] ∨ trimmed (strip_markers fuel line).
Proof.
  revert line. induction fuel as [|fuel IH]; intros line Hline; [done|].
  destruct line as [|c line]; [by left|]. cbn [strip_markers].
  destruct (is_marker c); [|done].
  apply IH.
  destruct (strip (dropwhile is_marker_or_sep (c :: line))) eqn:Hs; [by left|].
  right. rewrite <- Hs. apply strip_trimmed. by rewrite Hs.
Qed.

Lemma parse_questions_clean (raw : str) :
  Forall clean_question (parse_questions raw).
Proof.
  unfold parse_questions.
  set (lines := map strip _).
  assert (Forall trimmed lines) as Hlines.
  { apply Forall_map, Forall_forall. intros l Hl.
    apply list_elem_of_filter in Hl as [Hl _]. simpl.
    apply strip_trimmed. by destruct (strip l). }
  set (questions := filter _ _).
  assert (Forall clean_question questions) as Hq.
  { apply Forall_forall. intros q Hq.
    apply list_elem_of_filter in Hq as [Hne Hq].
    apply list_elem_of_In, in_map_iff in Hq as (line & <- & Hline).
    apply list_elem_of_In in Hline. rewrite Forall_forall in Hlines.
    pose proof (strip_markers_done (length line) line (le_n _)) as Hdone.
    destruct (strip_markers_trimmed (length line) line (or_intror (Hlines _ Hline)))
      as [Hnil|Htrim]; [by rewrite Hnil in Hne|].
    split; [done|]. intros c Hc.
    destruct (strip_markers (length line) line); [done|]. by injection Hc as ->. }
  destruct (_ <? _); [by apply Forall_take|done].
Qed.

Lemma parse_questions_length (raw : str) :
  length (parse_questions raw) ≤ N_QUESTIONS_PER_CHUNK.
Proof.
  unfold parse_questions.
  destruct (_ <? _) eqn:Hlen.
  - rewrite length_take. lia.
  - by apply Nat.ltb_ge in Hlen.
Qed.

Section WithBackend.

Context `{Backend}.

(** X11. Whatever the model answers, [generate_questions_for_chunk]
    returns at most [N_QUESTIONS_PER_CHUNK] questions, each of them not
    empty, without whitespace at either end and without a bullet or a
    digit in front; the only error it raises is that of the backend. *)
Theorem generated_questions_clean (section_title chunk_text : str) (w : world) :
  match generate_questions_for_chunk section_title chunk_text w with
  | (Ok questions, _) =>
      length questions ≤ N_QUESTIONS_PER_CHUNK
      ∧ Forall (λ q, q ≠ [] ∧ strip q = q
                     ∧ ∀ c, head q = Some c → is_marker c = false) questions
  | (Raise e, _) => e = BackendError
  end.
Proof.
  unfold generate_questions_for_chunk, mbind, M_bind, ollama_chat.
  destruct (chat_api _ _) as [raw|]; [|done]. simpl.
  split; [apply parse_questions_length|].
  eapply Forall_impl; [apply parse_questions_clean|].
  intros q [Htrim Hhead]. split; [apply Htrim|].
  split; [by apply trimmed_strip|done].
Qed.

End WithBackend.

Section KeptQuestions.

Context `{Backend}.

Lemma print_returns {B} p (k : M B) w : (print p ;; k) w = k (printing p w).
Proof. done. Qed.

Lemma clean_loop_kept (qs : list str) (text : str) (w : world) :
  Forall trimmed qs →
  ∃ w', clean_loop qs text w
        = (Ok (filter (λ q, _question_supported_by_chunk q text = true) qs), w').
Proof.
  intros Hqs. revert w.
  induction Hqs as [|q rest Hq _ IH]; intros w; [by eexists|].
  cbn [clean_loop]. rewrite (trimmed_strip q Hq).
  destruct Hq as [Hne _]. destruct q as [|c q]; [done|]. cbn [is_empty].
  destruct (_question_supported_by_chunk (c :: q) text) eqn:Hsup; cbn [negb].
  - rewrite filter_cons_True by done.
    destruct (IH w) as [w' Hrest]. exists w'.
    by rewrite (bind_returns _ _ _ _ _ Hrest).
  - rewrite filter_cons_False by (cbv beta; congruence).
    rewrite print_returns. apply IH.
Qed.

Lemma question_records_imap cid st i clean :
  question_records cid st i clean
  = imap (λ j q, Question (cid ++ lit "_q" ++ str_of_nat (i + j)) cid st q) clean.
Proof.
  revert i. induction clean as [|q rest IH]; intros i; [done|].
  cbn [question_records]. rewrite imap_cons, Nat.add_0_r. f_equal.
  rewrite IH. apply imap_ext. intros j x _. unfold compose.
  by rewrite Nat.add_succ_r.
Qed.

Lemma kept_questions_length ch raw :
  length (kept_questions ch raw) ≤ N_QUESTIONS_PER_CHUNK.
Proof.
  unfold kept_questions. etrans; [apply length_filter|apply parse_questions_length].
Qed.

(** One turn of the loop of [build_questions], for a chunk that the
    model answers. *)
Lemma build_questions_step ch rest raw w :
  model_answer ch = Some raw →
  ∃ w2,
    build_questions (ch :: rest) w
    = (qs ← build_questions rest; mret (chunk_questions ch raw ++ qs)) w2
    ∧ chat_calls w2 = chat_calls w ++ [(DOC2QUERY_MODEL, chunk_prompt ch)]
    ∧ embed_calls w2 = embed_calls w
    ∧ ∀ X (f : world → X), ignores_prints f → ignores_calls f → f w2 = f w.
Proof.
  intros Hraw. cbn [build_questions]. rewrite print_returns.
  set (w1 := printing _ w).
  assert (generate_questions_for_chunk (section_title ch) (text ch) w1
          = (Ok (parse_questions raw), chat_called DOC2QUERY_MODEL (chunk_prompt ch) w1))
    as Hgen.
  { unfold generate_questions_for_chunk, mbind, M_bind, ollama_chat.
    unfold model_answer, chunk_prompt in Hraw. by rewrite Hraw. }
  rewrite (bind_returns _ _ _ _ _ Hgen).
  set (w2 := chat_called _ _ w1).
  destruct (clean_loop_kept (parse_questions raw) (text ch) w2) as [w3 Hclean].
  { eapply Forall_impl; [apply parse_questions_clean|]. by intros q [? _]. }
  rewrite (bind_returns _ _ _ _ _ Hclean).
  fold (kept_questions ch raw).
  pose proof (clean_loop_preserves chat_calls (parse_questions raw) (text ch)
                ltac:(done) w2) as Hchat.
  rewrite Hclean in Hchat. simpl in Hchat.
  pose proof (clean_loop_preserves embed_calls (parse_questions raw) (text ch)
                ltac:(done) w2) as Hemb.
  rewrite Hclean in Hemb. simpl in Hemb.
  assert (∀ X (f : world → X), ignores_prints f → ignores_calls f → f w3 = f w)
    as Hfiles.
  { intros X f Hp Hc.
    pose proof (clean_loop_preserves f (parse_questions raw) (text ch) Hp w2) as Hf.
    rewrite Hclean in Hf. simpl in Hf. rewrite Hf.
    unfold w2.
    destruct (Hc w1 DOC2QUERY_MODEL (chunk_prompt ch)) as [_ ->]. apply Hp. }
  unfold chunk_questions.
  destruct (kept_questions ch raw) as [|q kept] eqn:Hkept.
  - rewrite print_returns. set (w4 := printing _ w3). exists w4.
    split; [|split; [|split]].
    + unfold mbind, M_bind. simpl.
      by destruct (build_questions rest w4) as [[qs|e] w5].
    + done.
    + done.
    + intros X f Hp Hc. unfold w4. rewrite Hp. by apply Hfiles.
  - exists w3. split; [|done].
    rewrite take_ge.
    + by rewrite question_records_imap.
    + rewrite <- Hkept. apply kept_questions_length.
Qed.

End KeptQuestions.

Section QuestionLoop.

Context `{Backend}.

Local Abbreviation answered := (λ ch : chunk, is_Some (model_answer ch)).
Local Abbreviation request := (λ ch : chunk, (DOC2QUERY_MODEL, chunk_prompt ch)).

Lemma build_questions_run chunks w :
  Forall answered chunks →
  ∃ w',
    build_questions chunks w = (Ok (expected_questions chunks), w')
    ∧ chat_calls w' = chat_calls w ++ map request chunks
    ∧ embed_calls w' = embed_calls w
    ∧ ∀ X (f : world → X), ignores_prints f → ignores_calls f → f w' = f w.
Proof.
  intros Hans. revert w.
  induction Hans as [|ch rest [raw Hraw] _ IH]; intros w.
  - exists w. split; [done|]. split; [by rewrite app_nil_r|done].
  - destruct (build_questions_step ch rest raw w Hraw)
      as (w2 & -> & Hchat & Hemb & Hfiles).
    destruct (IH w2) as (w' & Hrest & Hchat' & Hemb' & Hfiles').
    exists w'. split; [|split; [|split]].
    + rewrite (bind_returns _ _ _ _ _ Hrest).
      cbn [expected_questions flat_map]. by rewrite Hraw.
    + rewrite Hchat', Hchat. cbn [map]. by rewrite <- app_assoc.
    + by rewrite Hemb'.
    + intros X f Hp Hc. by rewrite Hfiles', Hfiles.
Qed.

Lemma build_questions_answered chunks w qs w' :
  build_questions chunks w = (Ok qs, w') → Forall answered chunks.
Proof.
  revert w qs w'. induction chunks as [|ch rest IH]; intros w qs w' Hrun.
  { constructor. }
  destruct (model_answer ch) as [raw|] eqn:Hraw.
  - destruct (build_questions_step ch rest raw w Hraw) as (w2 & Hstep & _).
    rewrite Hstep in Hrun.
    apply bind_Ok in Hrun as (qs' & w3 & Hrest & _).
    constructor; [by rewrite Hraw|by eapply IH].
  - exfalso. cbn [build_questions] in Hrun. rewrite print_returns in Hrun.
    apply bind_Ok in Hrun as (raw_questions & w2 & Hgen & _).
    unfold generate_questions_for_chunk, mbind, M_bind, ollama_chat in Hgen.
    unfold model_answer, chunk_prompt in Hraw. by rewrite Hraw in Hgen.
Qed.

(** The build stops at the first chunk that the model does not
    answer. *)
Lemma build_questions_fails before ch after w :
  Forall answered before → model_answer ch = None →
  ∃ w',
    build_questions (before ++ ch :: after) w = (Raise BackendError, w')
    ∧ chat_calls w' = chat_calls w ++ map request (before ++ [ch])
    ∧ embed_calls w' = embed_calls w
    ∧ ∀ X (f : world → X), ignores_prints f → ignores_calls f → f w' = f w.
Proof.
  intros Hans Hfail. revert w.
  induction Hans as [|c rest [raw Hraw] _ IH]; intros w.
  - cbn [app build_questions]. rewrite print_returns.
    unfold generate_questions_for_chunk, mbind, M_bind, ollama_chat.
    unfold model_answer, chunk_prompt in Hfail. rewrite Hfail.
    eexists. split; [done|]. split; [done|]. split; [done|].
    intros X f Hp Hc.
    destruct (Hc (printing
      (PText (lit "Generating questions for " ++ chunk_id ch ++ lit " ("
              ++ section_title ch ++ lit ")...")) w) DOC2QUERY_MODEL
      (doc2query_prompt (str_of_nat N_QUESTIONS_PER_CHUNK) (section_title ch)
         (text ch))) as [_ ->].
    apply Hp.
  - change ((c :: rest) ++ ch :: after) with (c :: (rest ++ ch :: after)).
    destruct (build_questions_step c (rest ++ ch :: after) raw w Hraw)
      as (w2 & -> & Hchat & Hemb & Hfiles).
    destruct (IH w2) as (w' & Hrest & Hchat' & Hemb' & Hfiles').
    exists w'. split; [|split; [|split]].
    + unfold mbind, M_bind. by rewrite Hrest.
    + rewrite Hchat', Hchat. cbn [map app]. by rewrite <- app_assoc.
    + by rewrite Hemb'.
    + intros X f Hp Hc. by rewrite Hfiles', Hfiles.
Qed.

(** X12. When the model answers for every chunk, [build_questions]
    sends one request per chunk, in order, and returns, chunk after
    chunk, the questions parsed from the answer that the chunk supports,
    numbered from 0 within the chunk: record [i] of a chunk has the id
    [<chunk_id>_q<i>], the id and the section title of the chunk.  The
    second strip, the test for an empty question and the second
    truncation of the loop change nothing.  No embedding is requested
    and no file is written. *)
Theorem build_questions_numbers_supported (chunks : list chunk) (w : world) :
  Forall (λ ch, is_Some (model_answer ch)) chunks →
  ∃ w',
    build_questions chunks w = (Ok (expected_questions chunks), w')
    ∧ chat_calls w' = chat_calls w ++ map (λ ch, (DOC2QUERY_MODEL, chunk_prompt ch)) chunks
    ∧ embed_calls w' = embed_calls w
    ∧ questions_file w' = questions_file w
    ∧ embeddings_file w' = embeddings_file w
    ∧ meta_file w' = meta_file w.
Proof.
  intros Hans.
  destruct (build_questions_run chunks w Hans)
    as (w' & Hrun & Hchat & Hemb & Hfiles).
  exists w'. split; [done|]. split; [done|]. split; [done|].
  repeat split; by apply Hfiles.
Qed.

End QuestionLoop.

(** *** Question ids *)

Lemma str_of_nat_no_q (n : nat) : "q"%char ∉ str_of_nat n.
Proof.
  unfold str_of_nat. generalize (Nat.to_uint n). intros d.
  induction d; simpl; [apply not_elem_of_nil|..];
    (apply not_elem_of_cons; split; [done|exact IHd]).
Qed.

Lemma split_at_last (c : ascii) (a b d1 d2 : str) :
  c ∉ d1 → c ∉ d2 → a ++ c :: d1 = b ++ c :: d2 → a = b ∧ d1 = d2.
Proof.
  intros H1 H2. revert b. induction a as [|x a IH]; intros [|y b] Heq.
  - by injection Heq as ->.
  - injection Heq as <- ->. destruct H1. apply elem_of_app. right. by left.
  - injection Heq as -> <-. destruct H2. apply elem_of_app. right. by left.
  - injection Heq as -> Heq. apply IH in Heq as [-> ->]. done.
Qed.

Lemma question_id_inj (cid1 cid2 : str) (i j : nat) :
  cid1 ++ lit "_q" ++ str_of_nat i = cid2 ++ lit "_q" ++ str_of_nat j →
  cid1 = cid2 ∧ i = j.
Proof.
  change (lit "_q") with (["_"%char] ++ ["q"%char]).
  rewrite <- !(app_assoc ["_"%char]), !(app_assoc _ ["_"%char]). simpl.
  intros Heq. apply split_at_last in Heq as [Hc Hn]; try apply str_of_nat_no_q.
  split; [by apply app_inv_tail in Hc|by apply str_of_nat_inj].
Qed.

Lemma chunk_questions_elem (q : question) (ch : chunk) (raw : str) :
  q ∈ chunk_questions ch raw →
  ∃ i, question_id q = chunk_id ch ++ lit "_q" ++ str_of_nat i
       ∧ q_chunk_id q = chunk_id ch
       ∧ q_section_title q = section_title ch
       ∧ kept_questions ch raw !! i = Some (q_question q).
Proof.
  intros Hq. apply elem_of_lookup_imap_1 in Hq as (i & x & -> & Hx).
  by exists i.
Qed.

Lemma chunk_questions_NoDup (ch : chunk) (raw : str) :
  NoDup (map question_id (chunk_questions ch raw)).
Proof.
  apply NoDup_alt. intros i j x Hi Hj.
  change (map question_id ?l) with (question_id <$> l) in Hi, Hj.
  rewrite list_lookup_fmap in Hi, Hj. unfold chunk_questions in Hi, Hj.
  rewrite list_lookup_imap in Hi, Hj.
  destruct (kept_questions ch raw !! i); [|done].
  destruct (kept_questions ch raw !! j); [|done].
  simpl in Hi, Hj. injection Hi as <-. injection Hj as Hj.
  by apply question_id_inj in Hj as [_ ->].
Qed.

Section QuestionIds.

Context `{Backend}.

Lemma expected_questions_elem (q : question) (chunks : list chunk) :
  q ∈ expected_questions chunks →
  ∃ ch i, ch ∈ chunks
    ∧ question_id q = chunk_id ch ++ lit "_q" ++ str_of_nat i
    ∧ q_chunk_id q = chunk_id ch
    ∧ q_section_title q = section_title ch.
Proof.
  unfold expected_questions. intros Hq.
  apply list_elem_of_In, in_flat_map in Hq as (ch & Hch & Hq).
  apply list_elem_of_In in Hch, Hq.
  apply chunk_questions_elem in Hq as (i & ? & ? & ? & _).
  by exists ch, i.
Qed.

Lemma expected_questions_NoDup (chunks : list chunk) :
  NoDup (map chunk_id chunks) →
  NoDup (map question_id (expected_questions chunks)).
Proof.
  induction chunks as [|ch rest IH]; [constructor|].
  cbn [map]. intros Hnd. apply NoDup_cons in Hnd as [Hch Hrest].
  cbn [expected_questions flat_map]. rewrite map_app.
  apply NoDup_app. split; [apply chunk_questions_NoDup|].
  split; [|by apply IH].
  intros id Hid Hid'.
  apply list_elem_of_In, in_map_iff in Hid as (q & <- & Hq).
  apply list_elem_of_In, in_map_iff in Hid' as (q' & Heq & Hq').
  apply list_elem_of_In, chunk_questions_elem in Hq as (i & Hqid & _).
  apply list_elem_of_In, expected_questions_elem in Hq'
    as (ch' & j & Hch' & Hqid' & _).
  rewrite Hqid, Hqid' in Heq. apply question_id_inj in Heq as [Heq _].
  apply Hch. rewrite <- Heq. apply list_elem_of_In, in_map, list_elem_of_In, Hch'.
Qed.

(** X13. Chunks with different ids get questions with different ids, and
    every question of the index carries the id and the section title of
    one of the chunks: when [build_questions] returns, the question ids
    are pairwise different as soon as the chunk ids are. *)
Theorem question_ids_unique (chunks : list chunk) (w : world)
    (questions : list question) (w' : world) :
  build_questions chunks w = (Ok questions, w') →
  Forall (λ q, ∃ ch, ch ∈ chunks ∧ q_chunk_id q = chunk_id ch
                     ∧ q_section_title q = section_title ch) questions
  ∧ (NoDup (map chunk_id chunks) → NoDup (map question_id questions)).
Proof.
  intros Hrun.
  destruct (build_questions_run chunks w (build_questions_answered _ _ _ _ Hrun))
    as (w0 & Hrun' & _).
  rewrite Hrun' in Hrun. injection Hrun as <- <-.
  split; [|apply expected_questions_NoDup].
  apply Forall_forall. intros q Hq.
  apply expected_questions_elem in Hq as (ch & i & ? & _ & ? & ?).
  by exists ch.
Qed.

End QuestionIds.

Lemma question_ids_unique_witness :
  NoDup (map question_id
           (question_records (lit "chunk_1") (lit "Attendance") 0
              [lit "How many unexcused absences may students have?";
               lit "What about absences of students?"])).
Proof.
  eapply (proj2 (@question_ids_unique Fixtures.backend [Fixtures.absences_chunk]
                   Fixtures.empty_world _ _ _)).
  repeat constructor. apply not_elem_of_nil.
  Unshelve. all: try (vm_compute; reflexivity).
Defined.

(** *** The entry point *)

Section EntryPoint.

Context `{Backend} `{Numpy}.

Local Abbreviation answered := (λ ch : chunk, is_Some (model_answer ch)).
Local Abbreviation request := (λ ch : chunk, (DOC2QUERY_MODEL, chunk_prompt ch)).
Local Abbreviation embed_request := (λ q : question, (EMBED_MODEL, q_question q)).

Lemma main_reads_chunks w chunks :
  chunks_file w = Some chunks →
  main w
  = (questions ← build_questions chunks;
     save_questions questions;;
     emb_matrix ← build_embeddings questions;
     save_embeddings emb_matrix) (printing (PLoaded (length chunks)) w).
Proof.
  intros Hc. unfold main. unfold mbind at 1, M_bind at 1, read_file.
  by rewrite Hc.
Qed.

(** X14. When the generation model fails on a chunk, [main] stops with
    the backend error before it writes anything: [questions.jsonl],
    [embeddings.npy] and [meta.json] are as they were, the chunks after
    the failing one are not sent to the model, and no embedding is
    requested. *)
Theorem failed_generation_leaves_index (w : world) (before after : list chunk)
    (ch : chunk) :
  chunks_file w = Some (before ++ ch :: after) →
  Forall (λ c, is_Some (model_answer c)) before →
  model_answer ch = None →
  ∃ w',
    main w = (Raise BackendError, w')
    ∧ questions_file w' = questions_file w
    ∧ embeddings_file w' = embeddings_file w
    ∧ meta_file w' = meta_file w
    ∧ chat_calls w'
      = chat_calls w ++ map (λ c, (DOC2QUERY_MODEL, chunk_prompt c)) (before ++ [ch])
    ∧ embed_calls w' = embed_calls w.
Proof.
  intros Hchunks Hans Hfail.
  destruct (build_questions_fails before ch after
              (printing (PLoaded (length (before ++ ch :: after))) w) Hans Hfail)
    as (w' & Hrun & Hchat & Hemb & Hfiles).
  exists w'. split.
  { rewrite (main_reads_chunks _ _ Hchunks). unfold mbind at 1, M_bind at 1.
    by rewrite Hrun. }
  split; [by rewrite (Hfiles _ questions_file)|].
  split; [by rewrite (Hfiles _ embeddings_file)|].
  split; [by rewrite (Hfiles _ meta_file)|].
  done.
Qed.

Lemma embed_loop_run i n questions vectors w :
  Forall2 (λ q v, question_vector q = Some v) questions vectors →
  ∃ w',
    embed_loop i n questions w = (Ok vectors, w')
    ∧ embed_calls w' = embed_calls w ++ map embed_request questions
    ∧ chat_calls w' = chat_calls w
    ∧ ∀ X (f : world → X), ignores_prints f → ignores_calls f → f w' = f w.
Proof.
  intros Hvec. revert i w.
  induction Hvec as [|q v questions vectors Hv _ IH]; intros i w.
  - exists w. split; [done|]. split; [by rewrite app_nil_r|done].
  - cbn [embed_loop]. rewrite print_returns. set (w1 := printing _ w).
    assert (embed_text (q_question q) w1
            = (Ok v, embed_called EMBED_MODEL (q_question q) w1)) as Hemb.
    { unfold embed_text, ollama_embed. unfold question_vector in Hv.
      by rewrite Hv. }
    rewrite (bind_returns _ _ _ _ _ Hemb).
    destruct (IH (S i) (embed_called EMBED_MODEL (q_question q) w1))
      as (w' & Hrest & Hcalls & Hchat & Hfiles).
    exists w'. rewrite (bind_returns _ _ _ _ _ Hrest).
    split; [done|]. split; [|split; [done|]].
    + rewrite Hcalls. cbn [map]. simpl. by rewrite <- app_assoc.
    + intros X f Hp Hc. rewrite Hfiles by done.
      destruct (Hc w1 EMBED_MODEL (q_question q)) as [-> _]. apply Hp.
Qed.

Lemma np_array_uniform (d : nat) (vectors : list (list Q)) :
  Forall (λ v, length v = d) vectors → np_array vectors = Ok (matrix_of d vectors).
Proof.
  intros Hd. destruct vectors as [|v vectors]; [done|]. unfold np_array.
  assert (forallb (λ u, length u =? length v) (v :: vectors) = true) as ->.
  { apply forallb_forall. intros u Hu. apply Nat.eqb_eq.
    apply list_elem_of_In in Hu. rewrite Forall_forall in Hd.
    rewrite (Hd u Hu). symmetry. apply Hd. by left. }
  simpl. do 2 f_equal. rewrite Forall_forall in Hd. apply Hd. by left.
Qed.

(** The run of [main] when both models answer. *)
Lemma main_run (w : world) (chunks : list chunk) (vectors : list (list Q)) (d : nat) :
  chunks_file w = Some chunks →
  Forall answered chunks →
  Forall2 (λ q v, question_vector q = Some v) (expected_questions chunks) vectors →
  Forall (λ v, length v = d) vectors →
  ∃ w',
    main w = (Ok (), w')
    ∧ questions_file w' = Some (expected_questions chunks)
    ∧ embeddings_file w' = Some (matrix_of d vectors)
    ∧ meta_file w'
      = Some (Meta EMBED_MODEL (match vectors with [] => 0 | _ :: _ => d end) false)
    ∧ chat_calls w' = chat_calls w ++ map request chunks
    ∧ embed_calls w' = embed_calls w ++ map embed_request (expected_questions chunks)
    ∧ chunks_file w' = Some chunks
    ∧ gold_file w' = gold_file w
    ∧ results_file w' = results_file w.
Proof.
  intros Hchunks Hans Hvec Hd.
  rewrite (main_reads_chunks _ _ Hchunks). set (w0 := printing _ w).
  destruct (build_questions_run chunks w0 Hans)
    as (w1 & Hrun & Hchat1 & Hemb1 & Hfiles1).
  rewrite (bind_returns _ _ _ _ _ Hrun).
  set (questions := expected_questions chunks) in *.
  set (w2 := printing (PWroteQuestions (length questions))
               (questions_written questions w1)).
  rewrite (bind_returns (save_questions questions) _ w1 () w2 eq_refl).
  destruct (embed_loop_run 0 (length questions) questions vectors w2 Hvec)
    as (w3 & Hloop & Hemb3 & Hchat3 & Hfiles3).
  assert (build_embeddings questions w2 = (Ok (matrix_of d vectors), w3)) as Hbuild.
  { unfold build_embeddings. rewrite (bind_returns _ _ _ _ _ Hloop).
    unfold lift, mbind, M_bind. by rewrite (np_array_uniform d vectors Hd). }
  rewrite (bind_returns _ _ _ _ _ Hbuild).
  cbv [save_embeddings mbind M_bind write_embeddings write_meta print].
  eexists. split; [reflexivity|]. cbn.
  pose proof (λ X f Hp Hc, eq_trans (Hfiles3 X f Hp Hc) (Hp _ _)) as Hfiles.
  cbn in Hfiles.
  split; [by rewrite (Hfiles _ questions_file)|].
  split; [done|]. split; [by destruct vectors|].
  split; [by rewrite Hchat3; etrans; [exact Hchat1|]|].
  split; [by rewrite Hemb3; f_equal; etrans; [exact Hemb1|]|].
  split; [rewrite (Hfiles _ chunks_file) by done; cbn;
          by rewrite (Hfiles1 _ chunks_file)|].
  split; [rewrite (Hfiles _ gold_file) by done; cbn;
          by rewrite (Hfiles1 _ gold_file)|].
  rewrite (Hfiles _ results_file) by done; cbn.
  by rewrite (Hfiles1 _ results_file).
Qed.

(** X15. When the generation model answers for every chunk and the
    embedding model returns a vector of the same length for every
    question, [main] ends normally and leaves a consistent index:
    [questions.jsonl] holds the questions, [embeddings.npy] the matrix
    whose row [i] is the embedding of question [i], [meta.json] the
    model name, the length of the vectors (0 when there is no question)
    and [normalized = false]; the embedding model has received the
    questions one by one, in order. *)
Theorem built_index_matches_questions (w : world) (chunks : list chunk)
    (vectors : list (list Q)) (d : nat) :
  chunks_file w = Some chunks →
  Forall (λ ch, is_Some (model_answer ch)) chunks →
  Forall2 (λ q v, question_vector q = Some v) (expected_questions chunks) vectors →
  Forall (λ v, length v = d) vectors →
  ∃ w',
    main w = (Ok (), w')
    ∧ questions_file w' = Some (expected_questions chunks)
    ∧ embeddings_file w' = Some (matrix_of d vectors)
    ∧ meta_file w'
      = Some (Meta EMBED_MODEL (match vectors with [] => 0 | _ :: _ => d end) false)
    ∧ index_consistent w'
    ∧ embed_calls w'
      = embed_calls w
        ++ map (λ q, (EMBED_MODEL, q_question q)) (expected_questions chunks).
Proof.
  intros Hchunks Hans Hvec Hd.
  destruct (main_run w chunks vectors d Hchunks Hans Hvec Hd)
    as (w' & Hmain & Hq & He & Hm & _ & Hcalls & _).
  exists w'. repeat (split; [done|]). split; [|done].
  unfold index_consistent. rewrite Hq, He.
  apply Forall2_length in Hvec.
  destruct vectors; simpl in *; [by apply nil_length_inv|done].
Qed.

(** X16. An index built from chunks that give no question cannot be
    evaluated: [main] ends normally and saves an array of shape (0,),
    and the evaluator run on that index stops at its first gold case
    with the axis error of the norm along axis 1, before it writes the
    results. *)
Theorem empty_index_fails_evaluation (w : world) (chunks : list chunk)
    (g : gold_case) (gold : list gold_case) :
  chunks_file w = Some chunks →
  Forall (λ ch, is_Some (model_answer ch)) chunks →
  expected_questions chunks = [] →
  gold_file w = Some (g :: gold) →
  is_Some (embeddings_api Ask.EMBED_MODEL (g_question g)) →
  ∃ w1 w2,
    main w = (Ok (), w1)
    ∧ embeddings_file w1 = Some Arr1D_empty
    ∧ Score.main w1 = (Raise AxisError, w2)
    ∧ results_file w2 = results_file w.
Proof.
  intros Hchunks Hans Hnone Hgold [q_vec Hq].
  destruct (main_run w chunks [] 0 Hchunks Hans) as
    (w1 & Hmain & Hqs & He & _ & _ & _ & Hc & Hg & Hr);
    [by rewrite Hnone|done|].
  exists w1. rewrite <- Hg in Hgold. change (matrix_of 0 []) with Arr1D_empty in He.
  pose proof (AskFacts.retrieve_one_dimensional (g_question g) q_vec
                (expected_questions chunks) (Ask.index_chunks chunks) w1 Hq) as Hret.
  eexists. split; [done|]. split; [done|]. split.
  - unfold Score.main, Score.load_gold.
    rewrite (bind_returns _ _ w1 (g :: gold) w1)
      by (unfold read_file; by rewrite Hgold).
    rewrite (bind_returns _ _ _ _ _ (load_index_reads _ _ _ _ He Hqs Hc)).
    unfold mbind at 1, M_bind at 1. cbn [Score.eval_loop].
    unfold mbind at 1, M_bind at 1. rewrite Hret. reflexivity.
  - by rewrite <- Hr.
Qed.

End EntryPoint.

Lemma build_questions_numbers_supported_witness :
  ∃ w',
    @build_questions Fixtures.backend [Fixtures.absences_chunk] Fixtures.empty_world
    = (Ok (question_records (lit "chunk_1") (lit "Attendance") 0
             [lit "How many unexcused absences may students have?";
              lit "What about absences of students?"]), w')
    ∧ length (chat_calls w') = 1.
Proof.
  destruct (@build_questions_numbers_supported Fixtures.backend
              [Fixtures.absences_chunk] Fixtures.empty_world)
    as (w' & Hrun & Hchat & _).
  - repeat constructor. by eexists.
  - exists w'. split; [exact Hrun|]. by rewrite Hchat.
Defined.

Lemma failed_generation_leaves_index_witness :
  ∃ w',
    @main BuildFixtures.mute_backend Fixtures.numpy Fixtures.served_world
    = (Raise BackendError, w')
    ∧ questions_file w' = Some [Fixtures.other_question]
    ∧ embeddings_file w' = Some Fixtures.other_matrix.
Proof.
  destruct (@failed_generation_leaves_index BuildFixtures.mute_backend
              Fixtures.numpy Fixtures.served_world [] [] Fixtures.absences_chunk)
    as (w' & Hmain & Hq & He & _).
  - reflexivity.
  - constructor.
  - reflexivity.
  - exists w'. split; [exact Hmain|]. split; [exact Hq|exact He].
Defined.

Lemma built_index_matches_questions_witness :
  ∃ w',
    @main Fixtures.backend Fixtures.numpy Fixtures.served_world = (Ok (), w')
    ∧ embeddings_file w' = Some (Arr2D 2 [[1; 0]; [0; 1]]%Q)
    ∧ index_consistent w'.
Proof.
  destruct (@built_index_matches_questions Fixtures.backend Fixtures.numpy
              Fixtures.served_world [Fixtures.absences_chunk]
              [[1; 0]; [0; 1]]%Q 2)
    as (w' & Hmain & _ & He & _ & Hcons & _).
  - reflexivity.
  - repeat constructor. by eexists.
  - vm_compute. repeat constructor.
  - repeat constructor.
  - exists w'. split; [exact Hmain|]. split; [exact He|exact Hcons].
Defined.

Lemma empty_index_fails_evaluation_witness :
  ∃ w1 w2,
    @main Fixtures.backend Fixtures.numpy BuildFixtures.bare_world = (Ok (), w1)
    ∧ embeddings_file w1 = Some Arr1D_empty
    ∧ @Score.main Fixtures.backend Fixtures.numpy w1 = (Raise AxisError, w2)
    ∧ results_file w2 = None.
Proof.
  eapply (@empty_index_fails_evaluation Fixtures.backend Fixtures.numpy
            BuildFixtures.bare_world []).
  - reflexivity.
  - constructor.
  - reflexivity.
  - reflexivity.
  - by eexists.
Defined.

End IndexMainFacts.

(** ** A retrieval and the answer shown *)

Module RetrievalFacts.

Import Ask AskSpec Score RetrievalSpec StoreSpec.
Import StoreFacts AskFacts ScoreFacts.

Section WithBackend.

Context `{Backend} `{Numpy}.

(** What a retrieval that returns has gone through. *)
Lemma retrieve_Ok_inv user_q emb_matrix questions chunks_by_id w max_sim ctx w' :
  retrieve_chunks_for_query user_q emb_matrix questions chunks_by_id w
  = (Ok (max_sim, ctx), w') →
  ∃ q_vec sims,
    embeddings_api EMBED_MODEL user_q = Some q_vec
    ∧ cosine_sim_matrix q_vec emb_matrix = Ok sims
    ∧ match top_k sims with
      | i0 :: _ => sims !! i0 = Some max_sim
      | [] => max_sim = 0%Q
      end
    ∧ collect_chunks (top_k sims) questions chunks_by_id ∅ [] = Ok ctx.
Proof.
  unfold retrieve_chunks_for_query, mbind, M_bind, ollama_embed, lift.
  destruct (embeddings_api EMBED_MODEL user_q) as [q_vec|]; [|done].
  destruct (cosine_sim_matrix q_vec emb_matrix) as [sims|] eqn:Hsims; [|done].
  intros Hrun. exists q_vec, sims. split; [done|]. split; [done|].
  destruct (top_k sims) as [|i0 rest].
  - simpl in Hrun. by injection Hrun as <- <- <-.
  - destruct (sims !! i0) as [s|]; [|done].
    destruct (collect_chunks (i0 :: rest) _ _ _ _); [|done].
    by injection Hrun as <- <- <-.
Qed.

(** The invariant of the loop over the selected rows. *)
Lemma collect_chunks_inv top_indices questions chunks_by_id seen ctx res :
  collect_chunks top_indices questions chunks_by_id seen ctx = Ok res →
  ∃ ids new,
    res = ctx ++ new
    ∧ sublist ids (top_chunk_ids top_indices questions)
    ∧ NoDup ids
    ∧ (∀ id, id ∈ ids → id ∉ seen)
    ∧ Forall2 (λ id ch, chunks_by_id !! id = Some ch) ids new
    ∧ (length ctx < MAX_CHUNKS → length res ≤ MAX_CHUNKS).
Proof.
  revert seen ctx. induction top_indices as [|idx rest IH]; intros seen ctx.
  { intros [= <-]. exists [], []. rewrite app_nil_r.
    split; [done|]. split; [done|]. split; [constructor|].
    split; [by intros id Hid%elem_of_nil|]. split; [constructor|lia]. }
  cbn [collect_chunks]. unfold top_chunk_ids. cbn [omap list_omap].
  destruct (questions !! idx) as [q_rec|]; [|done]. cbn [fmap option_fmap option_map].
  fold (top_chunk_ids rest questions).
  case_bool_decide as Hseen.
  { intros Hrun. apply IH in Hrun as (ids & new & ? & ? & ? & ? & ? & ?).
    exists ids, new. split; [done|]. split; [by apply sublist_cons|done]. }
  set (cid := q_chunk_id q_rec) in *.
  destruct (chunks_by_id !! cid) as [chunk|] eqn:Hchunk.
  - destruct (MAX_CHUNKS <=? length (ctx ++ [chunk])) eqn:Hfull.
    + intros [= <-]. exists [cid], [chunk].
      split; [done|]. split; [apply sublist_skip, sublist_nil_l|].
      split; [apply NoDup_singleton|].
      split; [by intros id ->%list_elem_of_singleton|].
      split; [by repeat constructor|].
      rewrite length_app. simpl. lia.
    + apply Nat.leb_gt in Hfull.
      intros Hrun. apply IH in Hrun as (ids & new & -> & Hsub & Hnd & Hout & Hall & Hlen).
      exists (cid :: ids), (chunk :: new).
      split; [by rewrite <- app_assoc|].
      split; [by apply sublist_skip|].
      split; [apply NoDup_cons; split; [|done]; intros Hin; apply Hout in Hin; set_solver|].
      split; [intros id [->|Hin]%elem_of_cons; [done|]; apply Hout in Hin; set_solver|].
      split; [by constructor|]. intros _. by apply Hlen.
  - destruct (MAX_CHUNKS <=? length ctx) eqn:Hfull.
    + intros [= <-]. exists [], []. rewrite app_nil_r.
      split; [done|]. split; [apply sublist_nil_l|].
      split; [constructor|]. split; [by intros id Hid%elem_of_nil|].
      split; [constructor|lia].
    + intros Hrun. apply IH in Hrun as (ids & new & -> & Hsub & Hnd & Hout & Hall & Hlen).
      exists ids, new. split; [done|]. split; [by apply sublist_cons|].
      split; [done|].
      split; [intros id Hin; apply Hout in Hin; set_solver|done].
Qed.

(** X17. The context of a retrieval holds at most [MAX_CHUNKS] chunks;
    they are the chunks stored under pairwise different chunk ids, and
    these ids are ids of the questions at the selected rows, in the
    order of the selection. *)
Theorem context_chunks_distinct_bounded (user_q : str) (emb_matrix : ndarray)
    (questions : list question) (chunks_by_id : gmap str chunk) (w : world)
    (max_sim : Q) (context_chunks : list chunk) (w' : world) :
  retrieve_chunks_for_query user_q emb_matrix questions chunks_by_id w
  = (Ok (max_sim, context_chunks), w') →
  length context_chunks ≤ MAX_CHUNKS
  ∧ ∃ q_vec sims ids,
      embeddings_api EMBED_MODEL user_q = Some q_vec
      ∧ cosine_sim_matrix q_vec emb_matrix = Ok sims
      ∧ sublist ids (top_chunk_ids (top_k sims) questions)
      ∧ NoDup ids
      ∧ Forall2 (λ id ch, chunks_by_id !! id = Some ch) ids context_chunks.
Proof.
  intros Hrun.
  apply retrieve_Ok_inv in Hrun as (q_vec & sims & Hvec & Hsims & _ & Hctx).
  apply collect_chunks_inv in Hctx as (ids & new & -> & Hsub & Hnd & _ & Hall & Hlen).
  split; [apply Hlen; simpl; unfold MAX_CHUNKS; lia|].
  by exists q_vec, sims, ids.
Qed.

(** When [np.argsort] returns the indices of its argument, each once,
    a row is selected as soon as there is one, and the first selected
    row is a row of the matrix. *)
Lemma top_k_first_row (sims : list Q) :
  (∀ keys, argsort keys ≡ₚ seq 0 (length keys)) →
  match top_k sims with
  | [] => sims = []
  | i0 :: _ => i0 < length sims
  end.
Proof.
  intros Hperm. unfold top_k. specialize (Hperm (map Qopp sims)).
  rewrite length_map in Hperm.
  destruct (argsort (map Qopp sims)) as [|i0 rest].
  - apply Permutation_length in Hperm. rewrite length_seq in Hperm.
    apply nil_length_inv. simpl in Hperm. lia.
  - change (take TOP_K_QUESTIONS (i0 :: rest)) with (i0 :: take 4 rest). cbv iota.
    assert (i0 ∈ seq 0 (length sims)) as Hin by (rewrite <- Hperm; by left).
    apply list_elem_of_In, in_seq in Hin. simpl in Hin. lia.
Qed.

Section Sorted.

(** The contract of [np.argsort]. *)
Hypothesis argsort_contract : ∀ keys, argsort_ok keys (argsort keys).

(** The first selected row is a row of highest similarity. *)
Lemma top_k_head (sims : list Q) :
  match top_k sims with
  | [] => sims = []
  | i0 :: _ =>
      i0 < length sims
      ∧ ∀ j, j < length sims → (key_at sims j <= key_at sims i0)%Q
  end.
Proof.
  unfold top_k. set (keys := map Qopp sims).
  assert (length keys = length sims) as Hlen by apply length_map.
  destruct (argsort_contract keys) as [Hperm Hsorted].
  destruct (argsort keys) as [|i0 rest] eqn:Hsort.
  - apply Permutation_length in Hperm. rewrite length_seq in Hperm.
    apply nil_length_inv. simpl in Hperm. lia.
  - change (take TOP_K_QUESTIONS (i0 :: rest)) with (i0 :: take 4 rest).
    assert (∀ j, j ∈ i0 :: rest ↔ j < length sims) as Hin.
    { intros j. rewrite Hperm, list_elem_of_In, in_seq. lia. }
    split; [apply Hin; by left|].
    intros j Hj. apply Qopp_le_inv.
    rewrite <- !key_at_opp by (done || (apply Hin; by left)).
    apply Hin, elem_of_cons in Hj as [->|Hj]; [apply Qle_refl|].
    apply StronglySorted_inv in Hsorted as [_ Hall].
    rewrite Forall_forall in Hall. by apply Hall.
Qed.

(** X19. A matrix with rows and a list of questions without any record
    do not go together: when [np.argsort] meets its contract, every
    retrieval whose query is embedded with the length of the rows stops
    with an index error, after the embedding request. *)
Theorem rows_without_questions_raise (user_q : str) (q_vec : list Q)
    (ncols : nat) (rows : list (list Q)) (chunks_by_id : gmap str chunk)
    (w : world) :
  embeddings_api EMBED_MODEL user_q = Some q_vec →
  length q_vec = ncols →
  rows ≠ [] →
  retrieve_chunks_for_query user_q (Arr2D ncols rows) [] chunks_by_id w
  = (Raise IndexError, embed_called EMBED_MODEL user_q w).
Proof.
  intros Hvec Hlen Hrows.
  unfold retrieve_chunks_for_query, mbind, M_bind, ollama_embed, lift.
  rewrite Hvec.
  destruct (cosine_sim_matrix q_vec (Arr2D ncols rows)) as [sims|e] eqn:Hsims.
  2:{ unfold cosine_sim_matrix in Hsims.
      by rewrite (proj2 (Nat.eqb_eq _ _) Hlen) in Hsims. }
  assert (length sims = length rows) as Hn.
  { unfold cosine_sim_matrix in Hsims. destruct (_ =? _); [|done].
    injection Hsims as <-. rewrite length_map, length_zip, length_map. lia. }
  pose proof (top_k_head sims) as Hhead.
  destruct (top_k sims) as [|i0 rest].
  - subst sims. destruct rows; [done|]. simpl in Hn. lia.
  - destruct Hhead as [Hi0 _].
    destruct (lookup_lt_is_Some_2 sims i0 Hi0) as [s ->]. done.
Qed.

End Sorted.

Lemma print_line {B} p (k : M B) w : (print p ;; k) w = k (printing p w).
Proof. done. Qed.

Lemma print_sources_run context_chunks w :
  ∃ w',
    print_sources context_chunks w = (Ok (), w')
    ∧ stdout w' = stdout w ++ citations context_chunks
    ∧ chat_calls w' = chat_calls w
    ∧ embed_calls w' = embed_calls w.
Proof.
  revert w. induction context_chunks as [|ch rest IH]; intros w.
  - exists w. by rewrite app_nil_r.
  - cbn [print_sources citations map].
    destruct (is_empty (url ch)); rewrite print_line;
      match goal with
      | |- ∃ _, print_sources rest ?w1 = _ ∧ _ =>
          destruct (IH w1) as (w' & -> & Hout & Hchat & Hemb)
      end;
      exists w'; (split; [done|]); rewrite Hout, Hchat, Hemb; simpl;
      by rewrite <- app_assoc.
Qed.

(** X20. [safe_generate_answer] reproduces [answer_query]: after the
    same retrieval, when it returns a text, [answer_query] ends normally
    with the same requests sent to the two models and has printed that
    text, followed by an empty line behind the closed gate, and by the
    sources and an empty line else; when it raises, [answer_query]
    raises the same error in the same world. *)
Theorem safe_generate_reproduces_answer_query (user_q : str)
    (emb_matrix : ndarray) (questions : list question)
    (chunks_by_id : gmap str chunk) (w : world) (max_sim : Q)
    (context_chunks : list chunk) (w1 : world) :
  retrieve_chunks_for_query user_q emb_matrix questions chunks_by_id w
  = (Ok (max_sim, context_chunks), w1) →
  match safe_generate_answer user_q max_sim context_chunks w1 with
  | (Ok answer_text, w2) =>
      ∃ w3,
        answer_query user_q emb_matrix questions chunks_by_id w = (Ok (), w3)
        ∧ stdout w3
          = stdout w
            ++ shown_answer (closed_gate max_sim context_chunks) answer_text
                 context_chunks
        ∧ chat_calls w3 = chat_calls w2
        ∧ embed_calls w3 = embed_calls w2
  | (Raise e, w2) =>
      answer_query user_q emb_matrix questions chunks_by_id w = (Raise e, w2)
  end.
Proof.
  intros Hret.
  pose proof (retrieve_world user_q emb_matrix questions chunks_by_id w) as Hw1.
  rewrite Hret in Hw1. simpl in Hw1.
  unfold answer_query. rewrite (bind_returns _ _ _ _ _ Hret).
  unfold safe_generate_answer, closed_gate.
  destruct (Qltb max_sim MIN_SIMILARITY || bool_decide (context_chunks = []))
    eqn:Hgate.
  { eexists. split; [reflexivity|]. by rewrite Hw1. }
  destruct context_chunks as [|ch rest].
  { by rewrite orb_true_r in Hgate. }
  unfold mbind, M_bind, lift, build_context_prompt, ollama_chat.
  destruct (chat_api GENERATOR_MODEL (context_prompt (text ch) user_q))
    as [answer|]; [|done].
  change (print ?p ?w) with (Ok (), printing p w). cbv beta iota.
  destruct (print_sources_run (ch :: rest)
              (printing (PText (LF :: lit "Sources:"))
                 (printing (PText (strip answer))
                    (chat_called GENERATOR_MODEL
                       (context_prompt (text ch) user_q) w1))))
    as (w3 & -> & Hout & Hchat & Hemb).
  eexists. split; [reflexivity|]. simpl.
  rewrite Hout, Hchat, Hemb, Hw1. simpl.
  split; [|done]. by rewrite <- !app_assoc.
Qed.

End WithBackend.

Lemma safe_generate_reproduces_answer_query_witness :
  let user_q := lit "how many absences can I miss" in
  ∃ w3,
    @answer_query Fixtures.eval_backend Fixtures.numpy user_q
      (Arr2D 2 [[1; 0]; [0; 1]]%Q)
      [Question (lit "chunk_1_q0") (lit "chunk_1") (lit "Attendance")
         (lit "How many unexcused absences may students have?")]
      (index_chunks [Fixtures.absences_chunk]) Fixtures.empty_world
    = (Ok (), w3)
    ∧ stdout w3
      = [PText (lit "Up to 2 unexcused absences.");
         PText (LF :: lit "Sources:");
         PCitation (lit "Attendance") None;
         PText []].
Proof.
  intros user_q.
  eassert (@retrieve_chunks_for_query Fixtures.eval_backend Fixtures.numpy user_q
             (Arr2D 2 [[1; 0]; [0; 1]]%Q)
             [Question (lit "chunk_1_q0") (lit "chunk_1") (lit "Attendance")
                (lit "How many unexcused absences may students have?")]
             (index_chunks [Fixtures.absences_chunk]) Fixtures.empty_world
           = (Ok (_, _), _)) as Hret by (vm_compute; reflexivity).
  pose proof (safe_generate_reproduces_answer_query _ _ _ _ _ _ _ _ Hret) as Hsame.
  match type of Hsame with
  | match ?gen with _ => _ end => set (run := gen) in Hsame
  end.
  vm_compute in run. subst run. cbv beta iota in Hsame.
  destruct Hsame as (w3 & Hrun & Hout & _).
  exists w3. split; [exact Hrun|]. rewrite Hout. vm_compute. reflexivity.
Defined.

Lemma context_chunks_distinct_bounded_witness :
  let user_q := lit "how many absences can I miss" in
  ∃ max_sim context_chunks w',
    @retrieve_chunks_for_query Fixtures.eval_backend Fixtures.numpy user_q
      (Arr2D 2 [[1; 0]; [0; 1]]%Q)
      [Question (lit "chunk_1_q0") (lit "chunk_1") (lit "Attendance")
         (lit "How many unexcused absences may students have?");
       Question (lit "chunk_2_q0") (lit "chunk_2") (lit "Dress Code")
         (lit "What do students wear on campus?")]
      (index_chunks [Fixtures.absences_chunk; Fixtures.dress_chunk])
      Fixtures.empty_world
    = (Ok (max_sim, context_chunks), w')
    ∧ length context_chunks ≤ MAX_CHUNKS.
Proof.
  intros user_q.
  match goal with
  | |- ∃ _ _ _, ?run = _ ∧ _ =>
      destruct run as [[[best found]|e] w1] eqn:Hrun
  end.
  - exists best, found, w1. split; [reflexivity|].
    exact (proj1 (context_chunks_distinct_bounded _ _ _ _ _ _ _ _ Hrun)).
  - vm_compute in Hrun. discriminate.
Defined.

Lemma rows_without_questions_raise_witness :
  let user_q := lit "how many absences can I miss" in
  @retrieve_chunks_for_query Fixtures.backend Fixtures.numpy user_q
    Fixtures.other_matrix [] ∅ Fixtures.empty_world
  = (Raise IndexError, embed_called EMBED_MODEL user_q Fixtures.empty_world).
Proof.
  intros user_q.
  apply (@rows_without_questions_raise Fixtures.backend Fixtures.numpy
           fixture_argsort_ok user_q [1; 0]%Q 2 [[0; 1]%Q]).
  - reflexivity.
  - reflexivity.
  - discriminate.
Defined.

End RetrievalFacts.

(** ** The requests and the files of an evaluation *)

Module EvaluationFacts.

Import Ask AskSpec Score ScoreSpec StoreSpec.
Import StoreFacts AskFacts ScoreFacts.

Section WithBackend.

Context `{Backend} `{Numpy}.

Lemma retrieve_preserves {X} (f : world → X) user_q emb_matrix questions chunks_by_id :
  ignores_calls f →
  preserves f (retrieve_chunks_for_query user_q emb_matrix questions chunks_by_id).
Proof.
  intros Hf w. rewrite retrieve_world. apply Hf.
Qed.

(** The loop over the gold cases prints nothing and writes no file. *)
Lemma eval_loop_preserves {X} (f : world → X) emb_matrix questions chunks_by_id gold
    total_normals total_hits out_rows :
  ignores_calls f →
  preserves f (eval_loop gold emb_matrix questions chunks_by_id total_normals
                 total_hits out_rows).
Proof.
  intros Hf. revert total_normals total_hits out_rows.
  induction gold as [|row rest IH]; intros n h rows; cbn [eval_loop].
  - apply preserves_ret.
  - apply preserves_bind; [by apply retrieve_preserves|].
    intros [max_sim ctx]. destruct (_ && _).
    + apply preserves_bind; [by apply safe_generate_preserves|]. intros ?. apply IH.
    + apply preserves_bind; [by apply safe_generate_preserves|]. intros ?. apply IH.
Qed.

(** The requests of a generation step: none, or one to the generator. *)
Lemma safe_generate_calls user_q max_sim ctx w :
  embed_calls (safe_generate_answer user_q max_sim ctx w).2 = embed_calls w
  ∧ ∃ prompts,
      chat_calls (safe_generate_answer user_q max_sim ctx w).2
      = chat_calls w ++ map (pair GENERATOR_MODEL) prompts
      ∧ length prompts ≤ 1.
Proof.
  unfold safe_generate_answer.
  destruct (_ || _).
  { split; [done|]. exists []. simpl. split; [by rewrite app_nil_r|lia]. }
  destruct ctx as [|ch rest].
  { split; [done|]. exists []. simpl. split; [by rewrite app_nil_r|lia]. }
  unfold mbind, M_bind, lift, build_context_prompt, ollama_chat.
  destruct (chat_api _ _); (split; [done|]); by eexists [_].
Qed.

Lemma eval_loop_calls emb_matrix questions chunks_by_id gold total_normals total_hits
    out_rows w res w' :
  eval_loop gold emb_matrix questions chunks_by_id total_normals total_hits
    out_rows w
  = (Ok res, w') →
  embed_calls w' = embed_calls w ++ map (λ g, (EMBED_MODEL, g_question g)) gold
  ∧ ∃ prompts,
      chat_calls w' = chat_calls w ++ map (pair GENERATOR_MODEL) prompts
      ∧ length prompts ≤ length gold.
Proof.
  revert total_normals total_hits out_rows w.
  induction gold as [|row rest IH]; intros n h rows w; cbn [eval_loop].
  { intros [= _ <-]. split; [by rewrite app_nil_r|].
    exists []. simpl. split; [by rewrite app_nil_r|lia]. }
  intros Hrun. apply bind_Ok in Hrun as ([max_sim ctx] & w1 & Hret & Hrun).
  pose proof (retrieve_world (g_question row) emb_matrix questions chunks_by_id w)
    as Hw1.
  rewrite Hret in Hw1. simpl in Hw1.
  assert (∃ n' h' hit1 answer_text w2,
            safe_generate_answer (g_question row) max_sim ctx w1
            = (Ok answer_text, w2)
            ∧ eval_loop rest emb_matrix questions chunks_by_id n' h'
                (rows ++ [ResultRow (g_qid row) (g_question row) (g_type row)
                            (if is_empty (g_gold_chunk row) then []
                             else strip (g_gold_chunk row))
                            (top1_chunk_id ctx) hit1 answer_text (g_notes row)]) w2
              = (Ok res, w')) as (n' & h' & hit1 & answer_text & w2 & Hgen & Hrest).
  { destruct (_ && _);
      apply bind_Ok in Hrun as (answer_text & w2 & Hgen & Hrest);
      by eexists _, _, _, answer_text, w2. }
  clear Hrun. apply IH in Hrest as (Hemb & prompts & Hchat & Hlen).
  destruct (safe_generate_calls (g_question row) max_sim ctx w1)
    as (Hemb2 & asked & Hchat2 & Hone).
  rewrite Hgen in Hemb2, Hchat2. simpl in Hemb2, Hchat2.
  split.
  - rewrite Hemb, Hemb2, Hw1. cbn [map]. simpl. by rewrite <- app_assoc.
  - exists (asked ++ prompts). split.
    + rewrite Hchat, Hchat2, Hw1, map_app. simpl. by rewrite <- app_assoc.
    + rewrite length_app. simpl. lia.
Qed.

(** X21. An evaluation that stops with an error has written no result
    and printed nothing: [results.csv] is written only after every gold
    case has been answered. *)
Theorem failed_evaluation_writes_nothing (w : world) (e : error) (w' : world) :
  main w = (Raise e, w') →
  results_file w' = results_file w ∧ stdout w' = stdout w.
Proof.
  unfold main, load_gold, load_index. intros Hrun.
  apply bind_Raise in Hrun as [Hgold|(gold & w1 & Hgold & Hrun)].
  { unfold read_file in Hgold. destruct (gold_file w); by injection Hgold as _ <-. }
  assert (w1 = w) as ->.
  { unfold read_file in Hgold. destruct (gold_file w); by injection Hgold as _ <-. }
  apply bind_Raise in Hrun as [Hindex|([[emb qs] cbi] & w2 & Hindex & Hrun)].
  { unfold mbind, M_bind, read_file in Hindex.
    destruct (embeddings_file w); [|by injection Hindex as _ <-].
    destruct (questions_file w); [|by injection Hindex as _ <-].
    destruct (chunks_file w); by injection Hindex as _ <-. }
  assert (w2 = w) as ->.
  { unfold mbind, M_bind, read_file in Hindex.
    destruct (embeddings_file w); [|done].
    destruct (questions_file w); [|done].
    destruct (chunks_file w); [|done]. by injection Hindex as _ _ _ <-. }
  apply bind_Raise in Hrun as [Hloop|([[n h] rows] & w3 & _ & Hrun)].
  - pose proof (eval_loop_preserves results_file emb qs cbi gold 0 0 []
                  ltac:(done) w) as Hres.
    pose proof (eval_loop_preserves stdout emb qs cbi gold 0 0 []
                  ltac:(done) w) as Hout.
    rewrite Hloop in Hres, Hout. done.
  - exfalso. revert Hrun. unfold mbind, M_bind, write_results, print.
    by destruct (0 <? n).
Qed.

(** X22. An evaluation that runs to its end has sent one embedding
    request per gold case, with the question of the case, in the order
    of the gold file, and at most one generation request per case, each
    to the generator model. *)
Theorem evaluation_embeds_each_case_once (w : world) (gold : list gold_case)
    (w' : world) :
  gold_file w = Some gold →
  main w = (Ok (), w') →
  embed_calls w' = embed_calls w ++ map (λ g, (EMBED_MODEL, g_question g)) gold
  ∧ ∃ prompts,
      chat_calls w' = chat_calls w ++ map (pair GENERATOR_MODEL) prompts
      ∧ length prompts ≤ length gold.
Proof.
  intros Hgold Hrun. unfold main, load_gold, load_index in Hrun.
  rewrite (bind_returns _ _ w gold w) in Hrun
    by (unfold read_file; by rewrite Hgold).
  apply bind_Ok in Hrun as ([[emb qs] cbi] & w2 & Hindex & Hrun).
  assert (w2 = w) as ->.
  { unfold mbind, M_bind, read_file in Hindex.
    destruct (embeddings_file w); [|done].
    destruct (questions_file w); [|done].
    destruct (chunks_file w); [|done]. by injection Hindex as _ _ _ <-. }
  apply bind_Ok in Hrun as ([[n h] rows] & w3 & Hloop & Hrun).
  apply eval_loop_calls in Hloop as (Hemb & prompts & Hchat & Hlen).
  assert (embed_calls w' = embed_calls w3 ∧ chat_calls w' = chat_calls w3)
    as [-> ->].
  { revert Hrun. unfold mbind, M_bind, write_results, print.
    destruct (0 <? n); by intros [= <-]. }
  split; [done|]. by exists prompts.
Qed.

End WithBackend.

Lemma failed_evaluation_writes_nothing_witness :
  ∃ w',
    @main Fixtures.offline_backend Fixtures.numpy Fixtures.eval_world
    = (Raise BackendError, w')
    ∧ results_file w' = None
    ∧ stdout w' = [].
Proof.
  destruct (@main Fixtures.offline_backend Fixtures.numpy Fixtures.eval_world)
    as [[[]|e] w'] eqn:Hrun; [vm_compute in Hrun; discriminate|].
  exists w'. split; [by vm_compute in Hrun; injection Hrun as <- _|].
  exact (failed_evaluation_writes_nothing _ _ _ Hrun).
Defined.

Lemma evaluation_embeds_each_case_once_witness :
  ∃ w',
    @main Fixtures.eval_backend Fixtures.numpy Fixtures.eval_world = (Ok (), w')
    ∧ embed_calls w'
      = [(EMBED_MODEL, lit "how many absences can I miss");
         (EMBED_MODEL, lit "what do I wear");
         (EMBED_MODEL, lit "how do I skip class unnoticed")].
Proof.
  destruct (@main Fixtures.eval_backend Fixtures.numpy Fixtures.eval_world)
    as [[[]|e] w'] eqn:Hrun; [|vm_compute in Hrun; discriminate].
  exists w'. split; [done|].
  exact (proj1 (evaluation_embeds_each_case_once Fixtures.eval_world _ w'
                  eq_refl Hrun)).
Defined.

End EvaluationFacts.

(** ** The chat session *)

Module AskMainFacts.

Import Ask AskMain RetrievalSpec StoreSpec.
Import StoreFacts AskFacts ScoreFacts RetrievalFacts.

Section WithBackend.

Context `{Backend} `{Numpy}.

Variable emb_matrix : ndarray.
Variable questions : list question.
Variable chunks_by_id : gmap str chunk.

Local Abbreviation session := (λ inputs, repl inputs emb_matrix questions chunks_by_id).

Lemma repl_exit before cmd after after' w :
  is_exit (strip cmd) = true →
  session (before ++ cmd :: after) w = session (before ++ cmd :: after') w.
Proof.
  intros Hexit. revert w. induction before as [|line rest IH]; intros w.
  - cbn [app repl]. rewrite Hexit. by destruct (strip cmd).
  - cbn [app repl]. destruct (is_empty (strip line)); [apply IH|].
    destruct (is_exit (strip line)); [done|].
    unfold mbind, M_bind.
    destruct (answer_query _ _ _ _ w) as [[[]|e] w1]; [apply IH|done].
Qed.

Lemma repl_blank before blank after w :
  strip blank = [] →
  session (before ++ blank :: after) w = session (before ++ after) w.
Proof.
  intros Hblank. revert w. induction before as [|line rest IH]; intros w.
  - cbn [app repl]. by rewrite Hblank.
  - cbn [app repl]. destruct (is_empty (strip line)); [apply IH|].
    destruct (is_exit (strip line)); [done|].
    unfold mbind, M_bind.
    destruct (answer_query _ _ _ _ w) as [[[]|e] w1]; [apply IH|done].
Qed.

(** X23. The session reads nothing after an exit command, in any case
    of letters and with any whitespace around it, and a blank line
    changes nothing: the session is the same whatever is typed after
    the command, and the same without the blank line. *)
Theorem session_reads_until_exit (before after after' : list str) (line : str)
    (w : world) :
  (is_exit (strip line) = true →
   session (before ++ line :: after) w = session (before ++ line :: after') w)
  ∧ (strip line = [] →
     session (before ++ line :: after) w = session (before ++ after) w).
Proof. split; [apply repl_exit|apply repl_blank]. Qed.

(** A query is embedded once, whatever comes of it. *)
Lemma answer_query_embed_calls user_q w :
  embed_calls (answer_query user_q emb_matrix questions chunks_by_id w).2
  = embed_calls w ++ [(EMBED_MODEL, user_q)].
Proof.
  pose proof (retrieve_world user_q emb_matrix questions chunks_by_id w) as Hw1.
  unfold answer_query. unfold mbind at 1, M_bind at 1.
  destruct (retrieve_chunks_for_query _ _ _ _ w) as [[[max_sim ctx]|e] w1];
    simpl in Hw1; subst w1; [|done].
  destruct (_ || _); [done|].
  destruct ctx as [|ch rest]; [done|].
  unfold mbind, M_bind, lift, build_context_prompt, ollama_chat.
  destruct (chat_api _ _) as [answer|]; [|done].
  change (print ?p ?w) with (Ok (), printing p w). cbv beta iota.
  match goal with
  | |- context [print_sources ?ctx ?w0] =>
      destruct (print_sources_run ctx w0) as (w3 & -> & _ & _ & Hemb)
  end.
  simpl. by rewrite Hemb.
Qed.

(** X24. A session sends one embedding request per query, in the order
    of the queries: the stripped lines that are not blank, up to the
    first exit command.  A session that ends with an error has stopped
    at the query that failed: the requests sent are those of the
    queries up to that one. *)
Theorem session_embeds_each_query (inputs : list str) (w : world) :
  ∃ asked,
    asked `prefix_of` queries inputs
    ∧ embed_calls (session inputs w).2 = embed_calls w ++ map (pair EMBED_MODEL) asked
    ∧ ((session inputs w).1 = Ok () → asked = queries inputs).
Proof.
  revert w. induction inputs as [|line rest IH]; intros w.
  - exists []. simpl. by rewrite app_nil_r.
  - cbn [repl queries]. destruct (is_empty (strip line)); [apply IH|].
    destruct (is_exit (strip line)).
    { exists []. simpl. by rewrite app_nil_r. }
    pose proof (answer_query_embed_calls (strip line) w) as Hone.
    unfold mbind, M_bind.
    destruct (answer_query _ _ _ _ w) as [[[]|e] w1]; simpl in Hone.
    + destruct (IH w1) as (asked & Hpre & Hcalls & Hall).
      exists (strip line :: asked). split; [by apply prefix_cons|].
      split; [|by intros ->%Hall].
      rewrite Hcalls, Hone. cbn [map]. by rewrite <- app_assoc.
    + exists [strip line]. split; [apply prefix_cons, prefix_nil|].
      by split.
Qed.

End WithBackend.

Lemma session_reads_until_exit_witness :
  @repl Fixtures.eval_backend Fixtures.numpy
    [lit "how many absences can I miss"; lit " /EXIT "; lit "what do I wear"]
    Fixtures.other_matrix [Fixtures.other_question] ∅ Fixtures.empty_world
  = @repl Fixtures.eval_backend Fixtures.numpy
      [lit "how many absences can I miss"; lit " /EXIT "]
      Fixtures.other_matrix [Fixtures.other_question] ∅ Fixtures.empty_world.
Proof.
  apply (proj1 (@session_reads_until_exit Fixtures.eval_backend Fixtures.numpy
                  Fixtures.other_matrix [Fixtures.other_question] ∅
                  [lit "how many absences can I miss"] [lit "what do I wear"] []
                  (lit " /EXIT ") Fixtures.empty_world)).
  vm_compute. reflexivity.
Defined.

End AskMainFacts.

(** ** From the index build to a retrieval *)

Module PipelineFacts.

Import Index Ask AskSpec RetrievalSpec StoreSpec.
Import StoreFacts IndexFacts AskFacts IngestMainFacts RetrievalFacts.

Section WithBackend.

Context `{Backend} `{Numpy}.

(** X25. The chunk of every question of a build is found again by
    [load_chunks]: when [build_questions] returns, the dict made of the
    same chunk records has, for every question, a chunk under the chunk
    id of the question, and that chunk carries this id.  So the test
    [chunk is not None] of the retriever never fails on an index built
    from the chunk file that is loaded. *)
Theorem built_questions_have_chunks (chunks : list chunk) (w : world)
    (questions : list question) (w' : world) :
  build_questions chunks w = (Ok questions, w') →
  Forall (λ q, ∃ ch, index_chunks chunks !! q_chunk_id q = Some ch
                     ∧ chunk_id ch = q_chunk_id q) questions.
Proof.
  intros Hrun. apply Forall_forall. intros q Hq.
  destruct (build_questions_supported _ _ _ _ _ Hrun Hq) as (chunk & Hin & Hid & _).
  rewrite index_chunks_lookup.
  destruct (last (filter (λ rec, chunk_id rec = q_chunk_id q) chunks))
    as [ch|] eqn:Hlast.
  - exists ch. split; [done|].
    by apply last_Some_elem_of, list_elem_of_filter in Hlast as [? _].
  - apply last_None in Hlast.
    assert (chunk ∈ filter (λ rec, chunk_id rec = q_chunk_id q) chunks) as Habs
      by (by apply list_elem_of_filter).
    rewrite Hlast in Habs. by apply elem_of_nil in Habs.
Qed.

Section Indices.

(** What is used of [np.argsort]: it returns the indices of its
    argument, each once. *)
Hypothesis argsort_indices : ∀ keys, argsort keys ≡ₚ seq 0 (length keys).

(** X26. When every question has its chunk and the matrix has rows, a
    retrieval that returns gives the similarity and the chunk of one
    and the same row, the row that is selected first: the similarity is
    the one computed for that row, and the context is the one chunk of
    the question at that row.  Nothing is said of the values of the
    similarities. *)
Theorem context_is_chunk_of_first_row (user_q : str) (ncols : nat)
    (rows : list (list Q)) (questions : list question)
    (chunks_by_id : gmap str chunk) (w : world) (max_sim : Q)
    (context_chunks : list chunk) (w' : world) :
  rows ≠ [] →
  Forall (λ q, is_Some (chunks_by_id !! q_chunk_id q)) questions →
  retrieve_chunks_for_query user_q (Arr2D ncols rows) questions chunks_by_id w
  = (Ok (max_sim, context_chunks), w') →
  ∃ q_vec sims i q ch,
    embeddings_api EMBED_MODEL user_q = Some q_vec
    ∧ cosine_sim_matrix q_vec (Arr2D ncols rows) = Ok sims
    ∧ head (top_k sims) = Some i
    ∧ i < length rows
    ∧ sims !! i = Some max_sim
    ∧ questions !! i = Some q
    ∧ chunks_by_id !! q_chunk_id q = Some ch
    ∧ context_chunks = [ch].
Proof.
  intros Hrows Hall Hrun.
  apply retrieve_Ok_inv in Hrun as (q_vec & sims & Hvec & Hsims & Hmax & Hctx).
  exists q_vec, sims.
  assert (length sims = length rows) as Hn.
  { revert Hsims. unfold cosine_sim_matrix. destruct (_ =? _); [|done].
    intros [= <-]. rewrite length_map, length_zip, length_map. lia. }
  pose proof (top_k_first_row sims argsort_indices) as Hhead.
  destruct (top_k sims) as [|i0 rest].
  { subst sims. destruct rows; [done|]. simpl in Hn. lia. }
  cbn [collect_chunks] in Hctx.
  destruct (questions !! i0) as [q|] eqn:Hq; [|done].
  rewrite bool_decide_eq_false_2 in Hctx by set_solver.
  rewrite Forall_forall in Hall.
  destruct (Hall q (list_elem_of_lookup_2 _ _ _ Hq)) as [ch Hch].
  rewrite Hch in Hctx. simpl in Hctx. injection Hctx as <-.
  exists i0, q, ch. repeat (split; [done|]). split; [lia|done].
Qed.

End Indices.

End WithBackend.

Lemma built_questions_have_chunks_witness :
  Forall (λ q, ∃ ch, index_chunks [Fixtures.absences_chunk] !! q_chunk_id q = Some ch
                     ∧ chunk_id ch = q_chunk_id q)
    (question_records (lit "chunk_1") (lit "Attendance") 0
       [lit "How many unexcused absences may students have?";
        lit "What about absences of students?"]).
Proof.
  eapply (@built_questions_have_chunks Fixtures.backend [Fixtures.absences_chunk]
            Fixtures.empty_world).
  vm_compute. reflexivity.
Defined.

Lemma context_is_chunk_of_first_row_witness :
  let user_q := lit "how many absences can I miss" in
  let questions :=
    [Question (lit "chunk_1_q0") (lit "chunk_1") (lit "Attendance")
       (lit "How many unexcused absences may students have?");
     Question (lit "chunk_2_q0") (lit "chunk_2") (lit "Dress Code")
       (lit "What do students wear on campus?")] in
  let chunks_by_id := index_chunks [Fixtures.absences_chunk; Fixtures.dress_chunk] in
  ∃ max_sim ch w',
    @retrieve_chunks_for_query Fixtures.eval_backend Fixtures.numpy user_q
      (Arr2D 2 [[1; 0]; [0; 1]]%Q) questions chunks_by_id Fixtures.empty_world
    = (Ok (max_sim, [ch]), w')
    ∧ chunks_by_id !! lit "chunk_1" = Some ch.
Proof.
  intros user_q questions chunks_by_id.
  assert (Forall (λ q, is_Some (chunks_by_id !! q_chunk_id q)) questions) as Hall.
  { repeat constructor; eexists; vm_compute; reflexivity. }
  destruct (@retrieve_chunks_for_query Fixtures.eval_backend Fixtures.numpy user_q
              (Arr2D 2 [[1; 0]; [0; 1]]%Q) questions chunks_by_id Fixtures.empty_world)
    as [[[best found]|e] w1] eqn:Hrun; [|vm_compute in Hrun; discriminate].
  destruct (@context_is_chunk_of_first_row Fixtures.eval_backend Fixtures.numpy
              (λ keys, proj1 (fixture_argsort_ok keys)) user_q 2
              [[1; 0]; [0; 1]]%Q questions chunks_by_id
              Fixtures.empty_world best found w1 ltac:(discriminate) Hall Hrun)
    as (q_vec & sims & i & q & ch & Hvec & Hsims & Hhead & _ & _ & Hq & Hch & ->).
  exists best, ch, w1. split; [reflexivity|].
  assert (i = 0) as ->.
  { vm_compute in Hvec. injection Hvec as <-.
    vm_compute in Hsims. injection Hsims as <-.
    vm_compute in Hhead. by injection Hhead as <-. }
  vm_compute in Hq. injection Hq as <-. exact Hch.
Defined.

End PipelineFacts.

(** ** A multi-section file without header *)

Module HeaderlessFacts.

Import Ingest IngestSpec ChunkerSpec ParagraphSpec IngestFacts ChunkerFacts.

Local Abbreviation whitespace := (Forall (λ c, isspace c = true)).

Lemma dropwhile_split f (s : str) :
  ∃ pre, s = pre ++ dropwhile f s ∧ Forall (λ c, f c = true) pre.
Proof.
  induction s as [|c s (pre & IH & Hpre)]; [by exists []|].
  simpl. destruct (f c) eqn:Hc.
  - exists (c :: pre). split; [simpl; by f_equal|by constructor].
  - by exists [].
Qed.

Lemma dropwhile_app_all f (a b : str) :
  Forall (λ c, f c = true) a → dropwhile f (a ++ b) = dropwhile f b.
Proof. induction 1 as [|c a Hc _ IH]; [done|]. simpl. by rewrite Hc. Qed.

Lemma dropwhile_app_keep f (a b : str) :
  dropwhile f a ≠ [] → dropwhile f (a ++ b) = dropwhile f a ++ b.
Proof.
  induction a as [|c a IH]; [done|]. simpl.
  destruct (f c); [apply IH|done].
Qed.

Lemma strip_prefix (ws p : str) : whitespace ws → strip (ws ++ p) = strip p.
Proof.
  intros Hws. unfold strip, lstrip, rstrip. by rewrite dropwhile_app_all.
Qed.

Lemma strip_suffix (p ws : str) : whitespace ws → strip (p ++ ws) = strip p.
Proof.
  intros Hws. unfold strip, lstrip, rstrip.
  destruct (dropwhile isspace p) as [|c a] eqn:Hp.
  - assert (whitespace p) as Hall.
    { destruct (dropwhile_split isspace p) as (pre & Hpre & Hsp).
      rewrite Hp, app_nil_r in Hpre. by subst. }
    by rewrite (dropwhile_all isspace (p ++ ws)) by (by apply Forall_app).
  - rewrite dropwhile_app_keep by (by rewrite Hp). rewrite Hp.
    rewrite rev_app_distr, dropwhile_app_all by (by apply Forall_rev). done.
Qed.

(** What has been read of the current piece only comes in front of it. *)
Lemma split_blank_go_cur (cur s : str) :
  split_blank_go cur s
  = (rev cur ++ default [] (head (split_blank_go [] s)))
      :: tail (split_blank_go [] s).
Proof.
  revert cur.
  induction s as [s IH] using (induction_ltof1 _ (@length ascii)).
  unfold ltof in IH. intros cur.
  destruct s as [|c [|c' s]].
  - simpl. by rewrite app_nil_r.
  - simpl. done.
  - rewrite !split_blank_go_cons2.
    destruct (bool_decide (c = LF) && bool_decide (c' = LF)).
    + simpl. by rewrite app_nil_r.
    + rewrite (IH (c' :: s)) by (simpl; lia).
      rewrite (IH (c' :: s) ltac:(simpl; lia) [c]).
      simpl. by rewrite <- app_assoc.
Qed.

Lemma split_blank_go_whitespace (cur s : str) :
  whitespace cur → whitespace s → Forall whitespace (split_blank_go cur s).
Proof.
  revert cur.
  induction s as [s IH] using (induction_ltof1 _ (@length ascii)).
  unfold ltof in IH. intros cur Hcur Hs.
  destruct s as [|c [|c' s]].
  - repeat constructor. by apply Forall_rev.
  - simpl. repeat constructor. apply Forall_app. split; [by apply Forall_rev|done].
  - rewrite split_blank_go_cons2.
    apply Forall_cons in Hs as [Hc Hs].
    destruct (bool_decide (c = LF) && bool_decide (c' = LF)).
    + constructor; [by apply Forall_rev|].
      apply IH; [simpl; lia|constructor|by apply Forall_cons in Hs as [_ ?]].
    + apply IH; [simpl; lia|by constructor|done].
Qed.

Lemma kept_whitespace (pieces : list str) : Forall whitespace pieces → kept pieces = [].
Proof.
  induction 1 as [|p pieces Hp _ IH]; [done|]. unfold kept in *.
  rewrite filter_cons_False; [done|]. by rewrite strip_whitespace.
Qed.

Lemma kept_cons_strip (p q : str) (pieces : list str) :
  strip p = strip q → kept (p :: pieces) = kept (q :: pieces).
Proof.
  intros Heq. unfold kept. rewrite !filter_cons. rewrite Heq.
  destruct (decide _); [|done]. simpl. by rewrite Heq.
Qed.

Lemma kept_blank (p : str) (pieces : list str) :
  whitespace p → kept (p :: pieces) = kept pieces.
Proof.
  intros Hp. unfold kept. rewrite filter_cons_False; [done|].
  by rewrite strip_whitespace.
Qed.

Lemma kept_cons_rest (p : str) (pieces pieces' : list str) :
  kept pieces = kept pieces' → kept (p :: pieces) = kept (p :: pieces').
Proof.
  unfold kept. intros Heq. rewrite !filter_cons.
  destruct (decide _); simpl; by rewrite Heq.
Qed.

Lemma kept_tail (p : str) (pieces : list str) :
  Forall whitespace pieces → kept (p :: pieces) = kept [p].
Proof.
  intros Hws. apply kept_cons_rest. by apply kept_whitespace.
Qed.

Lemma kept_go_cur (cur s : str) :
  whitespace cur → kept (split_blank_go cur s) = kept (split_blank_go [] s).
Proof.
  intros Hcur. rewrite (split_blank_go_cur cur), (split_blank_go_cur [] s).
  apply kept_cons_strip. simpl. apply strip_prefix. by apply Forall_rev.
Qed.

(** Whitespace in front of a text adds no paragraph. *)
Lemma kept_leading (ws cur r : str) :
  whitespace ws → whitespace cur →
  (∀ c, head r = Some c → isspace c = false) →
  kept (split_blank_go cur (ws ++ r)) = kept (split_blank_go [] r).
Proof.
  intros Hws Hcur Hr. revert cur Hws Hcur.
  induction ws as [ws IH] using (induction_ltof1 _ (@length ascii)).
  unfold ltof in IH. intros cur Hws Hcur.
  destruct ws as [|x ws]; [by apply kept_go_cur|].
  apply Forall_cons in Hws as [Hx Hws].
  destruct (ws ++ r) as [|c' rest] eqn:Hrest.
  - apply app_eq_nil in Hrest as [-> ->].
    apply kept_whitespace. simpl. repeat constructor.
    apply Forall_app. split; [by apply Forall_rev|by constructor].
  - change ((x :: ws) ++ r) with (x :: (ws ++ r)). rewrite Hrest.
    rewrite split_blank_go_cons2.
    destruct (bool_decide (c' = LF)) eqn:Hc'; cycle 1.
    { rewrite andb_false_r, <- Hrest.
      apply IH; [simpl; lia|done|by constructor]. }
    apply bool_decide_eq_true in Hc'. subst c'.
    destruct ws as [|y ws].
    { simpl in Hrest. subst r. by specialize (Hr LF eq_refl). }
    injection Hrest as -> <-.
    destruct (bool_decide (x = LF)); cbn [andb].
    + rewrite kept_blank by (by apply Forall_rev).
      apply IH; [simpl; lia|by apply Forall_cons in Hws as [_ ?]|constructor].
    + change (LF :: ws ++ r) with ((LF :: ws) ++ r).
      apply IH; [simpl; lia|done|by constructor].
Qed.

(** Whitespace behind a text adds no paragraph. *)
Lemma kept_trailing (r ws cur : str) :
  whitespace ws → r ≠ [] →
  (∀ c, last r = Some c → isspace c = false) →
  kept (split_blank_go cur (r ++ ws)) = kept (split_blank_go cur r).
Proof.
  intros Hws. revert cur.
  induction r as [r IH] using (induction_ltof1 _ (@length ascii)).
  unfold ltof in IH. intros cur Hne Hlast.
  destruct r as [|c [|c' r]]; [done| |].
  - specialize (Hlast c eq_refl).
    assert (c ≠ LF) as Hc by (by intros ->).
    assert (kept (split_blank_go (c :: cur) ws) = kept [rev (c :: cur)]) as Hgo.
    { rewrite split_blank_go_cur.
      pose proof (split_blank_go_whitespace [] ws ltac:(constructor) Hws) as Hall.
      destruct (split_blank_go [] ws) as [|h t]; simpl.
      - by rewrite app_nil_r.
      - apply Forall_cons in Hall as [Hh Ht].
        rewrite (kept_tail _ t Ht). apply kept_cons_strip.
        by apply strip_suffix. }
    destruct ws as [|x ws]; [done|].
    change ([c] ++ x :: ws) with (c :: x :: ws).
    rewrite split_blank_go_cons2, (bool_decide_eq_false_2 (c = LF)) by done.
    cbn [andb]. exact Hgo.
  - change ((c :: c' :: r) ++ ws) with (c :: c' :: (r ++ ws)).
    rewrite !split_blank_go_cons2.
    assert (∀ d, last (c' :: r) = Some d → isspace d = false) as Hlast'.
    { intros d Hd. apply Hlast. by rewrite last_cons_cons. }
    destruct (bool_decide (c = LF) && bool_decide (c' = LF)) eqn:Hcut.
    + apply andb_true_iff in Hcut as [_ Hc']. apply bool_decide_eq_true in Hc'.
      subst c'. destruct r as [|d r]; [by specialize (Hlast' LF eq_refl)|].
      apply kept_cons_rest.
      apply IH; [simpl; lia|done|].
      intros e He. apply Hlast'. by rewrite last_cons_cons.
    + change (c' :: r ++ ws) with ((c' :: r) ++ ws).
      apply IH; [simpl; lia|done|done].
Qed.

Lemma paragraphs_of_strip (s : str) : paragraphs_of (strip s) = paragraphs_of s.
Proof.
  destruct (dropwhile_split isspace s) as (pre & Hs & Hpre).
  set (a := dropwhile isspace s) in *.
  destruct (dropwhile_split isspace (rev a)) as (post & Ha & Hpost).
  assert (a = strip s ++ rev post) as Ha'.
  { unfold strip, lstrip, rstrip. fold a.
    by rewrite <- rev_app_distr, <- Ha, rev_involutive. }
  unfold paragraphs_of, split_blank. fold (kept (split_blank_go [] (strip s))).
  fold (kept (split_blank_go [] s)).
  rewrite Hs at 2. rewrite Ha'.
  destruct (strip s) as [|c r] eqn:Hstrip.
  - rewrite app_nil_l, <- (app_nil_r (pre ++ rev post)).
    rewrite (kept_leading (pre ++ rev post) [] []); [done| |constructor|done].
    apply Forall_app. split; [done|by apply Forall_rev].
  - pose proof (strip_trimmed s ltac:(by rewrite Hstrip)) as (_ & Hhead & Hlast).
    rewrite Hstrip in Hhead, Hlast.
    rewrite (kept_leading pre [] ((c :: r) ++ rev post)); [|done|constructor|].
    + symmetry. apply kept_trailing; [by apply Forall_rev|done|].
      intros d Hd. destruct Hlast as (d' & Hd' & ?). congruence.
    + intros d Hd. destruct Hhead as (d' & Hd' & ?). simpl in Hd, Hd'. congruence.
Qed.

Lemma strip_chomp (x : str) : strip (chomp x) = strip x.
Proof.
  unfold chomp. destruct (rev x) as [|c r] eqn:Hrev; [done|].
  case_bool_decide as Hc; [|done]. subst c.
  rewrite <- (rev_involutive x), Hrev. simpl.
  symmetry. apply strip_suffix. by repeat constructor.
Qed.

Lemma section_loop_no_header current_title current_lines lines base_title max_chars :
  existsb is_header lines = false →
  section_loop current_title current_lines lines base_title max_chars
  = match current_lines ++ lines with
    | [] => []
    | _ :: _ =>
        section_chunks
          (if title_set current_title then default [] current_title else base_title)
          (current_lines ++ lines) max_chars
    end.
Proof.
  revert current_lines.
  induction lines as [|line rest IH]; intros cl Hno.
  - rewrite app_nil_r. by destruct cl.
  - simpl in Hno. apply orb_false_iff in Hno as [Hline Hrest].
    cbn [section_loop].
    destruct (roman_header_match (strip line)) as [tg|] eqn:Hmatch.
    { unfold is_header in Hline. rewrite Hmatch in Hline.
      by rewrite bool_decide_eq_true_2 in Hline. }
    rewrite IH by done. by rewrite <- app_assoc.
Qed.

(** X27. A file in which no line is a Roman-numeral header is chunked
    in the same way whether or not it is listed as a multi-section
    file: the chunks are those of its paragraphs, all under the title
    made of the file name. *)
Theorem headerless_file_has_one_title (text filename : str) (max_chars : Z) :
  existsb is_header (splitlines (normalize_newlines text)) = false →
  iter_section_chunks text filename max_chars
  = map (pair (base_title_of filename))
      (_split_paragraphs_into_chunks (paragraphs_of (normalize_newlines text))
         max_chars).
Proof.
  intros Hno. unfold iter_section_chunks.
  destruct (negb _); [done|].
  rewrite section_loop_no_header by done. cbn [app title_set].
  set (normalized := normalize_newlines text) in *.
  assert (join [LF] (splitlines normalized) = chomp normalized) as Hjoin.
  { unfold normalized, normalize_newlines.
    rewrite splitlines_join by apply normalize_loop_no_break, splitlines_no_break.
    apply (join_trim_last (0 <? 0)).
    - apply normalize_loop_no_break, splitlines_no_break.
    - apply normalize_loop_single_blanks. }
  assert (strip (join [LF] (splitlines normalized)) = strip normalized) as Hstrip
    by (by rewrite Hjoin, strip_chomp).
  rewrite <- (paragraphs_of_strip normalized).
  destruct (splitlines normalized) as [|line lines] eqn:Hlines.
  - simpl in Hstrip. by rewrite <- Hstrip.
  - unfold section_chunks. rewrite Hstrip.
    by destruct (strip normalized).
Qed.

Lemma headerless_file_has_one_title_witness :
  iter_section_chunks (py "intro\n\n\nbody") (lit "living_on_campus.txt") 3000
  = [(lit "Living On Campus", py "intro\n\nbody")].
Proof.
  etrans.
  - apply (headerless_file_has_one_title (py "intro\n\n\nbody")
             (lit "living_on_campus.txt") 3000).
    vm_compute. reflexivity.
  - vm_compute. reflexivity.
Defined.

End HeaderlessFacts.

(** ** The titles of a multi-section file *)

Module SectionTitleFacts.

Import Ingest IngestSpec IngestFacts.

Lemma section_chunks_title section_title current_lines max_chars p :
  p ∈ section_chunks section_title current_lines max_chars → p.1 = section_title.
Proof.
  unfold section_chunks. destruct (is_empty _).
  { by intros ?%elem_of_nil. }
  intros Hp. by apply list_elem_of_In, in_map_iff in Hp as (c & <- & _).
Qed.

(** Where the title of a yielded chunk comes from: the section being
    read, a header further on, or the file name when no header has been
    read and none follows. *)
Lemma section_loop_titles current_title current_lines lines base_title max_chars p :
  p ∈ section_loop current_title current_lines lines base_title max_chars →
  (title_set current_title = true ∧ p.1 = default [] current_title)
  ∨ (∃ line title_group,
       line ∈ lines
       ∧ roman_header_match (strip line) = Some title_group
       ∧ p.1 = strip title_group)
  ∨ (title_set current_title = false
     ∧ existsb is_header lines = false
     ∧ p.1 = base_title).
Proof.
  revert current_title current_lines.
  induction lines as [|line rest IH]; intros ct cl; cbn [section_loop].
  - destruct cl as [|l cl]; [by intros ?%elem_of_nil|].
    intros Hp%section_chunks_title.
    destruct (title_set ct); [by left|]. right. right. done.
  - destruct (roman_header_match (strip line)) as [tg|] eqn:Hmatch.
    + intros [Hp|Hp]%elem_of_app.
      * destruct (title_set ct) eqn:Hct; [|by apply elem_of_nil in Hp].
        destruct (negb _); [|by apply elem_of_nil in Hp].
        apply section_chunks_title in Hp. by left.
      * right. left.
        apply IH in Hp as [[_ Hp]|[(l & t & Hl & Ht & Hp)|[Habs _]]].
        -- exists line, tg. split; [by left|done].
        -- exists l, t. split; [by right|done].
        -- by rewrite (header_title_set _ _ Hmatch) in Habs.
    + intros Hp.
      apply IH in Hp as [?|[(l & t & Hl & Ht & Hp)|(Hct & Hno & Hp)]].
      * by left.
      * right. left. exists l, t. split; [by right|done].
      * right. right. split; [done|]. split; [|done].
        simpl. rewrite Hno, orb_false_r.
        unfold is_header. rewrite Hmatch.
        apply bool_decide_eq_false_2. by intros [? ?].
Qed.

(** X28. In a multi-section file every chunk carries the title of a
    header line of the file: the stripped text that follows the Roman
    numeral, the dot and the whitespace.  The title made of the file
    name is only used when the file has no header line at all. *)
Theorem section_titles_come_from_headers (text filename : str) (max_chars : Z)
    (section_title chunk_text : str) :
  filename ∈ MULTI_SECTION_FILES →
  (section_title, chunk_text) ∈ iter_section_chunks text filename max_chars →
  let lines := splitlines (normalize_newlines text) in
  (∃ line title_group,
      line ∈ lines
      ∧ roman_header_match (strip line) = Some title_group
      ∧ section_title = strip title_group
      ∧ section_title ≠ [])
  ∨ (existsb is_header lines = false ∧ section_title = base_title_of filename).
Proof.
  intros Hmulti Hp lines. unfold iter_section_chunks in Hp.
  rewrite bool_decide_eq_true_2 in Hp by done. cbn [negb] in Hp.
  apply section_loop_titles in Hp as [[Habs _]|[(l & t & Hl & Ht & Hp)|(_ & Hno & Hp)]].
  - done.
  - left. exists l, t. repeat (split; [done|]). simpl in Hp. subst section_title.
    pose proof (header_title_set _ _ Ht) as Hset. by destruct (strip t).
  - by right.
Qed.

Lemma section_titles_come_from_headers_witness :
  let text := py "I. Housing\nRooms are assigned in May." in
  let lines := splitlines (normalize_newlines text) in
  (∃ line title_group,
      line ∈ lines
      ∧ roman_header_match (strip line) = Some title_group
      ∧ lit "Housing" = strip title_group
      ∧ lit "Housing" ≠ [])
  ∨ (existsb is_header lines = false
     ∧ lit "Housing" = base_title_of (lit "living_on_campus.txt")).
Proof.
  intros text lines.
  apply (section_titles_come_from_headers text (lit "living_on_campus.txt") 3000
           (lit "Housing") (lit "Rooms are assigned in May.")).
  - apply (bool_decide_unpack _). vm_compute. exact I.
  - vm_compute. left.
Defined.

End SectionTitleFacts.

(** ** The rate printed by the evaluator *)

Module HitRateFacts.

Import Ask AskSpec Score ScoreSpec StoreSpec.
Import StoreFacts AskFacts ScoreFacts.


Section WithBackend.

Context `{Backend} `{Numpy}.



End WithBackend.


End HitRateFacts.

(** ** The chunks against the paragraphs of the source text *)

Module CoverFacts.

Import Ingest IngestSpec ChunkerSpec ParagraphSpec SourceSpec.
Import IngestFacts ChunkerFacts HeaderlessFacts.

Local Abbreviation whitespace := (Forall (λ c, isspace c = true)).
Local Abbreviation paragraph_of := (λ block : list str, strip (join [LF] block)).

(** *** Splitting the joined lines *)

Lemma split_blank_go_over_line (line cur s : str) :
  LF ∉ line →
  split_blank_go cur (line ++ LF :: s) = split_blank_go (rev line ++ cur) (LF :: s).
Proof.
  revert cur. induction line as [|c line IH]; intros cur Hline; [done|].
  apply not_elem_of_cons in Hline as [Hc Hline].
  assert (bool_decide (c = LF) = false) as Hcb
    by (apply bool_decide_eq_false_2; congruence).
  destruct line as [|c2 line].
  - change ([c] ++ LF :: s) with (c :: LF :: s).
    by rewrite split_blank_go_cons2, Hcb.
  - change ((c :: c2 :: line) ++ LF :: s) with (c :: c2 :: (line ++ LF :: s)).
    rewrite split_blank_go_cons2, Hcb. cbn [andb].
    change (c2 :: (line ++ LF :: s)) with ((c2 :: line) ++ LF :: s).
    rewrite IH by done. simpl. by rewrite <- !app_assoc.
Qed.

Lemma strip_nil_whitespace (s : str) : strip s = [] → whitespace s.
Proof.
  unfold strip, lstrip, rstrip. intros Hs.
  destruct (dropwhile_split isspace s) as (pre & Hpre & Hws).
  set (a := dropwhile isspace s) in *.
  destruct (dropwhile_split isspace (rev a)) as (post & Hpost & Hws').
  apply (f_equal (@rev _)) in Hs. rewrite rev_involutive in Hs. simpl in Hs.
  rewrite Hs, app_nil_r in Hpost.
  rewrite Hpre. apply Forall_app. split; [done|].
  rewrite <- (rev_involutive a), Hpost. by apply Forall_rev.
Qed.

Lemma join_whitespace_head (line : str) (rest : list str) :
  whitespace (join [LF] (line :: rest)) → whitespace line.
Proof.
  destruct rest as [|l rest]; [done|].
  change (join [LF] (line :: l :: rest)) with (line ++ [LF] ++ join [LF] (l :: rest)).
  by intros [? _]%Forall_app.
Qed.

(** A block of lines that are not blank is not blank. *)
Lemma paragraph_of_nonempty (block : list str) :
  block ≠ [] → Forall (λ l, is_blank l = false) block → paragraph_of block ≠ [].
Proof.
  intros Hne Hall Hnil. destruct block as [|line rest]; [done|].
  apply Forall_cons in Hall as [Hline _].
  apply strip_nil_whitespace, join_whitespace_head, strip_whitespace in Hnil.
  unfold is_blank in Hline. by rewrite Hnil in Hline.
Qed.

Lemma kept_one (ws ws' : str) (block : list str) :
  whitespace ws → whitespace ws' →
  block ≠ [] → Forall (λ l, is_blank l = false) block →
  kept [ws ++ join [LF] block ++ ws'] = [paragraph_of block].
Proof.
  intros Hws Hws' Hne Hall. unfold kept.
  assert (strip (ws ++ join [LF] block ++ ws') = paragraph_of block) as Hstrip
    by (by rewrite strip_prefix, strip_suffix).
  rewrite filter_cons_True.
  - simpl. by rewrite Hstrip.
  - rewrite Hstrip. pose proof (paragraph_of_nonempty block Hne Hall).
    by destruct (strip (join [LF] block)).
Qed.

Lemma kept_cons_one (ws : str) (block : list str) (pieces : list str) :
  whitespace ws → block ≠ [] → Forall (λ l, is_blank l = false) block →
  kept ((ws ++ join [LF] block) :: pieces) = paragraph_of block :: kept pieces.
Proof.
  intros Hws Hne Hall.
  pose proof (kept_one ws [] block Hws ltac:(constructor) Hne Hall) as Hone.
  rewrite app_nil_r in Hone. unfold kept in *.
  rewrite filter_cons in *. destruct (decide _); [|done].
  simpl in *. by injection Hone as ->.
Qed.

Lemma terminated_cons (line : str) (rest : list str) :
  terminated (line :: rest) = line ++ LF :: terminated rest.
Proof. unfold terminated. simpl. by rewrite <- app_assoc. Qed.

Lemma line_head_not_LF (c : ascii) (line s : str) : LF ∉ c :: line → c ≠ LF.
Proof. intros Hc ->. apply Hc. by left. Qed.

(** The pieces between two line feeds of the lines put together are the
    blocks of lines between the empty lines. *)
Lemma kept_line_blocks (lines block : list str) (ws : str) :
  whitespace ws →
  Forall (λ l, is_blank l = false) block →
  Forall (λ l, LF ∉ l) lines →
  Forall (λ l, is_blank l = true → l = []) lines →
  kept (split_blank_go (rev (ws ++ join [LF] block))
          (match block with
           | [] => terminated lines
           | _ :: _ => LF :: terminated lines
           end))
  = map paragraph_of (line_blocks is_blank block lines).
Proof.
  revert block ws.
  induction lines as [lines IH] using (induction_ltof1 _ (@length str)).
  unfold ltof in IH. intros block ws Hws Hblock Hlf Hblank.
  destruct lines as [|line rest].
  { destruct block as [|b block].
    - simpl. rewrite app_nil_r, rev_involutive. by apply kept_whitespace; constructor.
    - cbn [line_blocks map terminated concat].
      change (split_blank_go ?cur [LF]) with [rev (LF :: cur)].
      change (rev (LF :: ?cur)) with (rev cur ++ [LF]).
      rewrite rev_involutive, <- app_assoc.
      apply kept_one; [done|by repeat constructor|done|done]. }
  apply Forall_cons in Hlf as [Hline Hlf].
  apply Forall_cons in Hblank as [Hempty Hblank].
  rewrite terminated_cons. cbn [line_blocks].
  destruct (is_blank line) eqn:Hb.
  - rewrite (Hempty eq_refl). cbn [app].
    destruct block as [|b block].
    + destruct rest as [|line2 rest2].
      { simpl. rewrite rev_involutive, app_nil_r.
        apply kept_whitespace. constructor; [|constructor].
        apply Forall_app. split; [done|by repeat constructor]. }
      rewrite terminated_cons.
      destruct line2 as [|c line2].
      * cbn [app]. rewrite split_blank_go_cons2, !bool_decide_eq_true_2 by done.
        cbn [andb]. rewrite kept_blank
          by (rewrite rev_involutive, app_nil_r; done).
        cbn [line_blocks].
        assert (is_blank [] = true) as -> by done.
        apply Forall_cons in Hlf as [_ Hlf].
        apply Forall_cons in Hblank as [_ Hblank].
        apply (IH rest2 ltac:(simpl; lia) [] []); try done.
      * pose proof (Forall_inv Hlf) as Hc. apply line_head_not_LF in Hc; [|exact []].
        change ((c :: line2) ++ LF :: terminated rest2)
          with (c :: (line2 ++ LF :: terminated rest2)).
        rewrite split_blank_go_cons2, (bool_decide_eq_false_2 (c = LF)) by done.
        rewrite andb_false_r.
        change (c :: (line2 ++ LF :: terminated rest2))
          with ((c :: line2) ++ LF :: terminated rest2).
        rewrite <- terminated_cons.
        rewrite app_nil_r.
        replace (LF :: rev ws) with (rev ((ws ++ [LF]) ++ join [LF] []))
          by (simpl; by rewrite app_nil_r, rev_app_distr).
        apply (IH (( c :: line2) :: rest2) ltac:(simpl; lia) [] (ws ++ [LF]));
          try done.
        apply Forall_app. split; [done|by repeat constructor].
    + rewrite split_blank_go_cons2, !bool_decide_eq_true_2 by done.
      cbn [andb map]. rewrite rev_involutive.
      rewrite kept_cons_one by done. f_equal.
      apply (IH rest ltac:(simpl; lia) [] []); try done.
  - assert (line ≠ []) as Hne by (by intros ->).
    destruct block as [|b block].
    + rewrite split_blank_go_over_line by done. cbn [app].
      rewrite app_nil_r, <- rev_app_distr.
      replace (ws ++ line) with (ws ++ join [LF] [line]) by done.
      apply (IH rest ltac:(simpl; lia) [line] ws); try done.
      by repeat constructor.
    + destruct line as [|c line]; [done|].
      pose proof (line_head_not_LF c line [] Hline) as Hc.
      change (LF :: (c :: line) ++ LF :: terminated rest)
        with (LF :: c :: (line ++ LF :: terminated rest)).
      rewrite split_blank_go_cons2, (bool_decide_eq_false_2 (c = LF)) by done.
      rewrite andb_false_r.
      change (c :: (line ++ LF :: terminated rest))
        with ((c :: line) ++ LF :: terminated rest).
      rewrite split_blank_go_over_line by done.
      replace (rev (c :: line) ++ LF :: rev (ws ++ join [LF] (b :: block)))
        with (rev (ws ++ join [LF] ((b :: block) ++ [c :: line]))).
      * apply (IH rest ltac:(simpl; lia) ((b :: block) ++ [c :: line]) ws);
          try done.
        apply Forall_app. split; [done|by repeat constructor].
      * rewrite join_snoc by done.
        rewrite !rev_app_distr. simpl. by rewrite <- !app_assoc.
Qed.

Lemma terminated_join (lines : list str) :
  lines ≠ [] → terminated lines = join [LF] lines ++ [LF].
Proof.
  induction lines as [|line rest IH]; [done|]. intros _.
  rewrite terminated_cons. destruct rest as [|l rest].
  - done.
  - rewrite IH by done.
    change (join [LF] (line :: l :: rest))
      with (line ++ [LF] ++ join [LF] (l :: rest)).
    by rewrite <- !app_assoc.
Qed.

(** The paragraphs of lines put together are the blocks of lines
    between the blank lines, when these are empty. *)
Lemma paragraphs_of_lines (lines : list str) :
  Forall (λ l, LF ∉ l) lines →
  Forall (λ l, is_blank l = true → l = []) lines →
  paragraphs_of (join [LF] lines) = map paragraph_of (line_blocks is_blank [] lines).
Proof.
  intros Hlf Hblank.
  pose proof (kept_line_blocks lines [] [] ltac:(constructor) ltac:(constructor)
                Hlf Hblank) as Hkept.
  simpl in Hkept. rewrite <- Hkept.
  destruct lines as [|line rest]; [done|].
  rewrite terminated_join by done.
  rewrite <- (paragraphs_of_strip (join [LF] (line :: rest))).
  rewrite <- (strip_suffix (join [LF] (line :: rest)) [LF]) by (by repeat constructor).
  by rewrite paragraphs_of_strip.
Qed.

(** *** The blocks of the normalized lines *)

Lemma line_blocks_ext (sep sep' : str → bool) (cur lines : list str) :
  Forall (λ l, sep l = sep' l) lines →
  line_blocks sep cur lines = line_blocks sep' cur lines.
Proof.
  intros Hall. revert cur.
  induction Hall as [|line rest Hline _ IH]; intros cur; [done|].
  cbn [line_blocks]. rewrite Hline, !IH. done.
Qed.

Lemma line_blocks_cut (sep : str → bool) (cur before : list str) (line : str)
    (after : list str) :
  sep line = true →
  line_blocks sep cur (before ++ line :: after)
  = line_blocks sep cur before ++ line_blocks sep [] after.
Proof.
  intros Hsep. revert cur. induction before as [|l before IH]; intros cur.
  - cbn [app line_blocks]. rewrite Hsep. by destruct cur.
  - cbn [app line_blocks]. destruct (sep l); [|apply IH].
    destruct cur; by rewrite IH.
Qed.

Lemma line_blocks_trim_last (sep : str → bool) (cur lines : list str) :
  sep [] = true →
  line_blocks sep cur (trim_last lines) = line_blocks sep cur lines.
Proof.
  intros Hsep. revert cur. induction lines as [|line rest IH]; intros cur; [done|].
  destruct rest as [|l rest].
  - simpl. destruct line; [|done]. simpl. rewrite Hsep. by destruct cur.
  - change (trim_last (line :: l :: rest)) with (line :: trim_last (l :: rest)).
    cbn [line_blocks]. by rewrite !IH.
Qed.

Lemma line_blocks_normalize (sep : str → bool) (n : nat) (cur lines : list str) :
  (∀ l, is_blank l = true → sep l = true) →
  (0 < n → cur = []) →
  line_blocks sep cur (normalize_loop n lines) = line_blocks sep cur lines.
Proof.
  intros Hsep. revert n cur.
  induction lines as [|line rest IH]; intros n cur Hn; [done|].
  cbn [normalize_loop line_blocks]. fold (is_blank line).
  destruct (is_blank line) eqn:Hb.
  - rewrite (Hsep line Hb).
    destruct (Nat.eqb_spec (n + 1) 1) as [H1|H1].
    + cbn [line_blocks]. rewrite (Hsep [] eq_refl).
      rewrite (IH (n + 1) []) by done. done.
    + rewrite (Hn ltac:(lia)). apply IH. done.
  - cbn [line_blocks]. destruct (sep line).
    + destruct cur; by rewrite (IH 0) by lia.
    + apply IH. lia.
Qed.

Lemma normalize_loop_blank_empty (n : nat) (lines : list str) :
  Forall (λ l, is_blank l = true → l = []) (normalize_loop n lines).
Proof.
  revert n. induction lines as [|line rest IH]; intros n; [constructor|].
  cbn [normalize_loop]. fold (is_blank line).
  destruct (is_blank line) eqn:Hb.
  - destruct (n + 1 =? 1); [constructor; [done|]|]; apply IH.
  - constructor; [|apply IH]. intros Hb'. congruence.
Qed.

Lemma Forall_trim_last (P : str → Prop) (lines : list str) :
  Forall P lines → Forall P (trim_last lines).
Proof.
  induction 1 as [|line rest Hline Hrest IH]; [constructor|].
  destruct rest as [|l rest].
  - simpl. destruct line; by repeat constructor.
  - change (trim_last (line :: l :: rest)) with (line :: trim_last (l :: rest)).
    by constructor.
Qed.

Lemma no_break_no_LF (line : str) : no_break line → LF ∉ line.
Proof.
  intros Hnb Hin. unfold no_break in Hnb. rewrite Forall_forall in Hnb.
  by specialize (Hnb LF Hin).
Qed.

(** The lines of the normalized text have what the splitting needs. *)
Lemma normalized_lines_plain (text : str) :
  let lines := normalize_loop 0 (splitlines text) in
  Forall (λ l, LF ∉ l) lines ∧ Forall (λ l, is_blank l = true → l = []) lines.
Proof.
  split; [|apply normalize_loop_blank_empty].
  eapply Forall_impl; [apply normalize_loop_no_break, splitlines_no_break|].
  apply no_break_no_LF.
Qed.

(** *** The sections of a multi-section file *)

Lemma bodies_go_Forall (P : str → Prop) (cur lines : list str) :
  Forall P cur → Forall P lines → Forall (Forall P) (bodies_go cur lines).
Proof.
  intros Hcur Hlines. revert cur Hcur.
  induction Hlines as [|line rest Hline _ IH]; intros cur Hcur; simpl.
  - by repeat constructor.
  - destruct (is_header line).
    + constructor; [done|]. apply IH. constructor.
    + apply IH. apply Forall_app. by repeat constructor.
Qed.

Lemma separates_plain (line : str) :
  is_header line = false → separates true line = is_blank line.
Proof. unfold separates. intros ->. by rewrite orb_false_r. Qed.

(** Cutting at the headers first and at the blank lines then is cutting
    at both. *)
Lemma bodies_blocks (cur lines : list str) :
  Forall (λ l, is_header l = false) cur →
  flat_map (line_blocks is_blank []) (bodies_go cur lines)
  = line_blocks (separates true) [] (cur ++ lines).
Proof.
  revert cur. induction lines as [|line rest IH]; intros cur Hcur.
  - simpl. rewrite !app_nil_r. apply line_blocks_ext.
    eapply Forall_impl; [exact Hcur|]. intros l Hl. simpl. by rewrite separates_plain.
  - cbn [bodies_go]. destruct (is_header line) eqn:Hline.
    + cbn [flat_map]. rewrite (IH []) by constructor.
      rewrite line_blocks_cut
        by (unfold separates; rewrite Hline; apply orb_true_r).
      f_equal. apply line_blocks_ext.
      eapply Forall_impl; [exact Hcur|]. intros l Hl. simpl.
      by rewrite separates_plain.
    + rewrite IH by (apply Forall_app; by repeat constructor).
      by rewrite <- app_assoc.
Qed.

Lemma flat_map_map {A B C} (f : B → C) (g : A → list B) (l : list A) :
  flat_map (λ x, map f (g x)) l = map f (flat_map g l).
Proof.
  induction l as [|x l IH]; [done|]. simpl. by rewrite map_app, IH.
Qed.

(** The paragraphs that the chunker packs are the paragraphs of the
    source text. *)
Lemma document_paragraphs_source (text filename : str) :
  document_paragraphs text filename = source_paragraphs text filename.
Proof.
  unfold document_paragraphs, source_paragraphs, normalize_newlines.
  destruct (normalized_lines_plain text) as [Hlf Hblank].
  set (lines := normalize_loop 0 (splitlines text)) in *.
  case_bool_decide as Hmulti.
  - rewrite splitlines_join by apply normalize_loop_no_break, splitlines_no_break.
    fold lines.
    assert (Forall (λ body,
                      section_paragraphs body
                      = map paragraph_of (line_blocks is_blank [] body))
              (section_bodies (trim_last lines))) as Hbodies.
    { pose proof (bodies_go_Forall
                    (λ l, (LF ∉ l) ∧ (is_blank l = true → l = [])) []
                    (trim_last lines) ltac:(constructor)) as Hall.
      eapply Forall_impl; [apply Hall|].
      - apply Forall_trim_last. rewrite Forall_forall in Hlf, Hblank.
        apply Forall_forall. intros l Hl. split; auto.
      - intros body Hbody. simpl. unfold section_paragraphs.
        rewrite paragraphs_of_strip. apply paragraphs_of_lines.
        + eapply Forall_impl; [exact Hbody|]. by intros l [? _].
        + eapply Forall_impl; [exact Hbody|]. by intros l [_ ?]. }
    transitivity (flat_map (λ body, map paragraph_of (line_blocks is_blank [] body))
                    (section_bodies (trim_last lines))).
    { induction Hbodies as [|body bodies Hbody _ IH]; [done|].
      simpl. by rewrite Hbody, IH. }
    rewrite flat_map_map. f_equal. unfold section_bodies.
    rewrite bodies_blocks by constructor. cbn [app].
    rewrite line_blocks_trim_last by done.
    unfold lines. apply line_blocks_normalize; [|lia].
    intros l Hl. unfold separates. by rewrite Hl.
  - rewrite paragraphs_of_lines by done. f_equal.
    rewrite (line_blocks_ext (separates false) is_blank).
    + unfold lines. apply line_blocks_normalize; [done|lia].
    + apply Forall_forall. intros l _. unfold separates. simpl. apply orb_false_r.
Qed.

(** *** Text before the first header *)

Lemma blank_not_header (line : str) : is_blank line = true → is_header line = false.
Proof.
  unfold is_blank, is_header. destruct (strip line); [|done]. intros _.
  apply bool_decide_eq_false_2. by intros [? ?].
Qed.

Lemma existsb_header_normalize (n : nat) (lines : list str) :
  existsb is_header (normalize_loop n lines) = existsb is_header lines.
Proof.
  revert n. induction lines as [|line rest IH]; intros n; [done|].
  cbn [normalize_loop existsb]. fold (is_blank line).
  destruct (is_blank line) eqn:Hb.
  - rewrite (blank_not_header line Hb). cbn [orb].
    destruct (n + 1 =? 1); [|apply IH].
    cbn [existsb]. by rewrite IH.
  - cbn [existsb]. by rewrite IH.
Qed.

Lemma existsb_header_trim_last (lines : list str) :
  existsb is_header (trim_last lines) = existsb is_header lines.
Proof.
  induction lines as [|line rest IH]; [done|].
  destruct rest as [|l rest].
  - simpl. by destruct line.
  - change (trim_last (line :: l :: rest)) with (line :: trim_last (l :: rest)).
    cbn [existsb] in *. by rewrite IH.
Qed.

Lemma header_comes_first_normalize (n : nat) (lines : list str) :
  header_comes_first (normalize_loop n lines) = header_comes_first lines.
Proof.
  revert n. induction lines as [|line rest IH]; intros n; [done|].
  cbn [normalize_loop header_comes_first]. fold (is_blank line).
  destruct (is_blank line) eqn:Hb.
  - rewrite (blank_not_header line Hb).
    destruct (n + 1 =? 1); [|apply IH].
    cbn [header_comes_first]. by rewrite IH.
  - cbn [header_comes_first]. rewrite Hb, existsb_header_normalize. done.
Qed.

Lemma header_comes_first_trim_last (lines : list str) :
  header_comes_first (trim_last lines) = header_comes_first lines.
Proof.
  induction lines as [|line rest IH]; [done|].
  destruct rest as [|l rest].
  - simpl. by destruct line.
  - change (trim_last (line :: l :: rest)) with (line :: trim_last (l :: rest)).
    cbn [header_comes_first] in *. rewrite IH.
    by rewrite (existsb_header_trim_last (l :: rest)).
Qed.

Lemma join_blank_lines (lines : list str) :
  Forall (λ l, is_blank l = true) lines → whitespace (join [LF] lines).
Proof.
  induction 1 as [|line rest Hline _ IH]; [constructor|].
  assert (whitespace line) as Hws.
  { apply strip_nil_whitespace. unfold is_blank in Hline.
    by destruct (strip line). }
  destruct rest as [|l rest]; [done|].
  change (join [LF] (line :: l :: rest)) with (line ++ [LF] ++ join [LF] (l :: rest)).
  apply Forall_app. split; [done|]. apply Forall_app. split; [|done].
  by repeat constructor.
Qed.

Lemma body_chunks_blank (max_chars : Z) (body : list str) :
  Forall (λ l, is_blank l = true) body → body_chunks max_chars body = [].
Proof.
  intros Hblank. unfold body_chunks, section_paragraphs.
  by rewrite (strip_whitespace _ (join_blank_lines body Hblank)).
Qed.

(** Before the first header only the blank lines are left out. *)
Lemma section_loop_untitled current_title current_lines lines base_title max_chars :
  title_set current_title = false →
  Forall (λ l, is_blank l = true) current_lines →
  header_comes_first lines = true →
  map snd (section_loop current_title current_lines lines base_title max_chars)
  = flat_map (body_chunks max_chars) (bodies_go current_lines lines).
Proof.
  intros Hct. revert current_lines.
  induction lines as [|line rest IH]; intros cl Hcl Hfirst.
  - simpl. rewrite app_nil_r. destruct cl as [|l cl]; [done|].
    apply map_snd_section_chunks.
  - cbn [header_comes_first] in Hfirst.
    destruct (is_header line) eqn:Hline.
    + cbn [section_loop bodies_go]. rewrite Hline.
      apply is_header_match in Hline as [tg Htg]. rewrite Htg, Hct.
      cbn [andb app flat_map]. rewrite (body_chunks_blank max_chars cl Hcl).
      apply section_loop_titled. by eapply header_title_set.
    + destruct (is_blank line) eqn:Hb.
      * cbn [section_loop bodies_go]. rewrite Hline.
        destruct (roman_header_match (strip line)) as [tg|] eqn:Htg.
        { assert (is_header line = true) as Habs
            by (apply is_header_match; eauto). congruence. }
        apply IH; [|done]. apply Forall_app. by repeat constructor.
      * apply section_loop_plain. cbn [existsb]. rewrite Hline.
        by apply negb_true_iff in Hfirst.
Qed.

(** C2, amended. For every document of a file that is not multi-section,
    and every document of a multi-section file in which no text stands
    before the first header, and for every budget: the chunk texts,
    joined by one blank line, are the paragraphs of the source text,
    joined by one blank line, where the paragraphs are read off the
    source line by line: the blocks of lines between the blank lines
    (and the header lines), each put together with line feeds and
    without the whitespace at its two ends.  No paragraph is lost,
    repeated or moved. *)
Theorem chunks_cover_paragraphs (text filename : str) (max_chars : Z) :
  no_text_before_first_header text filename = true →
  join [LF; LF] (map snd (iter_section_chunks text filename max_chars))
  = join [LF; LF] (source_paragraphs text filename).
Proof.
  intros Hfirst. rewrite <- document_paragraphs_source.
  unfold no_text_before_first_header in Hfirst.
  unfold iter_section_chunks, document_paragraphs.
  case_bool_decide as Hmulti; cbn [negb orb] in *.
  - rewrite <- flat_body_chunks_join with (max_chars := max_chars). f_equal.
    apply section_loop_untitled; [done|constructor|].
    unfold normalize_newlines.
    rewrite splitlines_join by apply normalize_loop_no_break, splitlines_no_break.
    by rewrite header_comes_first_trim_last, header_comes_first_normalize.
  - rewrite map_snd_pair. apply split_chunks_join.
Qed.

Lemma chunks_cover_paragraphs_witness :
  let text := py "\nI. Scope\n first rule\n\n\nsecond rule\nII. Terms\nthird" in
  let filename := lit "living_on_campus.txt" in
  source_paragraphs text filename
  = [lit "first rule"; lit "second rule"; lit "third"]
  ∧ join [LF; LF] (map snd (iter_section_chunks text filename 12))
    = join [LF; LF] (source_paragraphs text filename).
Proof.
  split; [vm_compute; reflexivity|].
  apply (chunks_cover_paragraphs
           (py "\nI. Scope\n first rule\n\n\nsecond rule\nII. Terms\nthird")
           (lit "living_on_campus.txt") 12).
  vm_compute. reflexivity.
Defined.

End CoverFacts.
